(** * CRUD factory: idempotency cache, tenant scoping, soft delete

    A shallow embedding of [patterns/crud-factory/crud-factory.ts] (and of the
    interfaces of [crud.types.ts]) together with a model of the collaborators
    the factory talks to: the Supabase query builder, the auth session, the
    Zod schemas, the lifecycle hooks, [revalidatePath] and the wall clock.

    Every generated operation is a computation in a state-and-exception
    monad over a [World]: the database tables, the module-level
    [idempotencyCache], the number of clock readings taken so far, and a
    trace of the calls made to the collaborators. *)

From stdpp Require Import base option list gmap strings fin_maps.
From Stdlib Require Import ZArith Lia.

Open Scope string_scope.
Open Scope Z_scope.
Open Scope list_scope.

(** ** Rows, tables, errors *)

(** The scalar values a column (or a form field) can hold. *)
Inductive Value :=
| VNull
| VBool (b : bool)
| VNum (n : Z)
| VStr (s : string).

Global Instance Value_eq_dec : EqDecision Value.
Proof. solve_decision. Defined.

(** A row (and any plain JS object used as one) maps column names to values;
    a table is the list of its rows, a database maps table names to tables. *)
Abbreviation Row := (gmap string Value).
Abbreviation Table := (list (gmap string Value)).
Abbreviation DB := (gmap string (list (gmap string Value))).

(** [row.col]: a column that is not there reads as null. *)
Definition col (r : Row) (c : string) : Value := default VNull (r !! c).

(** The [error] member of a storage response. *)
Inductive PgError :=
| PGRST116                      (* .single(): zero rows, or more than one *)
| UndefinedTable (t : string)   (* the relation does not exist *)
| Rejected (msg : string).      (* a constraint refused the inserted row *)

(** What an operation can throw. *)
Inductive Err :=
| NotAuthenticated                    (* new Error('Not authenticated') *)
| NoSoftDelete (tableName : string)   (* new Error(`Table ${tableName} does not support soft delete`) *)
| ZodError (issues : list string)     (* thrown by schema.parse *)
| StorageError (e : PgError)          (* `if (error) throw error` *)
| HookError (msg : string).           (* whatever a lifecycle hook throws *)

Global Instance PgError_eq_dec : EqDecision PgError.
Proof. solve_decision. Defined.
Global Instance Err_eq_dec : EqDecision Err.
Proof. solve_decision. Defined.

(** A storage response [{ data, error }]. *)
Definition Response (A : Type) : Type := PgError + A.

(** ** Trace of collaborator calls *)

Inductive HookName :=
| BeforeCreate | AfterCreate
| BeforeUpdate | AfterUpdate
| BeforeDelete | AfterDelete
| BeforeRead.

Inductive SchemaName := InsertSchema | UpdateSchema.

Inductive StorageOp := OpSelect | OpInsert | OpUpdate | OpDelete.

Inductive Event :=
| EvParse (s : SchemaName)                  (* schema.parse(...) *)
| EvHook (h : HookName)                     (* options.hooks.h(...) *)
| EvStorage (op : StorageOp) (table : string) (* an awaited query *)
| EvRevalidate (path : string).             (* revalidatePath(path) *)

Global Instance HookName_eq_dec : EqDecision HookName.
Proof. solve_decision. Defined.
Global Instance SchemaName_eq_dec : EqDecision SchemaName.
Proof. solve_decision. Defined.
Global Instance StorageOp_eq_dec : EqDecision StorageOp.
Proof. solve_decision. Defined.
Global Instance Event_eq_dec : EqDecision Event.
Proof. solve_decision. Defined.

Definition is_write (e : Event) : bool :=
  match e with
  | EvStorage OpInsert _ | EvStorage OpUpdate _ | EvStorage OpDelete _ => true
  | _ => false
  end.

(** ** The world *)

(** An idempotency cache entry [{ result, timestamp }].  The results stored
    are rows returned by [.single()], which are objects and so never falsy. *)
Record CacheEntry := { result : Row; timestamp : Z }.

Record World := {
  db : DB;
  idempotencyCache : gmap string CacheEntry;  (* module-level Map *)
  clock_reads : nat;                          (* clock readings taken so far *)
  trace : list Event;
}.

Definition set_db (d : DB) (w : World) : World :=
  {| db := d; idempotencyCache := idempotencyCache w;
     clock_reads := clock_reads w; trace := trace w |}.
Definition set_cache (c : gmap string CacheEntry) (w : World) : World :=
  {| db := db w; idempotencyCache := c;
     clock_reads := clock_reads w; trace := trace w |}.
Definition tick (w : World) : World :=
  {| db := db w; idempotencyCache := idempotencyCache w;
     clock_reads := S (clock_reads w); trace := trace w |}.
Definition log (e : Event) (w : World) : World :=
  {| db := db w; idempotencyCache := idempotencyCache w;
     clock_reads := clock_reads w; trace := trace w ++ [e] |}.

(** ** The monad of operations: state plus exceptions *)

Inductive Outcome (A : Type) :=
| Ok (a : A)
| Throw (e : Err).
Arguments Ok {A} a.
Arguments Throw {A} e.

Definition M (A : Type) : Type := World -> Outcome A * World.

Definition ret {A} (a : A) : M A := fun w => (Ok a, w).
Definition throw {A} (e : Err) : M A := fun w => (Throw e, w).
Definition bind {A B} (m : M A) (k : A -> M B) : M B :=
  fun w => match m w with
           | (Ok a, w') => k a w'
           | (Throw e, w') => (Throw e, w')
           end.

Notation "x <- m ;; k" := (bind m (fun x => k))
  (at level 100, m at next level, right associativity).
Notation "m ;;; k" := (bind m (fun _ => k))
  (at level 100, right associativity).

Definition emit (e : Event) : M unit := fun w => (Ok tt, log e w).

(** ** The collaborators *)

(** The two storage handles of [@/lib/supabase/server].  Row-level policies
    of the database are outside the factory and are not modelled: the
    handle only decides whose session [auth.getUser()] reports. *)
Inductive Client := UserClient | AdminClient.

(** Everything the factory reads from its surroundings. *)
Record Env := {
  session_user : option string;   (* user.id of createClient().auth.getUser() *)
  admin_user : option string;     (* user.id of createAdminClient().auth.getUser() *)
  development : bool;             (* process.env.NODE_ENV === 'development' *)
  Date_now : nat -> Z;            (* the n-th reading of the clock, in ms *)
  toISOString : Z -> string;      (* Date.prototype.toISOString *)
  revalidatePath_throws : string -> bool;
  select_columns : string -> Row -> Row;      (* projection of a select list other than '*' *)
  column_leb : Value -> Value -> bool;        (* the column ordering used by .order() *)
  insert_row : string -> Table -> Row -> Response Row;
                                  (* defaults and constraints applied to an inserted row *)
}.

(** *** Query builder *)

Inductive Filter :=
| FEq (column : string) (v : Value)   (* .eq(column, v) *)
| FIsNull (column : string).          (* .is(column, null) *)

Definition holds (f : Filter) (r : Row) : bool :=
  match f with
  | FEq c v => bool_decide (r !! c = Some v) && negb (bool_decide (v = VNull))
  | FIsNull c => bool_decide (col r c = VNull)
  end.

Definition matches (fs : list Filter) (r : Row) : bool :=
  forallb (fun f => holds f r) fs.

Record Query := {
  q_table : string;
  q_columns : string;
  q_filters : list Filter;
  q_order : option (string * bool);   (* column, ascending *)
  q_limit : option Z;
  q_range : option (Z * Z);
}.

Definition from_select (t columns : string) : Query :=
  {| q_table := t; q_columns := columns; q_filters := [];
     q_order := None; q_limit := None; q_range := None |}.
Definition with_filter (f : Filter) (q : Query) : Query :=
  {| q_table := q_table q; q_columns := q_columns q;
     q_filters := q_filters q ++ [f];
     q_order := q_order q; q_limit := q_limit q; q_range := q_range q |}.
Definition q_eq (c : string) (v : Value) : Query -> Query := with_filter (FEq c v).
Definition q_is_null (c : string) : Query -> Query := with_filter (FIsNull c).
Definition order (c : string) (ascending : bool) (q : Query) : Query :=
  {| q_table := q_table q; q_columns := q_columns q; q_filters := q_filters q;
     q_order := Some (c, ascending); q_limit := q_limit q; q_range := q_range q |}.
Definition q_limit_to (n : Z) (q : Query) : Query :=
  {| q_table := q_table q; q_columns := q_columns q; q_filters := q_filters q;
     q_order := q_order q; q_limit := Some n; q_range := q_range q |}.
Definition range (from to : Z) (q : Query) : Query :=
  {| q_table := q_table q; q_columns := q_columns q; q_filters := q_filters q;
     q_order := q_order q; q_limit := q_limit q; q_range := Some (from, to) |}.

(** [.single()]: exactly one row, or the error PGRST116. *)
Definition single (resp : Response Table) : Response Row :=
  match resp with
  | inl e => inl e
  | inr [r] => inr r
  | inr _ => inl PGRST116
  end.

(** The rows at the zero-based positions [from .. to], both included. *)
Definition rows_in_range (from to : Z) (rows : Table) : Table :=
  take (Z.to_nat (to - from + 1)) (drop (Z.to_nat from) rows).

(** A range overrides a limit: both travel as the same request parameters. *)
Definition paginate (q : Query) (rows : Table) : Table :=
  match q_range q with
  | Some (from, to) => rows_in_range from to rows
  | None =>
      match q_limit q with
      | Some n => take (Z.to_nat n) rows
      | None => rows
      end
  end.

Fixpoint insert_sorted (leb : Row -> Row -> bool) (r : Row) (rows : Table) : Table :=
  match rows with
  | [] => [r]
  | x :: rest => if leb r x then r :: x :: rest else x :: insert_sorted leb r rest
  end.

Definition sort_rows (leb : Row -> Row -> bool) (rows : Table) : Table :=
  foldr (insert_sorted leb) [] rows.

(** *** Executing requests

    The storage collaborator is modelled as PostgREST answers behind the
    Supabase client.  A request on a table that does not exist answers with an
    error.  An update or a delete whose filters match no row is not an error
    and changes nothing.  [.single()] turns a result of zero or several rows
    into the error PGRST116, and rolls the change back when the request is a
    mutation.  An insert goes through the defaults and constraints of the
    table, which may reject it.  Transport failures and constraint violations
    on update are not modelled. *)

Section Storage.
Variable env : Env.

Definition project (columns : string) (r : Row) : Row :=
  if bool_decide (columns = "*") then r else select_columns env columns r.

Definition ordered (q : Query) (rows : Table) : Table :=
  match q_order q with
  | Some (c, true) => sort_rows (fun a b => column_leb env (col a c) (col b c)) rows
  | Some (c, false) => sort_rows (fun a b => column_leb env (col b c) (col a c)) rows
  | None => rows
  end.

(** The rows a select query designates, before projection. *)
Definition selected (q : Query) (rows : Table) : Table :=
  paginate q (ordered q (List.filter (matches (q_filters q)) rows)).

Definition exec_select (d : DB) (q : Query) : Response Table :=
  match d !! q_table q with
  | None => inl (UndefinedTable (q_table q))
  | Some rows => inr (project (q_columns q) <$> selected q rows)
  end.

(** [update(patch)] overwrites the patched columns of every matching row. *)
Definition patch_row (patch : Row) (fs : list Filter) (r : Row) : Row :=
  if matches fs r then patch ∪ r else r.

Definition exec_update (d : DB) (t : string) (patch : Row) (fs : list Filter)
  : Response Table * DB :=
  match d !! t with
  | None => (inl (UndefinedTable t), d)
  | Some rows =>
      (inr ((fun r => patch ∪ r) <$> List.filter (matches fs) rows),
       <[t := patch_row patch fs <$> rows]> d)
  end.

(** [update(patch)...select().single()]: a singular response that would
    hold no row, or several, is an error and the change is rolled back. *)
Definition exec_update_single (d : DB) (t : string) (patch : Row) (fs : list Filter)
  : Response Row * DB :=
  let '(resp, d') := exec_update d t patch fs in
  match single resp with
  | inl e => (inl e, d)
  | inr r => (inr r, d')
  end.

Definition exec_delete (d : DB) (t : string) (fs : list Filter) : Response unit * DB :=
  match d !! t with
  | None => (inl (UndefinedTable t), d)
  | Some rows => (inr tt, <[t := List.filter (fun r => negb (matches fs r)) rows]> d)
  end.

(** [insert(row).select().single()] *)
Definition exec_insert_single (d : DB) (t : string) (r : Row) : Response Row * DB :=
  match d !! t with
  | None => (inl (UndefinedTable t), d)
  | Some rows =>
      match insert_row env t rows r with
      | inl e => (inl e, d)
      | inr stored => (inr stored, <[t := (rows ++ [stored])]> d)
      end
  end.

(** Awaiting a query: one storage round trip, recorded in the trace. *)
Definition await_select (q : Query) : M (Response Table) :=
  fun w => (Ok (exec_select (db w) q), log (EvStorage OpSelect (q_table q)) w).

Definition await_write {A} (op : StorageOp) (t : string)
    (run : DB -> Response A * DB) : M (Response A) :=
  fun w => let '(resp, d') := run (db w) in
           (Ok resp, log (EvStorage op t) (set_db d' w)).

Definition await_update t patch fs : M (Response unit) :=
  await_write OpUpdate t (fun d =>
    let '(resp, d') := exec_update d t patch fs in
    (match resp with inl e => inl e | inr _ => inr tt end, d')).
Definition await_update_single t patch fs : M (Response Row) :=
  await_write OpUpdate t (fun d => exec_update_single d t patch fs).
Definition await_delete t fs : M (Response unit) :=
  await_write OpDelete t (fun d => exec_delete d t fs).
Definition await_insert_single t r : M (Response Row) :=
  await_write OpInsert t (fun d => exec_insert_single d t r).

(** [if (error) throw error] *)
Definition throw_on_error {A} (resp : Response A) : M A :=
  match resp with
  | inl e => throw (StorageError e)
  | inr a => ret a
  end.

(** [Date.now()] and [new Date().toISOString()]: one clock reading each. *)
Definition now : M Z :=
  fun w => (Ok (Date_now env (clock_reads w)), tick w).
Definition new_Date_toISOString : M string :=
  t <- now ;; ret (toISOString env t).

End Storage.

(** ** Interfaces of crud.types.ts *)

Inductive Operation := OpCreate | OpRead | OpUpdateRow | OpDeleteRow.

(** [OperationContext]; [entityId] is absent in the contexts typed
    [Omit<OperationContext, 'entityId'>], [metadata] is never supplied. *)
Record OperationContext := {
  operation : Operation;
  entityType : string;
  entityId : option Value;
  userId : Value;
  ctx_timestamp : string;
}.

(** A hook either returns ([None]) or throws ([Some e]). *)
Record CRUDHooks := {
  beforeCreate : option (Row -> OperationContext -> option Err);
  afterCreate : option (Row -> OperationContext -> option Err);
  beforeUpdate : option (string -> Row -> OperationContext -> option Err);
  afterUpdate : option (Row -> option Row -> OperationContext -> option Err);
  beforeDelete : option (string -> OperationContext -> option Err);
  afterDelete : option (Row -> OperationContext -> option Err);
  beforeRead : option (option string -> OperationContext -> option Err);
}.

Inductive SortOrder := asc | desc.

Global Instance SortOrder_eq_dec : EqDecision SortOrder.
Proof. solve_decision. Defined.

Record QueryOptions := {
  limit : option Z;
  offset : option Z;
  sortBy : option string;
  sortOrder : option SortOrder;
  filters : option (list (string * Value));
}.

Record CRUDOptions := {
  ownerIdColumn : option string;
  includeArchived : option bool;
  revalidatePaths : option (list string);
  selectQuery : option string;
  useProfileLookup : option bool;
  hasSoftDelete : option bool;
  defaultSort : option (string * bool);   (* column, ascending *)
  hooks : option CRUDHooks;
}.

(** A Zod schema: [parse] returns the typed value or throws the issues. *)
Definition Schema : Type := Row -> list string + Row.

(** The resolved [config] object of a factory. *)
Record Config := {
  cfg_ownerIdColumn : string;
  cfg_includeArchived : bool;
  cfg_revalidatePaths : list string;
  cfg_selectQuery : string;
  cfg_useProfileLookup : bool;
  cfg_hasSoftDelete : bool;
  cfg_defaultSort : string * bool;
}.

(** The bundle returned by the factory; [archive] and [unarchive] are
    optional members. *)
Record CRUDOperations := {
  op_getAll : option QueryOptions -> M Table;
  op_getOne : string -> M Row;
  op_create : Row -> option string -> M Row;
  op_update : string -> Row -> option string -> M Row;
  op_delete : string -> M unit;
  op_archive : option (string -> M unit);
  op_unarchive : option (string -> M unit);
}.

(** JS truthiness of the optional parameters the factory tests. *)
Definition truthy_string (s : option string) : bool :=
  match s with
  | Some k => negb (bool_decide (k = ""))
  | None => false
  end.
Definition truthy_number (n : option Z) : bool :=
  match n with
  | Some z => negb (z =? 0)
  | None => false
  end.

(** JavaScript numbers are IEEE 754 doubles.  [limit], [offset] and what
    is computed from them are taken integer-valued and finite, and an integer
    stands for the double of that value.  A double holds an integer exactly
    when 53 bits hold its magnitude once the trailing zero bits are dropped.
    [to_double n] is the double nearest to the integer [n], a tie going to
    the even significand: the value [+] and [-] give when their exact result
    is [n].  Results of magnitude [2^1024] and more, which JavaScript rounds
    to an infinity, are outside the model. *)
Definition to_double (n : Z) : Z :=
  let m := Z.abs n in
  if m <? 2 ^ 53 then n
  else
    let e := Z.log2 m - 52 in
    let q := Z.shiftr m e in
    let r := m - Z.shiftl q e in
    let half := Z.shiftl 1 (e - 1) in
    let q' := if (half <? r) || ((r =? half) && Z.odd q) then q + 1 else q in
    Z.sgn n * Z.shiftl q' e.

Definition js_add (a b : Z) : Z := to_double (a + b).
Definition js_sub (a b : Z) : Z := to_double (a - b).

Definition ends_with (suffix s : string) : bool :=
  String.eqb
    (String.substring (String.length s - String.length suffix)%nat (String.length suffix) s)
    suffix.

(** ** Idempotency cache *)

Definition CACHE_TTL_MS : Z := 5 * 60 * 1000.

Definition expired (t : Z) (entry : CacheEntry) : bool :=
  CACHE_TTL_MS <? t - timestamp entry.

Definition evict_expired (t : Z) (c : gmap string CacheEntry) : gmap string CacheEntry :=
  filter (fun kv => expired t kv.2 = false) c.

Definition read_cache : M (gmap string CacheEntry) :=
  fun w => (Ok (idempotencyCache w), w).
Definition write_cache (c : gmap string CacheEntry) : M unit :=
  fun w => (Ok tt, set_cache c w).

Section Factory.
Variable env : Env.

Definition cleanupExpiredCache : M unit :=
  t <- now env ;;
  c <- read_cache ;;
  write_cache (evict_expired t c).

Definition getCachedResult (key : string) : M (option Row) :=
  cleanupExpiredCache ;;;
  c <- read_cache ;;
  match c !! key with
  | Some entry =>
      t <- now env ;;
      if t - timestamp entry <=? CACHE_TTL_MS then ret (Some (result entry))
      else ret None
  | None => ret None
  end.

Definition setCachedResult (key : string) (r : Row) : M unit :=
  t <- now env ;;
  c <- read_cache ;;
  write_cache (<[key := {| result := r; timestamp := t |}]> c).

(** *** Internal helpers *)

Definition auth_getUser (supabase : Client) : option string :=
  match supabase with
  | UserClient => session_user env
  | AdminClient => admin_user env
  end.

Definition DEV_ID : string := "00000000-0000-0000-0000-000000000000".

(** Returns [(profileId, userId)]. *)
Definition getProfileId (supabase : Client) : M (Value * string) :=
  match auth_getUser supabase with
  | None =>
      if development env then ret (VStr DEV_ID, DEV_ID)
      else throw NotAuthenticated
  | Some uid =>
      resp <- await_select env
                (q_eq "auth_user_id" (VStr uid) (from_select "profiles" "id")) ;;
      match single resp with
      | inr profile => ret (col profile "id", uid)
      | inl _ => ret (VStr uid, uid)
      end
  end.

(** Returns [(supabase, ownerId)]. *)
Definition getContext : M (Client * string) :=
  match auth_getUser UserClient with
  | None =>
      if development env then
        ret (AdminClient, default DEV_ID (auth_getUser AdminClient))
      else throw NotAuthenticated
  | Some uid => ret (UserClient, uid)
  end.

Definition buildOperationContext (op : Operation) (entity : string)
    (id : Value) (user : Value) : M OperationContext :=
  ts <- new_Date_toISOString env ;;
  ret {| operation := op; entityType := entity; entityId := Some id;
         userId := user; ctx_timestamp := ts |}.

(** The literal context of [beforeRead] and [beforeCreate]. *)
Definition inlineContext (op : Operation) (entity : string) (user : Value)
    : M OperationContext :=
  ts <- new_Date_toISOString env ;;
  ret {| operation := op; entityType := entity; entityId := None;
         userId := user; ctx_timestamp := ts |}.

Definition determineOwnerColumn (tableName : string) (options : option CRUDOptions)
    : string :=
  if truthy_string (options ≫= ownerIdColumn)
  then default "owner_id" (options ≫= ownerIdColumn)
  else "owner_id".   (* ownerColumnMap is empty *)

(** [paths.forEach(revalidatePath)] inside [try { } catch { }]: the first
    call that throws ends the loop, and nothing surfaces. *)
Fixpoint revalidateAllPaths (paths : list string) : M unit :=
  match paths with
  | [] => ret tt
  | p :: rest =>
      emit (EvRevalidate p) ;;;
      if revalidatePath_throws env p then ret tt else revalidateAllPaths rest
  end.

Definition call_hook (h : HookName) (outcome : option Err) : M unit :=
  emit (EvHook h) ;;;
  match outcome with
  | Some e => throw e
  | None => ret tt
  end.

Definition parse (name : SchemaName) (schema : Schema) (v : Row) : M Row :=
  emit (EvParse name) ;;;
  match schema v with
  | inl issues => throw (ZodError issues)
  | inr validated => ret validated
  end.

(** Empty strings in UUID fields become null. *)
Definition processData (formData : Row) : Row :=
  map_imap (fun key v =>
    Some (if (String.eqb key "id" || ends_with "_id" key) && bool_decide (v = VStr "")
          then VNull else v)) formData.

(** *** The factory closure *)

Variable tableName : string.
Variable insertSchema updateSchema : Schema.
Variable options : option CRUDOptions.

Definition config : Config :=
  {| cfg_ownerIdColumn := determineOwnerColumn tableName options;
     cfg_includeArchived := default false (options ≫= includeArchived);
     cfg_revalidatePaths := default ["/" +:+ tableName] (options ≫= revalidatePaths);
     cfg_selectQuery := default "*" (options ≫= selectQuery);
     cfg_useProfileLookup := default false (options ≫= useProfileLookup);
     cfg_hasSoftDelete := default true (options ≫= hasSoftDelete);
     cfg_defaultSort := default ("created_at", false) (options ≫= defaultSort) |}.

(** [options?.hooks?.slot] *)
Definition hook {H} (slot : CRUDHooks -> option H) : option H :=
  (options ≫= hooks) ≫= slot.

(** The opening of every operation: [getContext()], then the profile
    indirection when configured.  Returns [finalOwnerId]. *)
Definition resolveOwner : M Value :=
  ctx <- getContext ;;
  if cfg_useProfileLookup config then
    p <- getProfileId ctx.1 ;;
    ret p.1
  else ret (VStr ctx.2).

(** [.eq('id', id).eq(config.ownerIdColumn, finalOwnerId)] *)
Definition scope (id : string) (finalOwnerId : Value) : list Filter :=
  [FEq "id" (VStr id); FEq (cfg_ownerIdColumn config) finalOwnerId].

(** The query [getAll] builds. *)
Definition listQuery (finalOwnerId : Value) (queryOptions : option QueryOptions) : Query :=
  let query := q_eq (cfg_ownerIdColumn config) finalOwnerId
                 (from_select tableName (cfg_selectQuery config)) in
  let query := if cfg_hasSoftDelete config && negb (cfg_includeArchived config)
               then q_is_null "archived_at" query else query in
  let query := foldl (fun q kv => q_eq kv.1 kv.2 q) query
                 (default [] (queryOptions ≫= filters)) in
  let sortBy' := default (cfg_defaultSort config).1 (queryOptions ≫= sortBy) in
  let ascending :=
    bool_decide (default (if (cfg_defaultSort config).2 then asc else desc)
                         (queryOptions ≫= sortOrder) = asc) in
  let query := order sortBy' ascending query in
  let query := if truthy_number (queryOptions ≫= limit)
               then q_limit_to (default 0 (queryOptions ≫= limit)) query else query in
  if truthy_number (queryOptions ≫= offset) && truthy_number (queryOptions ≫= limit)
  then range (default 0 (queryOptions ≫= offset))
             (js_sub (js_add (default 0 (queryOptions ≫= offset))
                             (default 0 (queryOptions ≫= limit))) 1)
             query
  else query.

Definition getAll (queryOptions : option QueryOptions) : M Table :=
  finalOwnerId <- resolveOwner ;;
  match hook beforeRead with
  | Some h =>
      ctx <- inlineContext OpRead tableName finalOwnerId ;;
      call_hook BeforeRead (h None ctx)
  | None => ret tt
  end ;;;
  resp <- await_select env (listQuery finalOwnerId queryOptions) ;;
  throw_on_error resp.

Definition getOne (id : string) : M Row :=
  finalOwnerId <- resolveOwner ;;
  resp <- await_select env
            (q_eq (cfg_ownerIdColumn config) finalOwnerId
               (q_eq "id" (VStr id) (from_select tableName (cfg_selectQuery config)))) ;;
  throw_on_error (single resp).

Definition create (formData : Row) (idempotencyKey : option string) : M Row :=
  cached <- (if truthy_string idempotencyKey
             then getCachedResult (default "" idempotencyKey)
             else ret None) ;;
  match cached with
  | Some r => ret r
  | None =>
      finalOwnerId <- resolveOwner ;;
      let processedData := processData formData in
      validated <- parse InsertSchema insertSchema
                     (<[cfg_ownerIdColumn config := finalOwnerId]> processedData) ;;
      match hook beforeCreate with
      | Some h =>
          ctx <- inlineContext OpCreate tableName finalOwnerId ;;
          call_hook BeforeCreate (h validated ctx)
      | None => ret tt
      end ;;;
      resp <- await_insert_single env tableName validated ;;
      data <- throw_on_error resp ;;
      match hook afterCreate with
      | Some h =>
          context <- buildOperationContext OpCreate tableName (col data "id") finalOwnerId ;;
          call_hook AfterCreate (h data context)
      | None => ret tt
      end ;;;
      revalidateAllPaths (cfg_revalidatePaths config) ;;;
      (if truthy_string idempotencyKey
       then setCachedResult (default "" idempotencyKey) data
       else ret tt) ;;;
      ret data
  end.

Definition update (id : string) (formData : Row) (idempotencyKey : option string)
    : M Row :=
  cached <- (if truthy_string idempotencyKey
             then getCachedResult (default "" idempotencyKey)
             else ret None) ;;
  match cached with
  | Some r => ret r
  | None =>
      finalOwnerId <- resolveOwner ;;
      let processedData := processData formData in
      validated <- parse UpdateSchema updateSchema processedData ;;
      (* Fetch previous data for afterUpdate delta *)
      previousData <-
        match hook afterUpdate with
        | Some _ =>
            prev <- await_select env
                      (q_eq (cfg_ownerIdColumn config) finalOwnerId
                         (q_eq "id" (VStr id) (from_select tableName "*"))) ;;
            match single prev with
            | inr r => ret (Some r)
            | inl _ => ret None
            end
        | None => ret None
        end ;;
      match hook beforeUpdate with
      | Some h =>
          context <- buildOperationContext OpUpdateRow tableName (VStr id) finalOwnerId ;;
          call_hook BeforeUpdate (h id validated context)
      | None => ret tt
      end ;;;
      resp <- await_update_single tableName validated (scope id finalOwnerId) ;;
      data <- throw_on_error resp ;;
      match hook afterUpdate with
      | Some h =>
          context <- buildOperationContext OpUpdateRow tableName (VStr id) finalOwnerId ;;
          call_hook AfterUpdate (h data previousData context)
      | None => ret tt
      end ;;;
      revalidateAllPaths (cfg_revalidatePaths config) ;;;
      (if truthy_string idempotencyKey
       then setCachedResult (default "" idempotencyKey) data
       else ret tt) ;;;
      ret data
  end.

(** The two patches of the soft-delete state machine. *)
Definition archived_patch (iso : string) : Row :=
  <["archived_at" := VStr iso]> (<["status" := VStr "archived"]> ∅).
Definition active_patch : Row :=
  <["archived_at" := VNull]> (<["status" := VStr "active"]> ∅).

Definition deleteRecord (id : string) : M unit :=
  finalOwnerId <- resolveOwner ;;
  deletedData <-
    match hook afterDelete with
    | Some _ =>
        resp <- await_select env
                  (q_eq (cfg_ownerIdColumn config) finalOwnerId
                     (q_eq "id" (VStr id) (from_select tableName "*"))) ;;
        match single resp with
        | inr r => ret (Some r)
        | inl _ => ret None
        end
    | None => ret None
    end ;;
  match hook beforeDelete with
  | Some h =>
      context <- buildOperationContext OpDeleteRow tableName (VStr id) finalOwnerId ;;
      call_hook BeforeDelete (h id context)
  | None => ret tt
  end ;;;
  (if cfg_hasSoftDelete config then
     iso <- new_Date_toISOString env ;;
     resp <- await_update tableName (archived_patch iso) (scope id finalOwnerId) ;;
     throw_on_error resp
   else
     resp <- await_delete tableName (scope id finalOwnerId) ;;
     throw_on_error resp) ;;;
  match hook afterDelete, deletedData with
  | Some h, Some deleted =>
      context <- buildOperationContext OpDeleteRow tableName (VStr id) finalOwnerId ;;
      call_hook AfterDelete (h deleted context)
  | _, _ => ret tt
  end ;;;
  revalidateAllPaths (cfg_revalidatePaths config).

Definition archive (id : string) : M unit :=
  if negb (cfg_hasSoftDelete config) then throw (NoSoftDelete tableName)
  else deleteRecord id.

Definition unarchive (id : string) : M unit :=
  if negb (cfg_hasSoftDelete config) then throw (NoSoftDelete tableName)
  else
    finalOwnerId <- resolveOwner ;;
    resp <- await_update tableName active_patch (scope id finalOwnerId) ;;
    throw_on_error resp ;;;
    revalidateAllPaths (cfg_revalidatePaths config).

(** Assemble and return. *)
Definition createCRUDOperations : CRUDOperations :=
  {| op_getAll := getAll;
     op_getOne := getOne;
     op_create := create;
     op_update := update;
     op_delete := deleteRecord;
     op_archive := if cfg_hasSoftDelete config then Some archive else None;
     op_unarchive := if cfg_hasSoftDelete config then Some unarchive else None |}.

End Factory.

(** ** Vocabulary of the statements *)

(** The opening lines of [create] and [update]: the idempotency lookup. *)
Definition cache_lookup (env : Env) (idempotencyKey : option string) : M (option Row) :=
  if truthy_string idempotencyKey
  then getCachedResult env (default "" idempotencyKey)
  else ret None.

(** [preserves R m]: whatever [m] returns or throws, the world it leaves is
    related by [R] to the world it started from. *)
Definition preserves {A} (R : World -> World -> Prop) (m : M A) : Prop :=
  forall w, R w (m w).2.

(** The trace only grows, by events that satisfy [P]. *)
Definition appended (P : Event -> Prop) (w w' : World) : Prop :=
  exists evs, trace w' = trace w ++ evs /\ Forall P evs.

(** Neither the tables nor the cache change; the trace grows by [P]-events. *)
Definition quiet (P : Event -> Prop) (w w' : World) : Prop :=
  db w' = db w /\ idempotencyCache w' = idempotencyCache w /\ appended P w w'.

(** Only the cache and the clock may change. *)
Definition cache_only (w w' : World) : Prop :=
  db w' = db w /\ trace w' = trace w.

(** If no entry was stored under the empty key, none is afterwards. *)
Definition keeps_keys_nonempty (w w' : World) : Prop :=
  idempotencyCache w !! "" = None -> idempotencyCache w' !! "" = None.

(** Three classes of events. *)
Definition any_event (e : Event) : Prop := True.
Definition not_write (e : Event) : Prop := is_write e = false.
Definition not_hook (e : Event) : Prop :=
  match e with
  | EvHook _ => False
  | _ => True
  end.

(** Several events logged at once. *)
Definition log_all (evs : list Event) (w : World) : World :=
  {| db := db w; idempotencyCache := idempotencyCache w;
     clock_reads := clock_reads w; trace := trace w ++ evs |}.

(** The calls [revalidateAllPaths] makes. *)
Fixpoint revalidated (env : Env) (paths : list string) : list Event :=
  match paths with
  | [] => []
  | p :: rest =>
      EvRevalidate p :: (if revalidatePath_throws env p then [] else revalidated env rest)
  end.

(** [wp m w Q]: running [m] from [w] ends in an outcome and a world that
    satisfy [Q]. *)
Definition wp {A} (m : M A) (w : World) (Q : Outcome A -> World -> Prop) : Prop :=
  Q (m w).1 (m w).2.

(** [m] sees the world only through the tables. *)
Definition db_determined {A} (m : M A) : Prop :=
  forall w w', db w = db w' -> (m w).1 = (m w').1 /\ db (m w).2 = db (m w').2.

(** The world in which [update] calls [beforeUpdate], given the world [w1]
    in which the owner was resolved: the input has been parsed, and the
    previous row fetched if, and only if, an [afterUpdate] hook is
    registered. *)
Definition before_update_world (tableName : string) (options : option CRUDOptions)
    (w1 : World) : World :=
  match hook options afterUpdate with
  | Some _ => log (EvStorage OpSelect tableName) (log (EvParse UpdateSchema) w1)
  | None => log (EvParse UpdateSchema) w1
  end.

(** ** A small deployment, used in the examples

    Two tenants, alice and bob, share the [contacts] table; [projects] is a
    second collection.  The clock advances one second per reading. *)

Definition demo_env (user : option string) : Env :=
  {| session_user := user;
     admin_user := None;
     development := false;
     Date_now := fun n => 1000 * Z.of_nat n;
     toISOString := fun _ => "2024-05-01T12:00:00.000Z";
     revalidatePath_throws := fun _ => false;
     select_columns := fun _ r => r;
     column_leb := fun _ _ => true;
     insert_row := fun _ _ r =>
       inr (<["id" := VStr "c3"]>
              (<["archived_at" := VNull]> (<["status" := VStr "active"]> r))) |}.

Definition contact (id owner name : string) : Row :=
  {[ "id" := VStr id; "owner_id" := VStr owner; "name" := VStr name;
     "archived_at" := VNull; "status" := VStr "active" ]}.

Definition demo_db : DB :=
  {[ "contacts" := [contact "c1" "alice" "Ann"; contact "c2" "bob" "Ben"];
     "projects" := [] ]}.

Definition demo_world : World :=
  {| db := demo_db; idempotencyCache := ∅; clock_reads := 0; trace := [] |}.

(** A schema that accepts everything, and one that insists on a non-empty
    [name] when a name is given. *)
Definition accept_all : Schema := fun v => inr v.
Definition name_not_empty : Schema :=
  fun v => if bool_decide (v !! "name" = Some (VStr ""))
           then inl ["name: String must contain at least 1 character(s)"]
           else inr v.

(** Options that switch soft delete off. *)
Definition hard_delete_options : CRUDOptions :=
  {| ownerIdColumn := None; includeArchived := None; revalidatePaths := None;
     selectQuery := None; useProfileLookup := None; hasSoftDelete := Some false;
     defaultSort := None; hooks := None |}.

(** Options whose only content is a [beforeCreate] hook that always throws. *)
Definition failing_beforeCreate_options : CRUDOptions :=
  {| ownerIdColumn := None; includeArchived := None; revalidatePaths := None;
     selectQuery := None; useProfileLookup := None; hasSoftDelete := None;
     defaultSort := None;
     hooks := Some {| beforeCreate := Some (fun _ _ => Some (HookError "quota exceeded"));
                      afterCreate := None; beforeUpdate := None; afterUpdate := None;
                      beforeDelete := None; afterDelete := None; beforeRead := None |} |}.

(** The world after alice created a contact under the key ["key-1"]. *)
Definition jane : Row := {[ "name" := VStr "Jane" ]}.
Definition after_keyed_create : World :=
  (create (demo_env (Some "alice")) "contacts" accept_all None jane (Some "key-1")
     demo_world).2.
Definition jane_row : Row :=
  <["id" := VStr "c3"]>
    (<["archived_at" := VNull]>
       (<["status" := VStr "active"]> (<["owner_id" := VStr "alice"]> jane))).

(** The first page of twenty, as in the README. *)
Definition first_page : QueryOptions :=
  {| limit := Some 20; offset := Some 0; sortBy := None; sortOrder := None;
     filters := None |}.

(** A world in which alice has an active and an archived contact. *)
Definition archived_contact (id owner name : string) : Row :=
  <["status" := VStr "archived"]>
    (<["archived_at" := VStr "2024-04-30T08:00:00.000Z"]> (contact id owner name)).

Definition world_with_archived : World :=
  {| db := {[ "contacts" := [contact "c1" "alice" "Ann";
                             archived_contact "c4" "alice" "Al";
                             contact "c2" "bob" "Ben"] ]};
     idempotencyCache := ∅; clock_reads := 0; trace := [] |}.

(** Alice archives her contact [c1], then restores it. *)
Definition after_archive : World :=
  (archive (demo_env (Some "alice")) "contacts" None "c1" demo_world).2.
Definition after_restore : World :=
  (unarchive (demo_env (Some "alice")) "contacts" None "c1" after_archive).2.

(** The cache after bob's keyed update of his contact [c2]. *)
Definition shared_key_world : World :=
  {| db := demo_db;
     idempotencyCache := {[ "k" := {| result := contact "c2" "bob" "Ben";
                                      timestamp := 1000 |} ]};
     clock_reads := 2; trace := [] |}.

(** A second collection's payload. *)
Definition apollo : Row := {[ "title" := VStr "Apollo" ]}.

(** ** The React hooks of patterns/hooks/useOptimisticCRUD.ts

    The state cells of a hook ([useState]) are the fields of a record.
    [execute] threads the record through the setter calls in program order,
    so the record it ends with is the state the component renders once the
    call has settled.  The wrapped CRUD function and the callbacks are given
    by their outcome: what they return, or what they throw. *)

Record JsError := { error_name : string; error_message : string }.

(** What a [catch] clause can receive: an [Error] instance, or any other
    value. *)
Inductive Thrown :=
| ThrownError (e : JsError)
| ThrownValue (v : Value).

(** [err instanceof Error ? err : new Error('An unknown error occurred')] *)
Definition toError (err : Thrown) : JsError :=
  match err with
  | ThrownError e => e
  | ThrownValue _ =>
      {| error_name := "Error"; error_message := "An unknown error occurred" |}
  end.

(** The calls a hook makes, in order. *)
Inductive HookCall :=
| CrudCalled
| OnSuccessCalled
| OnErrorCalled (e : JsError).

Record CRUDState := { isPending : bool; error : option JsError }.

Record CRUDDataState (TOptimistic : Type) := {
  d_isPending : bool;
  d_error : option JsError;
  optimisticData : option TOptimistic;
}.
Arguments d_isPending {TOptimistic} _.
Arguments d_error {TOptimistic} _.
Arguments optimisticData {TOptimistic} _.

Record OptimisticOptions (TArgs TResult TOptimistic : Type) := {
  getOptimisticData : option (TArgs -> Thrown + TOptimistic);
  onSuccess : option (TResult -> option Thrown);
  onError : option (JsError -> option Thrown);
}.
Arguments getOptimisticData {TArgs TResult TOptimistic} _.
Arguments onSuccess {TArgs TResult TOptimistic} _.
Arguments onError {TArgs TResult TOptimistic} _.

Section UseOptimisticCRUD.
Context {TArgs TResult : Type}.
Variable crudFunction : TArgs -> Thrown + TResult.

(** [useOptimisticCRUD(crudFunction).execute]: the value it resolves to, or
    the error it rejects with, and the state it leaves. *)
Definition execute (args : TArgs) (s : CRUDState) : (JsError + TResult) * CRUDState :=
  let s := {| isPending := true; error := error s |} in
  let s := {| isPending := isPending s; error := None |} in
  match crudFunction args with
  | inr r => (inr r, {| isPending := false; error := error s |})
  | inl err =>
      let e := toError err in
      let s := {| isPending := isPending s; error := Some e |} in
      (inl e, {| isPending := false; error := error s |})
  end.

(** The state rendered while [crudFunction] is awaited. *)
Definition execute_pending (s : CRUDState) : CRUDState :=
  let s := {| isPending := true; error := error s |} in
  {| isPending := isPending s; error := None |}.

Definition reset (s : CRUDState) : CRUDState :=
  let s := {| isPending := false; error := error s |} in
  {| isPending := isPending s; error := None |}.

End UseOptimisticCRUD.

Section UseOptimisticCRUDWithData.
Context {TArgs TResult TOptimistic : Type}.
Variable crudFunction : TArgs -> Thrown + TResult.
Variable hook_options : option (OptimisticOptions TArgs TResult TOptimistic).

(** The [catch] block of [execute]. *)
Definition execute_catch (err : Thrown) (calls : list HookCall)
    : (Thrown + TResult) * CRUDDataState TOptimistic * list HookCall :=
  let e := toError err in
  let s := {| d_isPending := false; d_error := Some e; optimisticData := None |} in
  match hook_options ≫= onError with
  | Some f =>
      match f e with
      | None => (inl (ThrownError e), s, calls ++ [OnErrorCalled e])
      | Some thrown => (inl thrown, s, calls ++ [OnErrorCalled e])
      end
  | None => (inl (ThrownError e), s, calls)
  end.

(** The [try] block of [execute], entered in a state whose [optimisticData]
    is [shown]. *)
Definition execute_try (args : TArgs) (shown : option TOptimistic)
    : (Thrown + TResult) * CRUDDataState TOptimistic * list HookCall :=
  match crudFunction args with
  | inr r =>
      let s := {| d_isPending := false; d_error := None; optimisticData := None |} in
      match hook_options ≫= onSuccess with
      | Some f =>
          match f r with
          | None => (inr r, s, [CrudCalled; OnSuccessCalled])
          | Some thrown => execute_catch thrown [CrudCalled; OnSuccessCalled]
          end
      | None => (inr r, s, [CrudCalled])
      end
  | inl err => execute_catch err [CrudCalled]
  end.

(** The state rendered while [crudFunction] is awaited, or what
    [getOptimisticData] threw before the [try] block was entered. *)
Definition execute_with_data_pending (args : TArgs) (s : CRUDDataState TOptimistic)
    : Thrown + CRUDDataState TOptimistic :=
  let s := {| d_isPending := true; d_error := None; optimisticData := optimisticData s |} in
  match hook_options ≫= getOptimisticData with
  | Some g =>
      match g args with
      | inr o => inr {| d_isPending := d_isPending s; d_error := d_error s;
                        optimisticData := Some o |}
      | inl thrown => inl thrown
      end
  | None => inr s
  end.

(** [useOptimisticCRUDWithData(crudFunction, options).execute] *)
Definition execute_with_data (args : TArgs) (s : CRUDDataState TOptimistic)
    : (Thrown + TResult) * CRUDDataState TOptimistic * list HookCall :=
  match execute_with_data_pending args s with
  | inl thrown =>
      (inl thrown,
       {| d_isPending := true; d_error := None; optimisticData := optimisticData s |},
       [])
  | inr pending => execute_try args (optimisticData pending)
  end.

Definition reset_with_data (s : CRUDDataState TOptimistic) : CRUDDataState TOptimistic :=
  {| d_isPending := false; d_error := None; optimisticData := None |}.

End UseOptimisticCRUDWithData.

(** ** More vocabulary *)

(** The cache is left as it was. *)
Definition same_cache (w w' : World) : Prop :=
  idempotencyCache w' = idempotencyCache w.

(** Rows outside the filters survive, and no other table changes. *)
Definition only_in_scope (t : string) (fs : list Filter) (d d' : DB) : Prop :=
  (forall t', t' <> t -> d' !! t' = d !! t')
  /\ (forall rows, d !! t = Some rows ->
        exists rows', d' !! t = Some rows'
                      /\ forall r, r ∈ rows -> matches fs r = false -> r ∈ rows')
  /\ (d !! t = None -> d' !! t = None).

(** [key === 'id' || key.endsWith('_id')], said without the string
    functions. *)
Definition uuid_field (key : string) : Prop :=
  key = "id" \/ exists prefix, key = prefix +:+ "_id".

(** ** More of the small deployment *)

(** A deployment with no session outside development, and one in
    development. *)
Definition dev_env : Env :=
  {| session_user := None;
     admin_user := None;
     development := true;
     Date_now := fun n => 1000 * Z.of_nat n;
     toISOString := fun _ => "2024-05-01T12:00:00.000Z";
     revalidatePath_throws := fun _ => false;
     select_columns := fun _ r => r;
     column_leb := fun _ _ => true;
     insert_row := fun _ _ r => inr r |}.

(** A deployment whose [revalidatePath] throws on ["/b"]. *)
Definition flaky_env : Env :=
  {| session_user := Some "alice";
     admin_user := None;
     development := false;
     Date_now := fun n => 1000 * Z.of_nat n;
     toISOString := fun _ => "2024-05-01T12:00:00.000Z";
     revalidatePath_throws := fun p => bool_decide (p = "/b");
     select_columns := fun _ r => r;
     column_leb := fun _ _ => true;
     insert_row := fun _ _ r => inr r |}.

(** A deployment whose [contacts] table refuses every insert. *)
Definition rejecting_env : Env :=
  {| session_user := Some "alice";
     admin_user := None;
     development := false;
     Date_now := fun n => 1000 * Z.of_nat n;
     toISOString := fun _ => "2024-05-01T12:00:00.000Z";
     revalidatePath_throws := fun _ => false;
     select_columns := fun _ r => r;
     column_leb := fun _ _ => true;
     insert_row := fun _ _ _ => inl (Rejected "contacts_name_key") |}.

Definition profile_lookup_options : CRUDOptions :=
  {| ownerIdColumn := None; includeArchived := None; revalidatePaths := None;
     selectQuery := None; useProfileLookup := Some true; hasSoftDelete := None;
     defaultSort := None; hooks := None |}.

Definition failing_afterCreate_options : CRUDOptions :=
  {| ownerIdColumn := None; includeArchived := None; revalidatePaths := None;
     selectQuery := None; useProfileLookup := None; hasSoftDelete := None;
     defaultSort := None;
     hooks := Some {| beforeCreate := None;
                      afterCreate := Some (fun _ _ => Some (HookError "mail server down"));
                      beforeUpdate := None; afterUpdate := None;
                      beforeDelete := None; afterDelete := None; beforeRead := None |} |}.

(** A world whose [profiles] table maps the auth user [alice] to the
    profile [p-alice], and in which that profile owns a contact. *)
Definition profile_world : World :=
  {| db := {[ "profiles" := [ {[ "id" := VStr "p-alice";
                                 "auth_user_id" := VStr "alice" ]} ];
              "contacts" := [contact "c7" "p-alice" "Pat"] ]};
     idempotencyCache := ∅; clock_reads := 0; trace := [] |}.

(** A development deployment whose admin client has the user [root], and
    a world in which [root] has the profile [p-root]. *)
Definition dev_admin_env : Env :=
  {| session_user := None;
     admin_user := Some "root";
     development := true;
     Date_now := fun n => 1000 * Z.of_nat n;
     toISOString := fun _ => "2024-05-01T12:00:00.000Z";
     revalidatePath_throws := fun _ => false;
     select_columns := fun _ r => r;
     column_leb := fun _ _ => true;
     insert_row := fun _ _ r => inr r |}.
Definition admin_profile_world : World :=
  {| db := {[ "profiles" := [ {[ "id" := VStr "p-alice";
                                 "auth_user_id" := VStr "alice" ]};
                              {[ "id" := VStr "p-root";
                                 "auth_user_id" := VStr "root" ]} ];
              "contacts" := [contact "c8" "p-root" "Rob"] ]};
     idempotencyCache := ∅; clock_reads := 0; trace := [] |}.

(** A world in which alice has three contacts, and the query options that
    ask for one record after the first. *)
Definition crowded_world : World :=
  {| db := {[ "contacts" := [contact "c1" "alice" "Ann"; contact "c2" "bob" "Ben";
                             contact "c5" "alice" "Eve"; contact "c6" "alice" "Fay"] ]};
     idempotencyCache := ∅; clock_reads := 0; trace := [] |}.
Definition one_after_the_first : QueryOptions :=
  {| limit := Some 1; offset := Some 1; sortBy := None; sortOrder := None;
     filters := None |}.

(** A world in which the key ["key-1"] was stored at time 0, read when the
    clock shows more than five minutes. *)
Definition stale_world : World :=
  {| db := demo_db;
     idempotencyCache := {[ "key-1" := {| result := contact "c1" "alice" "Ann";
                                          timestamp := 0 |} ]};
     clock_reads := 301; trace := [] |}.

(** ** Vocabulary and examples of the further properties *)

(** The filters of the query [getAll] builds, in order. *)
Definition list_filters (tableName : string) (options : option CRUDOptions)
    (finalOwnerId : Value) (queryOptions : option QueryOptions) : list Filter :=
  FEq (cfg_ownerIdColumn (config tableName options)) finalOwnerId
  :: (if cfg_hasSoftDelete (config tableName options)
         && negb (cfg_includeArchived (config tableName options))
      then [FIsNull "archived_at"] else [])
  ++ ((fun kv => FEq kv.1 kv.2) <$> default [] (queryOptions ≫= filters)).

(** The tables after a step differ from those before only in rows the
    filters match. *)
Definition scoped_write (t : string) (fs : list Filter) (w w' : World) : Prop :=
  only_in_scope t fs (db w) (db w').

(** Every event but a call of [revalidatePath]. *)
Definition not_revalidate (e : Event) : Prop :=
  match e with
  | EvRevalidate _ => False
  | _ => True
  end.

(** Options that name three paths to revalidate. *)
Definition revalidating_options : CRUDOptions :=
  {| ownerIdColumn := None; includeArchived := None;
     revalidatePaths := Some ["/a"; "/b"; "/c"];
     selectQuery := None; useProfileLookup := None; hasSoftDelete := None;
     defaultSort := None; hooks := None |}.

(** A form that shows the submitted row at once, and a server action that
    rejects with something that is no [Error]. *)
Definition optimistic_form : option (OptimisticOptions Row Row Row) :=
  Some {| getOptimisticData := Some (fun data => inr (<["id" := VStr "temp"]> data));
          onSuccess := Some (fun _ => None);
          onError := Some (fun _ => None) |}.
Definition broken_preview : option (OptimisticOptions Row Row Row) :=
  Some {| getOptimisticData := Some (fun _ => inl (ThrownValue (VStr "no preview")));
          onSuccess := None;
          onError := None |}.
Definition rejecting_action : Row -> Thrown + Row :=
  fun _ => inl (ThrownValue (VStr "offline")).
Definition idle : CRUDDataState Row :=
  {| d_isPending := false; d_error := None; optimisticData := None |}.

(** * Verification *)

(** ** Running computations step by step *)

Lemma bind_ok {A B} (m : M A) (k : A -> M B) w a w' :
  m w = (Ok a, w') -> bind m k w = k a w'.
Proof. intros H. unfold bind. by rewrite H. Qed.

Lemma bind_throw {A B} (m : M A) (k : A -> M B) w e w' :
  m w = (Throw e, w') -> bind m k w = (Throw e, w').
Proof. intros H. unfold bind. by rewrite H. Qed.

Lemma bind_ok_inv {A B} (m : M A) (k : A -> M B) w b w2 :
  bind m k w = (Ok b, w2) ->
  exists a w1, m w = (Ok a, w1) /\ k a w1 = (Ok b, w2).
Proof.
  unfold bind. destruct (m w) as [[a|e] w1]; intros H; [eauto | discriminate].
Qed.

(** ** Frame properties *)

Global Instance appended_preorder P : PreOrder (appended P).
Proof.
  split.
  - intros w. exists []. by rewrite app_nil_r.
  - intros x y z (e1 & H1 & F1) (e2 & H2 & F2). exists (e1 ++ e2).
    rewrite H2, H1, app_assoc. split; [done | by apply Forall_app].
Qed.

Global Instance quiet_preorder P : PreOrder (quiet P).
Proof.
  split.
  - intros w. repeat split. reflexivity.
  - intros x y z (D1 & C1 & T1) (D2 & C2 & T2). repeat split; [congruence .. |].
    by etrans.
Qed.

Global Instance cache_only_preorder : PreOrder cache_only.
Proof.
  split; [by intros w |].
  intros x y z [D1 T1] [D2 T2]. split; congruence.
Qed.

Lemma appended_same P w w' : trace w' = trace w -> appended P w w'.
Proof. intros H. exists []. by rewrite app_nil_r. Qed.

Lemma appended_log P e w : P e -> appended P w (log e w).
Proof. intros H. exists [e]. split; [done | by constructor]. Qed.

Lemma appended_weaken (P Q : Event -> Prop) w w' :
  (forall e, P e -> Q e) -> appended P w w' -> appended Q w w'.
Proof.
  intros HPQ (evs & H & F). exists evs. split; [done |].
  eapply Forall_impl; eauto.
Qed.

Section Frames.
Context (R : World -> World -> Prop) `{!PreOrder R}.

Lemma preserves_ret {A} (a : A) : preserves R (ret a).
Proof. intros w. simpl. reflexivity. Qed.

Lemma preserves_throw {A} e : preserves R (@throw A e).
Proof. intros w. simpl. reflexivity. Qed.

Lemma preserves_bind {A B} (m : M A) (k : A -> M B) :
  preserves R m -> (forall a, preserves R (k a)) -> preserves R (bind m k).
Proof.
  intros Hm Hk w. unfold bind. specialize (Hm w).
  destruct (m w) as [[a|e] w1]; simpl in *; [| done].
  etrans; [exact Hm | apply Hk].
Qed.

Lemma preserves_if {A} (b : bool) (m1 m2 : M A) :
  preserves R m1 -> preserves R m2 -> preserves R (if b then m1 else m2).
Proof. by destruct b. Qed.

Lemma preserves_run {A} (m : M A) w o w' :
  preserves R m -> m w = (o, w') -> R w w'.
Proof. intros H E. specialize (H w). by rewrite E in H. Qed.
End Frames.

Lemma preserves_weaken {A} (R R' : World -> World -> Prop) (m : M A) :
  (forall w w', R w w' -> R' w w') -> preserves R m -> preserves R' m.
Proof. intros HR Hm w. apply HR, Hm. Qed.

(** Step-by-step frame proofs: split binds and conditionals, then close the
    leaves with the lemmas registered in the [frame] database. *)
Create HintDb frame discriminated.

Ltac frame_step :=
  first
    [ solve [eauto with frame]
    | apply preserves_bind; [typeclasses eauto | | intros ?]
    | apply preserves_ret; typeclasses eauto
    | apply preserves_throw; typeclasses eauto
    | apply preserves_if; [typeclasses eauto | | ]
    | match goal with
      | |- preserves _ (match ?x with _ => _ end) => destruct x
      end ].

Ltac frame := repeat frame_step.

Section QuietSteps.
Variable env : Env.
Variable P : Event -> Prop.

Lemma emit_quiet e : P e -> preserves (quiet P) (emit e).
Proof. intros H w. repeat split. by apply appended_log. Qed.

Lemma now_quiet : preserves (quiet P) (now env).
Proof. intros w. repeat split. by apply appended_same. Qed.

Lemma await_select_quiet q :
  P (EvStorage OpSelect (q_table q)) -> preserves (quiet P) (await_select env q).
Proof. intros H w. repeat split. by apply appended_log. Qed.

Lemma throw_on_error_quiet {A} (resp : Response A) :
  preserves (quiet P) (throw_on_error resp).
Proof. destruct resp; frame. Qed.

Lemma new_Date_toISOString_quiet : preserves (quiet P) (new_Date_toISOString env).
Proof. unfold new_Date_toISOString. frame. apply now_quiet. Qed.

Lemma buildOperationContext_quiet op entity id user :
  preserves (quiet P) (buildOperationContext env op entity id user).
Proof. unfold buildOperationContext. frame. apply new_Date_toISOString_quiet. Qed.

Lemma inlineContext_quiet op entity user :
  preserves (quiet P) (inlineContext env op entity user).
Proof. unfold inlineContext. frame. apply new_Date_toISOString_quiet. Qed.

Lemma call_hook_quiet h outcome :
  P (EvHook h) -> preserves (quiet P) (call_hook h outcome).
Proof. intros H. unfold call_hook. frame. by apply emit_quiet. Qed.

Lemma parse_quiet name schema v :
  P (EvParse name) -> preserves (quiet P) (parse name schema v).
Proof. intros H. unfold parse. frame. by apply emit_quiet. Qed.

Lemma revalidateAllPaths_quiet paths :
  (forall p, P (EvRevalidate p)) -> preserves (quiet P) (revalidateAllPaths env paths).
Proof.
  intros H. induction paths as [|p rest IH]; simpl; frame.
  by apply emit_quiet.
Qed.

Lemma getContext_quiet : preserves (quiet P) (getContext env).
Proof. unfold getContext. frame. Qed.

Lemma getProfileId_quiet supabase :
  P (EvStorage OpSelect "profiles") -> preserves (quiet P) (getProfileId env supabase).
Proof. intros H. unfold getProfileId. frame. by apply await_select_quiet. Qed.

Lemma resolveOwner_quiet tableName options :
  P (EvStorage OpSelect "profiles") ->
  preserves (quiet P) (resolveOwner env tableName options).
Proof.
  intros H. unfold resolveOwner. frame.
  - apply getContext_quiet.
  - by apply getProfileId_quiet.
Qed.
End QuietSteps.

Global Hint Resolve emit_quiet now_quiet await_select_quiet throw_on_error_quiet
  new_Date_toISOString_quiet buildOperationContext_quiet inlineContext_quiet
  call_hook_quiet parse_quiet revalidateAllPaths_quiet getContext_quiet
  getProfileId_quiet resolveOwner_quiet : frame.
Global Hint Extern 1 (not_write _) => reflexivity : frame.
Global Hint Extern 1 (not_hook _) => exact I : frame.

(** ** The idempotency cache *)

Lemma evict_expired_lookup t c k e :
  evict_expired t c !! k = Some e <->
  c !! k = Some e /\ t - timestamp e <= CACHE_TTL_MS.
Proof.
  unfold evict_expired. rewrite map_lookup_filter_Some. unfold expired. simpl.
  rewrite Z.ltb_ge. done.
Qed.

Section Cache.
Variable env : Env.

Lemma cleanupExpiredCache_run w :
  cleanupExpiredCache env w =
  (Ok tt, set_cache (evict_expired (Date_now env (clock_reads w)) (idempotencyCache w))
            (tick w)).
Proof. reflexivity. Qed.

(** What a lookup returns and the world it leaves. *)
Lemma getCachedResult_run key w :
  let t1 := Date_now env (clock_reads w) in
  let t2 := Date_now env (S (clock_reads w)) in
  let w1 := set_cache (evict_expired t1 (idempotencyCache w)) (tick w) in
  getCachedResult env key w =
  match evict_expired t1 (idempotencyCache w) !! key with
  | Some entry =>
      (Ok (if t2 - timestamp entry <=? CACHE_TTL_MS then Some (result entry) else None),
       tick w1)
  | None => (Ok None, w1)
  end.
Proof.
  intros t1 t2 w1. unfold getCachedResult.
  rewrite (bind_ok _ _ _ _ _ (cleanupExpiredCache_run w)).
  unfold bind, read_cache. simpl.
  destruct (evict_expired _ _ !! key) as [entry|]; [| done].
  simpl. by destruct (_ <=? _).
Qed.

Lemma getCachedResult_cache_only key : preserves cache_only (getCachedResult env key).
Proof.
  intros w. rewrite getCachedResult_run. by destruct (evict_expired _ _ !! key).
Qed.

Lemma setCachedResult_run key r w :
  setCachedResult env key r w =
  (Ok tt, set_cache (<[key := {| result := r;
                                 timestamp := Date_now env (clock_reads w) |}]>
                       (idempotencyCache w)) (tick w)).
Proof. reflexivity. Qed.

Lemma setCachedResult_cache_only key r : preserves cache_only (setCachedResult env key r).
Proof. by intros w. Qed.

(** A lookup that finds a live entry. *)
Lemma getCachedResult_hit key entry w :
  idempotencyCache w !! key = Some entry ->
  Date_now env (clock_reads w) - timestamp entry <= CACHE_TTL_MS ->
  Date_now env (S (clock_reads w)) - timestamp entry <= CACHE_TTL_MS ->
  getCachedResult env key w =
  (Ok (Some (result entry)),
   tick (set_cache (evict_expired (Date_now env (clock_reads w)) (idempotencyCache w))
           (tick w))).
Proof.
  intros Hk H1 H2. rewrite getCachedResult_run. simpl.
  assert (evict_expired (Date_now env (clock_reads w)) (idempotencyCache w) !! key
          = Some entry) as -> by by apply evict_expired_lookup.
  by rewrite (proj2 (Z.leb_le _ _) H2).
Qed.

(** A hit returns the result of an entry that is still in the cache. *)
Lemma getCachedResult_some key w r w' :
  getCachedResult env key w = (Ok (Some r), w') ->
  exists entry, idempotencyCache w' !! key = Some entry /\ result entry = r.
Proof.
  rewrite getCachedResult_run. simpl.
  destruct (evict_expired _ _ !! key) as [entry|] eqn:E; [| done].
  destruct (_ <=? _); [| done]. intros [= <- <-]. by exists entry.
Qed.
End Cache.

Global Hint Resolve getCachedResult_cache_only setCachedResult_cache_only : frame.

Section MutationsAndCache.
Variable env : Env.
Variable tableName : string.
Variable insertSchema updateSchema : Schema.
Variable options : option CRUDOptions.

Lemma truthy_string_Some key : key <> "" -> truthy_string (Some key) = true.
Proof. intros H. unfold truthy_string. by rewrite bool_decide_eq_false_2. Qed.

Lemma store_then_return_inv key data r w w' :
  ((if true then setCachedResult env (default "" (Some key)) data
    else ret tt) ;;; ret data) w = (Ok r, w') ->
  exists entry, idempotencyCache w' !! key = Some entry /\ result entry = r.
Proof.
  simpl.
  rewrite (bind_ok _ _ _ _ _ (setCachedResult_run env key data w)).
  intros [= <- <-]. eexists. split; [apply lookup_insert_eq | done].
Qed.

(** A keyed [create] that returns leaves its result under the key. *)
Lemma create_records_result formData key r w w' :
  key <> "" ->
  create env tableName insertSchema options formData (Some key) w = (Ok r, w') ->
  exists entry, idempotencyCache w' !! key = Some entry /\ result entry = r.
Proof.
  intros Hk H. unfold create in H. rewrite truthy_string_Some in H by done.
  apply bind_ok_inv in H as (cached & w1 & Hlookup & H). simpl in Hlookup.
  destruct cached as [r0|].
  - injection H as <- <-. by eapply getCachedResult_some.
  - apply bind_ok_inv in H as (owner & w2 & _ & H).
    apply bind_ok_inv in H as (validated & w3 & _ & H).
    apply bind_ok_inv in H as (? & w4 & _ & H).
    apply bind_ok_inv in H as (resp & w5 & _ & H).
    apply bind_ok_inv in H as (data & w6 & _ & H).
    apply bind_ok_inv in H as (? & w7 & _ & H).
    apply bind_ok_inv in H as (? & w8 & _ & H).
    by eapply store_then_return_inv.
Qed.

Lemma update_records_result id formData key r w w' :
  key <> "" ->
  update env tableName updateSchema options id formData (Some key) w = (Ok r, w') ->
  exists entry, idempotencyCache w' !! key = Some entry /\ result entry = r.
Proof.
  intros Hk H. unfold update in H. rewrite truthy_string_Some in H by done.
  apply bind_ok_inv in H as (cached & w1 & Hlookup & H). simpl in Hlookup.
  destruct cached as [r0|].
  - injection H as <- <-. by eapply getCachedResult_some.
  - apply bind_ok_inv in H as (owner & w2 & _ & H).
    apply bind_ok_inv in H as (validated & w3 & _ & H).
    apply bind_ok_inv in H as (prev & w4 & _ & H).
    apply bind_ok_inv in H as (? & w5 & _ & H).
    apply bind_ok_inv in H as (resp & w6 & _ & H).
    apply bind_ok_inv in H as (data & w7 & _ & H).
    apply bind_ok_inv in H as (? & w8 & _ & H).
    apply bind_ok_inv in H as (? & w9 & _ & H).
    by eapply store_then_return_inv.
Qed.

(** On a live entry, [create] and [update] stop after the lookup. *)
Lemma create_hit formData key entry w :
  key <> "" ->
  idempotencyCache w !! key = Some entry ->
  Date_now env (clock_reads w) - timestamp entry <= CACHE_TTL_MS ->
  Date_now env (S (clock_reads w)) - timestamp entry <= CACHE_TTL_MS ->
  create env tableName insertSchema options formData (Some key) w =
  (Ok (result entry),
   tick (set_cache (evict_expired (Date_now env (clock_reads w)) (idempotencyCache w))
           (tick w))).
Proof.
  intros Hk He H1 H2. unfold create. rewrite truthy_string_Some by done. simpl.
  by rewrite (bind_ok _ _ _ _ _ (getCachedResult_hit env key entry w He H1 H2)).
Qed.

Lemma update_hit id formData key entry w :
  key <> "" ->
  idempotencyCache w !! key = Some entry ->
  Date_now env (clock_reads w) - timestamp entry <= CACHE_TTL_MS ->
  Date_now env (S (clock_reads w)) - timestamp entry <= CACHE_TTL_MS ->
  update env tableName updateSchema options id formData (Some key) w =
  (Ok (result entry),
   tick (set_cache (evict_expired (Date_now env (clock_reads w)) (idempotencyCache w))
           (tick w))).
Proof.
  intros Hk He H1 H2. unfold update. rewrite truthy_string_Some by done. simpl.
  by rewrite (bind_ok _ _ _ _ _ (getCachedResult_hit env key entry w He H1 H2)).
Qed.
End MutationsAndCache.

(** ** No result is ever stored under the empty key

    [create] and [update] test the key for truthiness before they read or
    write the cache, so the empty string is never a key of the cache. *)

Global Instance keeps_keys_nonempty_preorder : PreOrder keeps_keys_nonempty.
Proof.
  split.
  - intros x H. exact H.
  - intros x y z Hxy Hyz H. apply Hyz, Hxy, H.
Qed.

Lemma quiet_keeps_keys P w w' : quiet P w w' -> keeps_keys_nonempty w w'.
Proof. intros (_ & C & _) H. by rewrite C. Qed.

Global Hint Extern 1 (any_event _) => exact I : frame.
Global Hint Extern 10 (preserves keeps_keys_nonempty _) =>
  eapply (preserves_weaken (quiet any_event)); [apply quiet_keeps_keys |] : frame.

Section EmptyKey.
Variable env : Env.

Lemma getCachedResult_keeps_keys key :
  preserves keeps_keys_nonempty (getCachedResult env key).
Proof.
  intros w H. rewrite getCachedResult_run.
  assert (evict_expired (Date_now env (clock_reads w)) (idempotencyCache w) !! ""
          = None) as Hnone.
  { unfold evict_expired. apply map_lookup_filter_None. by left. }
  by destruct (evict_expired _ _ !! key).
Qed.

Lemma setCachedResult_keeps_keys key r :
  key <> "" -> preserves keeps_keys_nonempty (setCachedResult env key r).
Proof. intros Hk w H. rewrite setCachedResult_run. simpl. by rewrite lookup_insert_ne. Qed.

Lemma await_write_keeps_keys {A} op t (run : DB -> Response A * DB) :
  preserves keeps_keys_nonempty (await_write op t run).
Proof. intros w H. unfold await_write. by destruct (run (db w)). Qed.

Local Hint Resolve getCachedResult_keeps_keys setCachedResult_keeps_keys
  await_write_keeps_keys : frame.

Lemma keyed_store_keeps_keys idempotencyKey data :
  preserves keeps_keys_nonempty
    (if truthy_string idempotencyKey
     then setCachedResult env (default "" idempotencyKey) data
     else ret tt).
Proof.
  destruct idempotencyKey as [k|]; simpl; [| frame].
  destruct (decide (k = "")) as [->|Hk].
  - rewrite bool_decide_eq_true_2 by done. simpl. frame.
  - rewrite bool_decide_eq_false_2 by done. simpl. by apply setCachedResult_keeps_keys.
Qed.

Local Hint Resolve keyed_store_keeps_keys : frame.

Lemma create_keeps_keys tableName insertSchema options formData idempotencyKey :
  preserves keeps_keys_nonempty
    (create env tableName insertSchema options formData idempotencyKey).
Proof. unfold create, await_insert_single. frame. Qed.

Lemma update_keeps_keys tableName updateSchema options id formData idempotencyKey :
  preserves keeps_keys_nonempty
    (update env tableName updateSchema options id formData idempotencyKey).
Proof. unfold update, await_update_single. frame. Qed.

Lemma deleteRecord_keeps_keys tableName options id :
  preserves keeps_keys_nonempty (deleteRecord env tableName options id).
Proof. unfold deleteRecord, await_update, await_delete. frame. Qed.

Lemma unarchive_keeps_keys tableName options id :
  preserves keeps_keys_nonempty (unarchive env tableName options id).
Proof. unfold unarchive, await_update. frame. Qed.
End EmptyKey.

(** ** Claims about the idempotency cache *)

(** C2: a lookup first evicts, from the whole cache, every entry whose age
    (at the clean-up's clock reading) exceeds the five-minute TTL, keeping all
    others; it then returns a hit for the key exactly when the cleaned cache
    holds an entry for it whose age (at the second clock reading) is within
    the TTL.  So an entry older than the TTL is never returned.  The lookup
    never throws and touches neither the tables nor the trace. *)
Theorem getCachedResult_evicts_then_returns_live (env : Env) (key : string) (w : World) :
  let t1 := Date_now env (clock_reads w) in
  let t2 := Date_now env (S (clock_reads w)) in
  let w' := (getCachedResult env key w).2 in
  CACHE_TTL_MS = 300000
  /\ idempotencyCache w' = evict_expired t1 (idempotencyCache w)
  /\ (forall k e, idempotencyCache w' !! k = Some e <->
                  idempotencyCache w !! k = Some e /\ t1 - timestamp e <= CACHE_TTL_MS)
  /\ (exists hit, (getCachedResult env key w).1 = Ok hit /\
        forall r, hit = Some r <->
          exists e, idempotencyCache w' !! key = Some e /\ result e = r
                    /\ t2 - timestamp e <= CACHE_TTL_MS)
  /\ (forall r e, (getCachedResult env key w).1 = Ok (Some r) ->
        idempotencyCache w !! key = Some e ->
        t1 - timestamp e <= CACHE_TTL_MS /\ t2 - timestamp e <= CACHE_TTL_MS)
  /\ db w' = db w /\ trace w' = trace w.
Proof.
  intros t1 t2 w'. subst w'. rewrite getCachedResult_run. fold t1 t2.
  split; [reflexivity |].
  assert (Hc : (match evict_expired t1 (idempotencyCache w) !! key with
                | Some entry =>
                    (Ok (if t2 - timestamp entry <=? CACHE_TTL_MS
                         then Some (result entry) else None),
                     tick (set_cache (evict_expired t1 (idempotencyCache w)) (tick w)))
                | None => (Ok None, set_cache (evict_expired t1 (idempotencyCache w)) (tick w))
                end).2.(idempotencyCache) = evict_expired t1 (idempotencyCache w)).
  { by destruct (evict_expired _ _ !! key). }
  rewrite Hc. split; [reflexivity |].
  split; [intros k e; apply evict_expired_lookup |].
  destruct (evict_expired t1 (idempotencyCache w) !! key) as [entry|] eqn:E; simpl.
  - apply evict_expired_lookup in E as [Hin Hage1].
    destruct (Z.leb_spec (t2 - timestamp entry) CACHE_TTL_MS) as [Hage2|Hage2].
    + split; [| split; [| done]].
      * eexists. split; [done |]. intros r. split.
        -- intros [= <-]. by exists entry.
        -- intros (e & [= <-] & <- & _). done.
      * intros r e _ He. rewrite Hin in He. by injection He as <-.
    + split; [| split; [| done]].
      * eexists. split; [done |]. intros r. split; [done |].
        intros (e & [= <-] & _ & Hle). lia.
      * intros r e Hr. discriminate.
  - split; [| split; [| done]].
    + eexists. split; [done |]. intros r. split; [done |]. by intros (e & ? & _).
    + intros r e Hr. discriminate.
Qed.

(** C1: when [create] or [update] is given an idempotency key that the cache
    holds within the TTL, the call returns the cached result at once: the
    world it leaves differs from the one it found only by the clock readings
    and the eviction of the lookup, so no schema was applied, no hook was
    invoked and no storage request was made.  The key is non-empty, as every
    key the factory ever stores is ([create_keeps_keys], [update_keeps_keys]).
    If the entry was left by an earlier keyed [create] or [update], the
    result returned is that call's result. *)
Theorem cache_hit_returns_cached_result
    (env : Env) (tableName : string) (insertSchema updateSchema : Schema)
    (options : option CRUDOptions) (id : string) (formData : Row)
    (key : string) (entry : CacheEntry) (w : World) :
  key <> "" ->
  idempotencyCache w !! key = Some entry ->
  Date_now env (clock_reads w) - timestamp entry <= CACHE_TTL_MS ->
  Date_now env (S (clock_reads w)) - timestamp entry <= CACHE_TTL_MS ->
  let w' := tick (set_cache (evict_expired (Date_now env (clock_reads w))
                               (idempotencyCache w)) (tick w)) in
  create env tableName insertSchema options formData (Some key) w = (Ok (result entry), w')
  /\ update env tableName updateSchema options id formData (Some key) w
     = (Ok (result entry), w')
  /\ db w' = db w
  /\ trace w' = trace w
  /\ (forall env0 table0 schema0 options0 id0 formData0 w0 r,
        create env0 table0 schema0 options0 formData0 (Some key) w0 = (Ok r, w)
        \/ update env0 table0 schema0 options0 id0 formData0 (Some key) w0 = (Ok r, w) ->
        result entry = r).
Proof.
  intros Hk He H1 H2 w'. repeat split.
  - by apply create_hit.
  - by apply update_hit.
  - intros env0 table0 schema0 options0 id0 formData0 w0 r [Hc|Hu].
    + apply create_records_result in Hc as (e & He' & <-); [| done]. congruence.
    + apply update_records_result in Hu as (e & He' & <-); [| done]. congruence.
Qed.

Lemma after_keyed_create_cache :
  idempotencyCache after_keyed_create !! "key-1"
  = Some {| result := jane_row; timestamp := 1000 |}.
Proof. vm_compute. reflexivity. Qed.

(** Alice retries with the same key two clock readings later: the cached row
    comes back and nothing else happens. *)
Lemma cache_hit_returns_cached_result_witness :
  let w' := tick (set_cache (evict_expired 2000 (idempotencyCache after_keyed_create))
                    (tick after_keyed_create)) in
  create (demo_env (Some "alice")) "contacts" accept_all None jane (Some "key-1")
    after_keyed_create = (Ok jane_row, w')
  /\ update (demo_env (Some "alice")) "contacts" accept_all None "c1" jane (Some "key-1")
       after_keyed_create = (Ok jane_row, w')
  /\ db w' = db after_keyed_create
  /\ trace w' = trace after_keyed_create.
Proof.
  pose proof (cache_hit_returns_cached_result (demo_env (Some "alice")) "contacts"
                accept_all accept_all None "c1" jane "key-1"
                {| result := jane_row; timestamp := 1000 |} after_keyed_create) as H.
  destruct H as (Hc & Hu & Hd & Ht & _).
  - discriminate.
  - exact after_keyed_create_cache.
  - vm_compute. discriminate.
  - vm_compute. discriminate.
  - repeat split; assumption.
Defined.

Lemma log_all_nil w : log_all [] w = w.
Proof. destruct w. unfold log_all. simpl. by rewrite app_nil_r. Qed.

Lemma log_all_log e evs w : log_all evs (log e w) = log_all (e :: evs) w.
Proof. unfold log_all, log. simpl. by rewrite <- app_assoc. Qed.

(** Revalidation never fails and only adds its own calls to the trace. *)
Lemma revalidateAllPaths_run env paths w :
  revalidateAllPaths env paths w = (Ok tt, log_all (revalidated env paths) w).
Proof.
  revert w. induction paths as [|p rest IH]; intros w; simpl.
  - by rewrite log_all_nil.
  - unfold bind, emit. destruct (revalidatePath_throws env p).
    + reflexivity.
    + by rewrite IH, log_all_log.
Qed.

Lemma set_db_same w : set_db (db w) w = w.
Proof. by destruct w. Qed.

(** ** Reasoning about a run from its first step on *)

Lemma wp_run {A} (m : M A) w o w' (Q : Outcome A -> World -> Prop) :
  m w = (o, w') -> Q o w' -> wp m w Q.
Proof. intros E H. unfold wp. by rewrite E. Qed.

Lemma wp_elim {A} (m : M A) w o w' (Q : Outcome A -> World -> Prop) :
  wp m w Q -> m w = (o, w') -> Q o w'.
Proof. unfold wp. intros H E. by rewrite E in H. Qed.

Lemma wp_eq {A} (m : M A) w o w' :
  wp m w (fun o1 w1 => o1 = o /\ w1 = w') -> m w = (o, w').
Proof. unfold wp. destruct (m w) as [o1 w1]. simpl. by intros [-> ->]. Qed.

Lemma wp_bind {A B} (m : M A) (k : A -> M B) w (Q : Outcome B -> World -> Prop) :
  wp m w (fun o w' => match o with
                      | Ok a => wp (k a) w' Q
                      | Throw e => Q (Throw e) w'
                      end) ->
  wp (bind m k) w Q.
Proof. unfold wp, bind. by destruct (m w) as [[a|e] w']. Qed.

Lemma wp_await_write {A} op t (run : DB -> Response A * DB) w
    (Q : Outcome (Response A) -> World -> Prop) :
  Q (Ok (run (db w)).1) (log (EvStorage op t) (set_db (run (db w)).2 w)) ->
  wp (await_write op t run) w Q.
Proof. unfold wp, await_write. by destruct (run (db w)). Qed.

Lemma wp_revalidateAllPaths env paths w (Q : Outcome unit -> World -> Prop) :
  Q (Ok tt) (log_all (revalidated env paths) w) ->
  wp (revalidateAllPaths env paths) w Q.
Proof. intros H. eapply wp_run; [apply revalidateAllPaths_run | done]. Qed.

(** Projections of worlds built by [log], [tick] and the setters. *)
Ltac world_simpl :=
  cbn [db idempotencyCache clock_reads trace log tick set_db set_cache log_all
       fst snd single] in *.

(** One step of a run: split a bind or execute a primitive. *)
Ltac wp_step :=
  lazymatch goal with
  | |- wp (bind _ _) _ _ => apply wp_bind
  | |- wp (revalidateAllPaths _ _) _ _ => apply wp_revalidateAllPaths
  | |- wp (await_write _ _ _) _ _ => apply wp_await_write
  | |- wp (ret _) _ _ => eapply wp_run; [reflexivity | cbv beta iota]
  | |- wp (throw _) _ _ => eapply wp_run; [reflexivity | cbv beta iota]
  | |- wp (emit _) _ _ => eapply wp_run; [reflexivity | cbv beta iota]
  | |- wp (now _) _ _ => eapply wp_run; [reflexivity | cbv beta iota]
  | |- wp (await_select _ _) _ _ => eapply wp_run; [reflexivity | cbv beta iota]
  | |- wp (new_Date_toISOString _) _ _ => unfold new_Date_toISOString
  | |- wp (buildOperationContext _ _ _ _ _) _ _ => unfold buildOperationContext
  | |- wp (inlineContext _ _ _ _) _ _ => unfold inlineContext
  | |- wp (call_hook _ _) _ _ => unfold call_hook
  | |- wp (parse _ _ _) _ _ => unfold parse
  | |- wp (throw_on_error _) _ _ => unfold throw_on_error
  | |- wp (await_update _ _ _) _ _ => unfold await_update
  | |- wp (await_update_single _ _ _) _ _ => unfold await_update_single
  | |- wp (await_delete _ _) _ _ => unfold await_delete
  | |- wp (await_insert_single _ _ _) _ _ => unfold await_insert_single
  end; world_simpl.

(** Take the branch of a conditional step. *)
Ltac wp_case :=
  lazymatch goal with
  | |- wp (match ?x with _ => _ end) _ _ => destruct x eqn:?
  end; world_simpl; try discriminate.

(** Run as far as possible; [facts] rewrites what is known about the next
    step before a branch is taken. *)
Tactic Notation "wp_steps" "using" tactic3(facts) :=
  repeat first [ progress (facts; world_simpl) | wp_step | wp_case ].

(** Worlds reached by logging and clock readings stay [quiet]ly related. *)
Lemma quiet_log P e w w' : quiet P w w' -> P e -> quiet P w (log e w').
Proof.
  intros (D & C & T) HP. repeat split; [done .. |].
  etrans; [exact T | by apply appended_log].
Qed.

Lemma quiet_tick P w w' : quiet P w w' -> quiet P w (tick w').
Proof.
  intros (D & C & T). repeat split; [done .. |].
  etrans; [exact T | by apply appended_same].
Qed.

Lemma quiet_log_all P evs w w' : quiet P w w' -> Forall P evs -> quiet P w (log_all evs w').
Proof.
  intros (D & C & T) HP. repeat split; [done .. |].
  etrans; [exact T |]. by exists evs.
Qed.

Lemma quiet_set_db P w w' d : quiet P w w' -> d = db w -> quiet P w (set_db d w').
Proof. by intros (D & C & T) ->. Qed.

Lemma revalidated_Forall (P : Event -> Prop) env paths :
  (forall p, P (EvRevalidate p)) -> Forall P (revalidated env paths).
Proof.
  intros H. induction paths as [|p rest IH]; simpl; [constructor |].
  constructor; [done |]. by destruct (revalidatePath_throws env p).
Qed.

Lemma quiet_weaken (P Q : Event -> Prop) w w' :
  (forall e, P e -> Q e) -> quiet P w w' -> quiet Q w w'.
Proof. intros H (D & C & T). repeat split; [done .. |]. by eapply appended_weaken. Qed.

Lemma quiet_db P w w' : quiet P w w' -> db w' = db w.
Proof. by intros (D & _). Qed.

(** A world reached from a [quiet] one by logging and clock readings. *)
Ltac quiet_solve :=
  repeat first
    [ assumption
    | apply quiet_log_all; [| apply revalidated_Forall; intros; done]
    | apply quiet_log; [| done]
    | apply quiet_tick
    | apply quiet_set_db; [| by eapply quiet_db] ].

(** ** Requests whose scope matches no row *)

Lemma filter_all {A} (f : A -> bool) (l : list A) :
  (forall x, x ∈ l -> f x = true) -> List.filter f l = l.
Proof.
  induction l as [|x l IH]; [done |]. intros H. simpl.
  rewrite H by apply list_elem_of_here. f_equal. apply IH.
  intros y Hy. apply H. by apply list_elem_of_further.
Qed.

Section NoMatchingRow.
Variables (fs : list Filter) (rows : Table).
Hypothesis no_match : List.filter (matches fs) rows = [].

Lemma no_match_each r : r ∈ rows -> matches fs r = false.
Proof.
  intros Hin. destruct (matches fs r) eqn:E; [| done].
  assert (In r (List.filter (matches fs) rows)) as Hf.
  { apply filter_In. split; [by apply list_elem_of_In | done]. }
  rewrite no_match in Hf. destruct Hf.
Qed.

Lemma no_match_patch patch : patch_row patch fs <$> rows = rows.
Proof.
  rewrite <- (list_fmap_id rows) at 2. apply list_fmap_ext.
  intros i r Hi. unfold patch_row.
  rewrite no_match_each; [done |]. by eapply list_elem_of_lookup_2.
Qed.

Lemma no_match_delete : List.filter (fun r => negb (matches fs r)) rows = rows.
Proof. apply filter_all. intros r Hr. by rewrite no_match_each. Qed.

Variables (d : DB) (t : string).
Hypothesis table_exists : d !! t = Some rows.

Lemma exec_update_no_match patch : exec_update d t patch fs = (inr [], d).
Proof.
  unfold exec_update. rewrite table_exists, no_match, no_match_patch.
  by rewrite insert_id.
Qed.

Lemma exec_update_single_no_match patch :
  exec_update_single d t patch fs = (inl PGRST116, d).
Proof. unfold exec_update_single. by rewrite exec_update_no_match. Qed.

Lemma exec_delete_no_match : exec_delete d t fs = (inr tt, d).
Proof.
  unfold exec_delete. rewrite table_exists, no_match_delete. by rewrite insert_id.
Qed.

Lemma exec_select_no_match env q :
  q_table q = t -> q_filters q = fs -> q_order q = None -> q_limit q = None ->
  q_range q = None ->
  exec_select env d q = inr [].
Proof.
  intros Ht Hf Ho Hl Hr. unfold exec_select, selected, paginate, ordered.
  by rewrite Ht, table_exists, Hf, Ho, Hl, Hr, no_match.
Qed.
End NoMatchingRow.

(** Storage round trips whose filters match no row of an existing table:
    the tables are left as they were. *)
Section NoMatchingRowAwaited.
Variable env : Env.
Variables (t : string) (fs : list Filter) (rows : Table) (w : World).
Hypothesis table_exists : db w !! t = Some rows.
Hypothesis no_match : List.filter (matches fs) rows = [].

Lemma await_update_no_match patch :
  await_update t patch fs w = (Ok (inr tt), log (EvStorage OpUpdate t) w).
Proof.
  unfold await_update, await_write.
  rewrite (exec_update_no_match _ _ no_match _ _ table_exists).
  by rewrite set_db_same.
Qed.

Lemma await_update_single_no_match patch :
  await_update_single t patch fs w = (Ok (inl PGRST116), log (EvStorage OpUpdate t) w).
Proof.
  unfold await_update_single, await_write.
  rewrite (exec_update_single_no_match _ _ no_match _ _ table_exists).
  by rewrite set_db_same.
Qed.

Lemma await_delete_no_match :
  await_delete t fs w = (Ok (inr tt), log (EvStorage OpDelete t) w).
Proof.
  unfold await_delete, await_write.
  rewrite (exec_delete_no_match _ _ no_match _ _ table_exists).
  by rewrite set_db_same.
Qed.

Lemma await_select_no_match q :
  q_table q = t -> q_filters q = fs -> q_order q = None -> q_limit q = None ->
  q_range q = None ->
  await_select env q w = (Ok (inr []), log (EvStorage OpSelect t) w).
Proof.
  intros Ht Hf Ho Hl Hr. unfold await_select.
  rewrite (exec_select_no_match _ _ no_match _ _ table_exists) by done.
  by rewrite Ht.
Qed.
End NoMatchingRowAwaited.

Section ForeignId.
Variable env : Env.
Variable tableName : string.
Variable insertSchema updateSchema : Schema.
Variable options : option CRUDOptions.
Variables (id : string) (owner : Value) (rows : Table) (w w1 : World).

Hypothesis resolved : resolveOwner env tableName options w = (Ok owner, w1).
Hypothesis table_exists : db w !! tableName = Some rows.
Hypothesis no_match :
  List.filter (matches (scope tableName options id owner)) rows = [].

Lemma resolved_quiet : quiet not_hook w w1.
Proof.
  eapply preserves_run; [| exact resolved]. by apply resolveOwner_quiet.
Qed.

Lemma table_exists1 : db w1 !! tableName = Some rows.
Proof. destruct resolved_quiet as [-> _]. exact table_exists. Qed.

Lemma getOne_no_match :
  getOne env tableName options id w =
  (Throw (StorageError PGRST116), log (EvStorage OpSelect tableName) w1).
Proof.
  unfold getOne. rewrite (bind_ok _ _ _ _ _ resolved).
  erewrite bind_ok;
    [| by apply (await_select_no_match env _ _ _ _ table_exists1 no_match)].
  done.
Qed.

Lemma unarchive_no_match :
  cfg_hasSoftDelete (config tableName options) = true ->
  unarchive env tableName options id w =
  (Ok tt, log_all (EvStorage OpUpdate tableName
                     :: revalidated env (cfg_revalidatePaths (config tableName options)))
            w1).
Proof.
  intros Hsoft. unfold unarchive. rewrite Hsoft. cbn [negb].
  rewrite (bind_ok _ _ _ _ _ resolved).
  rewrite (bind_ok _ _ _ _ _
             (await_update_no_match _ _ _ _ table_exists1 no_match active_patch)).
  unfold throw_on_error. rewrite (bind_ok _ _ (log _ w1) tt (log _ w1)) by done.
  by rewrite revalidateAllPaths_run, log_all_log.
Qed.

Lemma deleteRecord_no_match :
  (forall h ctx, hook options beforeDelete = Some h -> h id ctx = None) ->
  exists w', deleteRecord env tableName options id w = (Ok tt, w')
             /\ quiet (fun e => e <> EvHook AfterDelete) w w'.
Proof.
  intros Hbefore.
  cut (wp (deleteRecord env tableName options id) w
         (fun o w' => o = Ok tt /\ quiet (fun e => e <> EvHook AfterDelete) w w')).
  { unfold wp. destruct (deleteRecord _ _ _ _ _) as [o w']. simpl.
    intros [-> H]. by exists w'. }
  assert (Hq : quiet (fun e => e <> EvHook AfterDelete) w w1).
  { eapply quiet_weaken; [| exact resolved_quiet]. by intros [] ?. }
  pose proof table_exists1 as Ht.
  unfold deleteRecord. wp_step. eapply wp_run; [exact resolved | cbv beta iota].
  wp_steps using
    (first [ rewrite (exec_select_no_match _ _ no_match _ _ Ht) by done
           | rewrite (exec_update_no_match _ _ no_match _ _ Ht)
           | rewrite (exec_delete_no_match _ _ no_match _ _ Ht)
           | rewrite (Hbefore _ _ eq_refl) ]).
  all: split; [done | quiet_solve].
Qed.
End ForeignId.

Lemma cache_lookup_cache_only env key : preserves cache_only (cache_lookup env key).
Proof. unfold cache_lookup. frame. Qed.

(** ** Mutations that the idempotency cache does not answer *)

Section CacheMiss.
Variable env : Env.
Variable tableName : string.
Variable insertSchema updateSchema : Schema.
Variable options : option CRUDOptions.
Variables (id : string) (formData : Row) (idempotencyKey : option string).
Variables (owner : Value) (w0 w w1 : World).

Hypothesis missed : cache_lookup env idempotencyKey w0 = (Ok None, w).
Hypothesis resolved : resolveOwner env tableName options w = (Ok owner, w1).

Lemma missed_cache_only : cache_only w0 w.
Proof. eapply preserves_run; [apply cache_lookup_cache_only | exact missed]. Qed.

Lemma resolved_not_write : quiet not_write w w1.
Proof. eapply preserves_run; [| exact resolved]. by apply resolveOwner_quiet. Qed.

(** From the world of the call to a world reached quietly after the miss. *)
Lemma since_call P w' : quiet P w w' -> db w' = db w0 /\ appended P w0 w'.
Proof.
  intros (D & _ & evs & T & F). destruct missed_cache_only as [D0 T0].
  split; [congruence |]. exists evs. by rewrite T, T0.
Qed.

Lemma create_validation_rejects issues :
  insertSchema (<[cfg_ownerIdColumn (config tableName options) := owner]>
                  (processData formData)) = inl issues ->
  create env tableName insertSchema options formData idempotencyKey w0 =
  (Throw (ZodError issues), log (EvParse InsertSchema) w1).
Proof.
  intros Hrej. apply wp_eq. unfold create.
  wp_step. eapply wp_run; [exact missed | cbv beta iota].
  wp_step. eapply wp_run; [exact resolved | cbv beta iota].
  wp_steps using (rewrite Hrej). done.
Qed.

Lemma create_beforeCreate_rejects validated h e :
  insertSchema (<[cfg_ownerIdColumn (config tableName options) := owner]>
                  (processData formData)) = inr validated ->
  hook options beforeCreate = Some h ->
  h validated {| operation := OpCreate; entityType := tableName; entityId := None;
                 userId := owner;
                 ctx_timestamp := toISOString env (Date_now env (clock_reads w1)) |}
  = Some e ->
  create env tableName insertSchema options formData idempotencyKey w0 =
  (Throw e, log (EvHook BeforeCreate) (tick (log (EvParse InsertSchema) w1))).
Proof.
  intros Hval Hhook Hthrows. apply wp_eq. unfold create.
  wp_step. eapply wp_run; [exact missed | cbv beta iota].
  wp_step. eapply wp_run; [exact resolved | cbv beta iota].
  wp_steps using (first [rewrite Hval | rewrite Hhook | rewrite Hthrows]). done.
Qed.

Lemma update_validation_rejects issues :
  updateSchema (processData formData) = inl issues ->
  update env tableName updateSchema options id formData idempotencyKey w0 =
  (Throw (ZodError issues), log (EvParse UpdateSchema) w1).
Proof.
  intros Hrej. apply wp_eq. unfold update.
  wp_step. eapply wp_run; [exact missed | cbv beta iota].
  wp_step. eapply wp_run; [exact resolved | cbv beta iota].
  wp_steps using (rewrite Hrej). done.
Qed.

Lemma update_beforeUpdate_rejects validated h e :
  updateSchema (processData formData) = inr validated ->
  hook options beforeUpdate = Some h ->
  h id validated {| operation := OpUpdateRow; entityType := tableName;
                    entityId := Some (VStr id); userId := owner;
                    ctx_timestamp := toISOString env (Date_now env (clock_reads w1)) |}
  = Some e ->
  update env tableName updateSchema options id formData idempotencyKey w0 =
  (Throw e, log (EvHook BeforeUpdate) (tick (before_update_world tableName options w1))).
Proof.
  intros Hval Hhook Hthrows. apply wp_eq. unfold update, before_update_world.
  wp_step. eapply wp_run; [exact missed | cbv beta iota].
  wp_step. eapply wp_run; [exact resolved | cbv beta iota].
  wp_steps using (first [rewrite Hval | rewrite Hhook | rewrite Hthrows]).
  all: done.
Qed.

Lemma before_update_world_quiet :
  quiet not_write w (before_update_world tableName options w1).
Proof.
  pose proof resolved_not_write. unfold before_update_world.
  destruct (hook options afterUpdate); quiet_solve.
Qed.
End CacheMiss.

(** ** Computations that see the world only through the tables *)

Lemma db_determined_ret {A} (a : A) : db_determined (ret a).
Proof. by intros w w' H. Qed.

Lemma db_determined_throw {A} e : db_determined (@throw A e).
Proof. by intros w w' H. Qed.

Lemma db_determined_bind {A B} (m : M A) (k : A -> M B) :
  db_determined m -> (forall a, db_determined (k a)) -> db_determined (bind m k).
Proof.
  intros Hm Hk w w' H. unfold bind. destruct (Hm w w' H) as [Ho Hd].
  destruct (m w) as [[a|e] v], (m w') as [[a'|e'] v']; simpl in *; simplify_eq.
  - by apply Hk.
  - done.
Qed.

Lemma db_determined_await_select env q : db_determined (await_select env q).
Proof. intros w w' H. unfold await_select. simpl. by rewrite H. Qed.

Lemma getContext_db_determined env : db_determined (getContext env).
Proof.
  unfold getContext. destruct (auth_getUser env UserClient);
    [| destruct (development env)];
    auto using @db_determined_ret, @db_determined_throw.
Qed.

Lemma getProfileId_db_determined env supabase : db_determined (getProfileId env supabase).
Proof.
  unfold getProfileId. destruct (auth_getUser env supabase);
    [| destruct (development env)];
    auto using @db_determined_ret, @db_determined_throw.
  apply db_determined_bind; [apply db_determined_await_select |].
  intros resp. destruct (single resp); apply db_determined_ret.
Qed.

Lemma resolveOwner_db_determined env tableName options :
  db_determined (resolveOwner env tableName options).
Proof.
  unfold resolveOwner. apply db_determined_bind; [apply getContext_db_determined |].
  intros ctx. destruct (cfg_useProfileLookup _); [| apply db_determined_ret].
  apply db_determined_bind; [apply getProfileId_db_determined |].
  intros p. apply db_determined_ret.
Qed.

(** The owner a caller resolves to depends on the world only through the
    tables. *)
Lemma resolveOwner_same_db env tableName options w w' owner w1 :
  db w' = db w ->
  resolveOwner env tableName options w = (Ok owner, w1) ->
  exists w1', resolveOwner env tableName options w' = (Ok owner, w1').
Proof.
  intros Hdb H.
  destruct (resolveOwner_db_determined env tableName options w w') as [Ho _]; [done |].
  rewrite H in Ho. simpl in Ho.
  destruct (resolveOwner env tableName options w') as [o v]. simpl in Ho. subst o.
  by exists v.
Qed.

Section ForeignUpdate.
Variable env : Env.
Variable tableName : string.
Variable updateSchema : Schema.
Variable options : option CRUDOptions.
Variables (id : string) (formData : Row) (idempotencyKey : option string).
Variables (owner : Value) (rows : Table) (w0 w w1 : World).

Hypothesis missed : cache_lookup env idempotencyKey w0 = (Ok None, w).
Hypothesis resolved : resolveOwner env tableName options w = (Ok owner, w1).
Hypothesis table_exists : db w !! tableName = Some rows.
Hypothesis no_match :
  List.filter (matches (scope tableName options id owner)) rows = [].

(** An update whose scope matches no row always throws, and throws the
    no-row error of [.single()] once validation and [beforeUpdate] let it
    through; no row of the foreign record reaches a hook. *)
Lemma update_no_match :
  exists e w',
    update env tableName updateSchema options id formData idempotencyKey w0
    = (Throw e, w')
    /\ quiet (fun ev => ev <> EvHook AfterUpdate) w w'
    /\ (forall validated,
          updateSchema (processData formData) = inr validated ->
          (forall h ctx, hook options beforeUpdate = Some h -> h id validated ctx = None) ->
          e = StorageError PGRST116).
Proof.
  cut (wp (update env tableName updateSchema options id formData idempotencyKey) w0
         (fun o w' =>
            (exists e, o = Throw e /\
               forall validated,
                 updateSchema (processData formData) = inr validated ->
                 (forall h ctx, hook options beforeUpdate = Some h ->
                                h id validated ctx = None) ->
                 e = StorageError PGRST116)
            /\ quiet (fun ev => ev <> EvHook AfterUpdate) w w')).
  { unfold wp. destruct (update _ _ _ _ _ _ _ _) as [o w']. simpl.
    intros [(e & -> & He) Hq]. by exists e, w'. }
  assert (Hq : quiet (fun ev => ev <> EvHook AfterUpdate) w w1).
  { eapply quiet_weaken; [| exact (resolved_quiet _ _ _ _ _ _ resolved)]. by intros [] ?. }
  assert (Ht : db w1 !! tableName = Some rows).
  { by rewrite (quiet_db _ _ _ Hq). }
  unfold update.
  wp_step. eapply wp_run; [exact missed | cbv beta iota].
  wp_step. eapply wp_run; [exact resolved | cbv beta iota].
  wp_steps using
    (first [ rewrite (exec_select_no_match _ _ no_match _ _ Ht) by done
           | rewrite (exec_update_single_no_match _ _ no_match _ _ Ht) ]).
  all: split; [| quiet_solve].
  all: eexists; split; [reflexivity |].
  all: intros validated Hval Hpass; simplify_eq; try done.
  all: match goal with
       | H : _ = Some _ |- _ => by rewrite (Hpass _ _ eq_refl) in H
       end.
Qed.
End ForeignUpdate.

(** ** Claims about tenant scoping *)

(** C3 (as amended): when the id-plus-owner scope matches no row of the
    collection (a record of another tenant, or no record at all),
    [getOne] throws the no-row error of [.single()].  [update], when the
    idempotency cache does not answer it, always throws and leaves every
    table as it was, and what it throws is that same no-row error once
    validation and [beforeUpdate] let the call through; when the call carries
    a key with a live cache entry, [update] returns the record of that entry,
    whatever the id and whoever stored it, and leaves every table as it was.
    [delete] does not fail: provided [beforeDelete] does not throw it returns
    normally, leaves every table as it was and never calls [afterDelete].
    So [getOne], [update] after a cache miss and [delete] hand no row to the
    caller. *)
Theorem unmatched_id_not_found_except_delete
    (env : Env) (tableName : string) (updateSchema : Schema)
    (options : option CRUDOptions) (id : string)
    (owner : Value) (rows : Table) (w w1 : World) :
  resolveOwner env tableName options w = (Ok owner, w1) ->
  db w !! tableName = Some rows ->
  List.filter (matches (scope tableName options id owner)) rows = [] ->
  getOne env tableName options id w
    = (Throw (StorageError PGRST116), log (EvStorage OpSelect tableName) w1)
  /\ (forall formData idempotencyKey wl,
        cache_lookup env idempotencyKey w = (Ok None, wl) ->
        exists e w',
          update env tableName updateSchema options id formData idempotencyKey w
            = (Throw e, w')
          /\ db w' = db w
          /\ appended (fun ev => ev <> EvHook AfterUpdate) w w'
          /\ (forall validated,
                updateSchema (processData formData) = inr validated ->
                (forall h ctx, hook options beforeUpdate = Some h ->
                               h id validated ctx = None) ->
                e = StorageError PGRST116))
  /\ (forall formData key entry,
        key <> "" ->
        idempotencyCache w !! key = Some entry ->
        Date_now env (clock_reads w) - timestamp entry <= CACHE_TTL_MS ->
        Date_now env (S (clock_reads w)) - timestamp entry <= CACHE_TTL_MS ->
        exists w',
          update env tableName updateSchema options id formData (Some key) w
            = (Ok (result entry), w')
          /\ db w' = db w
          /\ trace w' = trace w)
  /\ ((forall h ctx, hook options beforeDelete = Some h -> h id ctx = None) ->
      exists w',
        deleteRecord env tableName options id w = (Ok tt, w')
        /\ db w' = db w
        /\ appended (fun ev => ev <> EvHook AfterDelete) w w').
Proof.
  intros Hres Htable Hnone. split; [| split; [| split]].
  - by eapply getOne_no_match.
  - intros formData key wl Hmiss.
    pose proof (missed_cache_only _ _ _ _ Hmiss) as [Hdb Htrace].
    destruct (resolveOwner_same_db _ _ _ _ wl _ _ Hdb Hres) as [wl1 Hres'].
    destruct (update_no_match env tableName updateSchema options id formData key
                owner rows w wl wl1 Hmiss Hres') as (e & w' & Hrun & Hq & He);
      [by rewrite Hdb | done |].
    exists e, w'. split; [done |].
    destruct (since_call _ _ _ _ Hmiss _ _ Hq) as [D A]. done.
  - intros formData key entry Hkey Hentry Hlive1 Hlive2.
    eexists. split; [by apply update_hit |]. by split.
  - intros Hbefore.
    destruct (deleteRecord_no_match env tableName options id owner rows w w1
                Hres Htable Hnone Hbefore) as (w' & Hrun & D & _ & A).
    by exists w'.
Qed.

(** Alice asks for bob's contact [c2]: her scope matches no row. *)
Lemma alice_scope_misses_c2 :
  List.filter (matches (scope "contacts" None "c2" (VStr "alice")))
    [contact "c1" "alice" "Ann"; contact "c2" "bob" "Ben"] = [].
Proof. vm_compute. reflexivity. Qed.

Lemma unmatched_id_not_found_except_delete_witness :
  getOne (demo_env (Some "alice")) "contacts" None "c2" demo_world
    = (Throw (StorageError PGRST116), log (EvStorage OpSelect "contacts") demo_world)
  /\ (exists w',
        update (demo_env (Some "alice")) "contacts" accept_all None "c2" jane None
          demo_world = (Throw (StorageError PGRST116), w')
        /\ db w' = demo_db)
  /\ (exists w',
        deleteRecord (demo_env (Some "alice")) "contacts" None "c2" demo_world
          = (Ok tt, w')
        /\ db w' = demo_db).
Proof.
  destruct (unmatched_id_not_found_except_delete (demo_env (Some "alice")) "contacts"
              accept_all None "c2" (VStr "alice")
              [contact "c1" "alice" "Ann"; contact "c2" "bob" "Ben"]
              demo_world demo_world) as (Hget & Hupd & _ & Hdel).
  - reflexivity.
  - reflexivity.
  - exact alice_scope_misses_c2.
  - split; [exact Hget | split].
    + destruct (Hupd jane None demo_world eq_refl) as (e & w' & Hrun & Hdb & _ & He).
      exists w'. rewrite (He (processData jane) eq_refl) in Hrun.
      * split; [exact Hrun | exact Hdb].
      * intros h ctx Hh. discriminate Hh.
    + destruct Hdel as (w' & Hrun & Hdb & _).
      * intros h ctx Hh. discriminate Hh.
      * exists w'. split; [exact Hrun | exact Hdb].
Defined.

(** C3, counterexample: alice deletes bob's contact [c2], which her scope
    does not match; [delete] returns normally instead of throwing. *)
Lemma delete_of_foreign_id_does_not_fail :
  resolveOwner (demo_env (Some "alice")) "contacts" None demo_world
    = (Ok (VStr "alice"), demo_world)
  /\ db demo_world !! "contacts"
     = Some [contact "c1" "alice" "Ann"; contact "c2" "bob" "Ben"]
  /\ List.filter (matches (scope "contacts" None "c2" (VStr "alice")))
       [contact "c1" "alice" "Ann"; contact "c2" "bob" "Ben"] = []
  /\ (deleteRecord (demo_env (Some "alice")) "contacts" None "c2" demo_world).1 = Ok tt
  /\ ~ (exists e, (deleteRecord (demo_env (Some "alice")) "contacts" None "c2"
                     demo_world).1 = Throw e).
Proof.
  split; [reflexivity |]. split; [reflexivity |].
  split; [exact alice_scope_misses_c2 |].
  assert (H : (deleteRecord (demo_env (Some "alice")) "contacts" None "c2"
                 demo_world).1 = Ok tt) by (vm_compute; reflexivity).
  split; [exact H |]. intros [e He]. rewrite H in He. discriminate.
Qed.

(** Bob's update of his contact [c2] was stored under the key ["k"]; alice
    sends an update of the same id with the same key and is handed bob's
    record. *)
Lemma update_with_live_key_returns_the_cached_row :
  List.filter (matches (scope "contacts" None "c2" (VStr "alice")))
    [contact "c1" "alice" "Ann"; contact "c2" "bob" "Ben"] = []
  /\ (update (demo_env (Some "alice")) "contacts" accept_all None "c2" jane (Some "k")
        shared_key_world).1
     = Ok (contact "c2" "bob" "Ben").
Proof. split; [exact alice_scope_misses_c2 | vm_compute; reflexivity]. Qed.

(** C10: [unarchive] of an id whose scope matches no row returns normally
    (no not-found error): it sends its update, which changes no table, calls
    every revalidation path as after any mutation, and invokes no lifecycle
    hook. *)
Theorem unarchive_of_unmatched_id_returns
    (env : Env) (tableName : string) (options : option CRUDOptions) (id : string)
    (owner : Value) (rows : Table) (w w1 : World) :
  cfg_hasSoftDelete (config tableName options) = true ->
  resolveOwner env tableName options w = (Ok owner, w1) ->
  db w !! tableName = Some rows ->
  List.filter (matches (scope tableName options id owner)) rows = [] ->
  let calls := revalidated env (cfg_revalidatePaths (config tableName options)) in
  let w' := log_all (EvStorage OpUpdate tableName :: calls) w1 in
  unarchive env tableName options id w = (Ok tt, w')
  /\ db w' = db w
  /\ appended not_hook w w'
  /\ (exists before, trace w' = trace w ++ before ++ calls)
  /\ (forall p rest, cfg_revalidatePaths (config tableName options) = p :: rest ->
                     EvRevalidate p ∈ trace w').
Proof.
  intros Hsoft Hres Htable Hnone calls w'.
  pose proof (resolved_quiet _ _ _ _ _ _ Hres) as Hq.
  split; [by eapply unarchive_no_match |].
  assert (Hq' : quiet not_hook w w').
  { subst w'. apply quiet_log_all; [done |]. constructor; [done |].
    by apply revalidated_Forall. }
  split; [by eapply quiet_db |]. split; [apply Hq' |]. split.
  - destruct Hq as (_ & _ & evs & T & _).
    exists (evs ++ [EvStorage OpUpdate tableName]). subst w'. simpl.
    rewrite T, <- !app_assoc. done.
  - intros p rest Hp. subst w' calls. cbn [trace log_all]. rewrite Hp.
    cbn [revalidated].
    apply elem_of_app. right. apply list_elem_of_further, list_elem_of_here.
Qed.

Lemma unarchive_of_unmatched_id_returns_witness :
  let w' := log_all [EvStorage OpUpdate "contacts"; EvRevalidate "/contacts"] demo_world in
  unarchive (demo_env (Some "alice")) "contacts" None "c2" demo_world = (Ok tt, w')
  /\ db w' = db demo_world
  /\ appended not_hook demo_world w'.
Proof.
  destruct (unarchive_of_unmatched_id_returns (demo_env (Some "alice")) "contacts" None
              "c2" (VStr "alice") [contact "c1" "alice" "Ann"; contact "c2" "bob" "Ben"]
              demo_world demo_world) as (Hrun & Hdb & Hhooks & _).
  - reflexivity.
  - reflexivity.
  - reflexivity.
  - exact alice_scope_misses_c2.
  - split; [exact Hrun | split; [exact Hdb | exact Hhooks]].
Defined.

(** ** Claims about validation, hooks and soft delete *)

(** C7: take a [create] or [update] call that the idempotency cache does not
    answer and whose caller resolves to [owner].  If the schema rejects the
    (normalised) input, the call throws the schema's [ZodError]; if the schema
    accepts it and the [beforeCreate] / [beforeUpdate] hook throws, the call
    throws the hook's own error, unwrapped.  In all four cases the tables are
    left exactly as they were and the trace gains no storage write. *)
Theorem rejected_mutation_writes_nothing
    (env : Env) (tableName : string) (insertSchema updateSchema : Schema)
    (options : option CRUDOptions) (id : string) (formData : Row)
    (idempotencyKey : option string) (owner : Value) (w0 w w1 : World) :
  cache_lookup env idempotencyKey w0 = (Ok None, w) ->
  resolveOwner env tableName options w = (Ok owner, w1) ->
  let create_input :=
    <[cfg_ownerIdColumn (config tableName options) := owner]> (processData formData) in
  let context op entity :=
    {| operation := op; entityType := tableName; entityId := entity; userId := owner;
       ctx_timestamp := toISOString env (Date_now env (clock_reads w1)) |} in
  (forall issues,
      insertSchema create_input = inl issues ->
      exists w',
        create env tableName insertSchema options formData idempotencyKey w0
          = (Throw (ZodError issues), w')
        /\ db w' = db w0 /\ appended not_write w0 w')
  /\ (forall validated h e,
        insertSchema create_input = inr validated ->
        hook options beforeCreate = Some h ->
        h validated (context OpCreate None) = Some e ->
        exists w',
          create env tableName insertSchema options formData idempotencyKey w0
            = (Throw e, w')
          /\ db w' = db w0 /\ appended not_write w0 w')
  /\ (forall issues,
        updateSchema (processData formData) = inl issues ->
        exists w',
          update env tableName updateSchema options id formData idempotencyKey w0
            = (Throw (ZodError issues), w')
          /\ db w' = db w0 /\ appended not_write w0 w')
  /\ (forall validated h e,
        updateSchema (processData formData) = inr validated ->
        hook options beforeUpdate = Some h ->
        h id validated (context OpUpdateRow (Some (VStr id))) = Some e ->
        exists w',
          update env tableName updateSchema options id formData idempotencyKey w0
            = (Throw e, w')
          /\ db w' = db w0 /\ appended not_write w0 w').
Proof.
  intros Hmiss Hres create_input context.
  pose proof (resolved_not_write _ _ _ _ _ _ Hres) as Hq.
  repeat split.
  - intros issues Hrej. eexists. split.
    + by eapply create_validation_rejects.
    + apply (since_call _ _ _ _ Hmiss). quiet_solve.
  - intros validated h e Hval Hhook Hthrows. eexists. split.
    + by eapply create_beforeCreate_rejects.
    + apply (since_call _ _ _ _ Hmiss). quiet_solve.
  - intros issues Hrej. eexists. split.
    + by eapply update_validation_rejects.
    + apply (since_call _ _ _ _ Hmiss). quiet_solve.
  - intros validated h e Hval Hhook Hthrows. eexists. split.
    + by eapply update_beforeUpdate_rejects.
    + apply (since_call _ _ _ _ Hmiss). apply quiet_log; [| done]. apply quiet_tick.
      exact (before_update_world_quiet _ _ _ _ _ _ Hres).
Qed.

(** The two scenarios: an update with an empty [name] against a schema that
    requires one, and a create whose [beforeCreate] hook throws. *)
Lemma rejected_mutation_writes_nothing_witness :
  (exists w',
     update (demo_env (Some "alice")) "contacts" name_not_empty None "c1"
       {[ "name" := VStr "" ]} None demo_world
     = (Throw (ZodError ["name: String must contain at least 1 character(s)"]), w')
     /\ db w' = demo_db)
  /\ (exists w',
        create (demo_env (Some "alice")) "contacts" accept_all
          (Some failing_beforeCreate_options) jane None demo_world
        = (Throw (HookError "quota exceeded"), w')
        /\ db w' = demo_db).
Proof.
  split.
  - destruct (rejected_mutation_writes_nothing (demo_env (Some "alice")) "contacts"
                accept_all name_not_empty None "c1" {[ "name" := VStr "" ]} None
                (VStr "alice") demo_world demo_world demo_world)
      as (_ & _ & Hupd & _).
    + reflexivity.
    + reflexivity.
    + destruct (Hupd ["name: String must contain at least 1 character(s)"])
        as (w' & Hrun & Hdb & _).
      * vm_compute. reflexivity.
      * exists w'. split; [exact Hrun | exact Hdb].
  - destruct (rejected_mutation_writes_nothing (demo_env (Some "alice")) "contacts"
                accept_all accept_all (Some failing_beforeCreate_options) "c1" jane None
                (VStr "alice") demo_world demo_world demo_world)
      as (_ & Hcre & _ & _).
    + reflexivity.
    + reflexivity.
    + destruct (Hcre (<["owner_id" := VStr "alice"]> jane)
                  (fun _ _ => Some (HookError "quota exceeded"))
                  (HookError "quota exceeded"))
        as (w' & Hrun & Hdb & _).
      * vm_compute. reflexivity.
      * reflexivity.
      * reflexivity.
      * exists w'. split; [exact Hrun | exact Hdb].
Defined.

Lemma unarchive_guard_passes env tableName options id w :
  cfg_hasSoftDelete (config tableName options) = true ->
  (unarchive env tableName options id w).1 <> Throw (NoSoftDelete tableName).
Proof.
  intros Hsoft.
  change (wp (unarchive env tableName options id) w
            (fun o _ => o <> Throw (NoSoftDelete tableName))).
  unfold unarchive. rewrite Hsoft. cbn [negb].
  unfold resolveOwner, getContext, getProfileId.
  wp_steps using fail.
  all: discriminate.
Qed.

(** C8 (as amended): [archive] and [unarchive] are members of the bundle
    the factory returns exactly when soft delete is enabled.  With soft delete
    switched off the bundle has neither member, so there is no function a
    caller could invoke and the guard written at the head of both functions,
    which throws the "does not support soft delete" error, never runs.  With
    soft delete on the members are the two functions and the guard passes: the
    [archive] member does what [delete] does, and the [unarchive] member
    never throws that error. *)
Theorem archive_members_need_soft_delete
    (env : Env) (tableName : string) (insertSchema updateSchema : Schema)
    (options : option CRUDOptions) :
  let operations := createCRUDOperations env tableName insertSchema updateSchema options in
  (cfg_hasSoftDelete (config tableName options) = false ->
   op_archive operations = None /\ op_unarchive operations = None)
  /\ (cfg_hasSoftDelete (config tableName options) = true ->
      op_archive operations = Some (archive env tableName options)
      /\ op_unarchive operations = Some (unarchive env tableName options))
  /\ (is_Some (op_archive operations)
      <-> cfg_hasSoftDelete (config tableName options) = true)
  /\ (is_Some (op_unarchive operations)
      <-> cfg_hasSoftDelete (config tableName options) = true)
  /\ (forall member id w,
        op_archive operations = Some member ->
        member id w = deleteRecord env tableName options id w)
  /\ (forall member id w,
        op_unarchive operations = Some member ->
        (member id w).1 <> Throw (NoSoftDelete tableName)).
Proof.
  intros operations. subst operations.
  unfold createCRUDOperations. cbn [op_archive op_unarchive].
  destruct (cfg_hasSoftDelete (config tableName options)) eqn:Hsoft.
  - split; [done |]. split; [done |].
    split; [by split |]. split; [by split |]. split.
    + intros member id w [= <-]. unfold archive. by rewrite Hsoft.
    + intros member id w [= <-]. by apply unarchive_guard_passes.
  - split; [done |]. split; [done |].
    split; [split; [by intros [? ?] | done] |].
    split; [split; [by intros [? ?] | done] |].
    split; intros member id w Hmember; discriminate Hmember.
Qed.

(** C8, counterexample: a factory made with [hasSoftDelete: false] returns a
    bundle without [archive] and [unarchive].  There is no member to call, so
    no call fails with the soft-delete error. *)
Lemma hard_delete_factory_has_no_archive_member :
  cfg_hasSoftDelete (config "contacts" (Some hard_delete_options)) = false
  /\ op_archive (createCRUDOperations (demo_env (Some "alice")) "contacts"
                   accept_all accept_all (Some hard_delete_options)) = None
  /\ op_unarchive (createCRUDOperations (demo_env (Some "alice")) "contacts"
                     accept_all accept_all (Some hard_delete_options)) = None.
Proof. split; [reflexivity | split; reflexivity]. Qed.

(** ** The query built by [getAll] *)

Section ListQuery.
Variable tableName : string.
Variable options : option CRUDOptions.
Variable finalOwnerId : Value.

Lemma foldl_q_eq_shape (fs : list (string * Value)) (q : Query) :
  let q' := foldl (fun q kv => q_eq kv.1 kv.2 q) q fs in
  q_table q' = q_table q /\ q_columns q' = q_columns q /\ q_order q' = q_order q
  /\ q_limit q' = q_limit q /\ q_range q' = q_range q
  /\ (forall f, f ∈ q_filters q -> f ∈ q_filters q').
Proof.
  revert q. induction fs as [|kv fs IH]; intros q; simpl; [done |].
  destruct (IH (q_eq kv.1 kv.2 q)) as (Ht & Hc & Ho & Hl & Hr & Hf).
  repeat split; try done.
  intros f Hin. apply Hf. simpl. apply elem_of_app. by left.
Qed.

Lemma listQuery_range queryOptions :
  q_range (listQuery tableName options finalOwnerId queryOptions) =
  if truthy_number (queryOptions ≫= offset) && truthy_number (queryOptions ≫= limit)
  then Some (default 0 (queryOptions ≫= offset),
             js_sub (js_add (default 0 (queryOptions ≫= offset))
                            (default 0 (queryOptions ≫= limit))) 1)
  else None.
Proof.
  unfold listQuery.
  destruct (truthy_number (queryOptions ≫= offset) && truthy_number (queryOptions ≫= limit));
    [done |].
  destruct (truthy_number (queryOptions ≫= limit)); simpl;
    match goal with
    | |- context [foldl ?f ?q ?fs] =>
        destruct (foldl_q_eq_shape fs q) as (_ & _ & _ & _ & -> & _)
    end;
    by destruct (_ && negb _).
Qed.

Lemma listQuery_limit queryOptions :
  q_limit (listQuery tableName options finalOwnerId queryOptions) =
  if truthy_number (queryOptions ≫= limit) then queryOptions ≫= limit else None.
Proof.
  unfold listQuery.
  destruct (truthy_number (queryOptions ≫= limit)) eqn:Hl;
    destruct (truthy_number (queryOptions ≫= offset)); simpl.
  1, 2: destruct (queryOptions ≫= limit); [done | discriminate Hl].
  all: match goal with
       | |- context [foldl ?f ?q ?fs] =>
           destruct (foldl_q_eq_shape fs q) as (_ & _ & _ & -> & _ & _)
       end;
       by destruct (_ && negb _).
Qed.

Lemma listQuery_table queryOptions :
  q_table (listQuery tableName options finalOwnerId queryOptions) = tableName
  /\ q_columns (listQuery tableName options finalOwnerId queryOptions)
     = cfg_selectQuery (config tableName options).
Proof.
  unfold listQuery.
  destruct (truthy_number (queryOptions ≫= limit));
    destruct (truthy_number (queryOptions ≫= offset)); simpl;
    match goal with
    | |- context [foldl ?f ?q ?fs] =>
        destruct (foldl_q_eq_shape fs q) as (-> & -> & _)
    end;
    by destruct (_ && negb _).
Qed.

Lemma listQuery_filters queryOptions :
  let fs := q_filters (listQuery tableName options finalOwnerId queryOptions) in
  FEq (cfg_ownerIdColumn (config tableName options)) finalOwnerId ∈ fs
  /\ (cfg_hasSoftDelete (config tableName options) = true ->
      cfg_includeArchived (config tableName options) = false ->
      FIsNull "archived_at" ∈ fs).
Proof.
  unfold listQuery.
  destruct (truthy_number (queryOptions ≫= limit));
    destruct (truthy_number (queryOptions ≫= offset)); simpl;
    match goal with
    | |- context [foldl ?f ?q ?fs] =>
        destruct (foldl_q_eq_shape fs q) as (_ & _ & _ & _ & _ & Hf)
    end.
  all: split; [| intros Hs Hi]; apply Hf.
  all: try (unfold config in Hs, Hi; cbn [cfg_hasSoftDelete cfg_includeArchived] in Hs, Hi;
            rewrite Hs, Hi).
  all: try destruct (_ && negb _).
  all: simpl; set_solver.
Qed.
End ListQuery.

(** Integers of magnitude up to [2^53] are doubles, so sums and differences
    that stay in that range are exact. *)
Lemma to_double_exact n : Z.abs n <= 2 ^ 53 -> to_double n = n.
Proof.
  intros Hn. unfold to_double.
  destruct (Z.abs n <? 2 ^ 53) eqn:Hlt; [done |].
  apply Z.ltb_ge in Hlt.
  assert (Z.abs n = 2 ^ 53) as Habs by lia.
  destruct (Z.abs_eq_or_opp n) as [Hn' | Hn'].
  - rewrite <- Hn', Habs. vm_compute. reflexivity.
  - assert (n = - 2 ^ 53) as -> by lia. vm_compute. reflexivity.
Qed.

Lemma js_range_end_exact o l :
  - 2 ^ 53 <= o + l - 1 -> o + l <= 2 ^ 53 -> js_sub (js_add o l) 1 = o + l - 1.
Proof.
  intros Hlow Hhigh. unfold js_sub, js_add.
  rewrite (to_double_exact (o + l)) by lia. apply to_double_exact. lia.
Qed.

(** ** Claims about listing *)

(** C5 (as amended): when [limit] and [offset] are both given and neither
    is 0, the query [getAll] builds carries the range from [offset] to
    [offset + limit - 1], which is what the request then selects.  The upper
    end is computed as JavaScript computes it (for numbers whose sum is
    finite): it is the integer [offset + limit - 1] as long as the sum stays
    within [2^53] in magnitude, and the nearest double beyond that.  When [offset] is absent or 0 the
    query carries no range; a non-zero [limit] is still applied as a plain
    limit, which selects the same rows as the range [0, limit-1] would.  When
    [limit] is absent or 0, neither a limit nor a range is applied, whatever
    [offset] is: every row that passes the filters is selected. *)
Theorem range_applied_when_limit_and_offset_nonzero
    (tableName : string) (options : option CRUDOptions) (finalOwnerId : Value)
    (queryOptions : option QueryOptions) :
  let query := listQuery tableName options finalOwnerId queryOptions in
  let lim := queryOptions ≫= limit in
  let off := queryOptions ≫= offset in
  (forall l o, lim = Some l -> off = Some o -> l <> 0 -> o <> 0 ->
     Z.abs o + Z.abs l < 2 ^ 1023 ->
     q_range query = Some (o, js_sub (js_add o l) 1)
     /\ (forall rows,
           paginate query rows = rows_in_range o (js_sub (js_add o l) 1) rows)
     /\ (- 2 ^ 53 <= o + l - 1 -> o + l <= 2 ^ 53 ->
         q_range query = Some (o, o + l - 1)
         /\ forall rows, paginate query rows = rows_in_range o (o + l - 1) rows))
  /\ (off = None \/ off = Some 0 -> q_range query = None)
  /\ (forall l, lim = Some l -> l <> 0 -> q_limit query = Some l)
  /\ (forall l, lim = Some l -> l <> 0 -> off = None \/ off = Some 0 ->
        forall rows, paginate query rows = take (Z.to_nat l) rows
                     /\ paginate query rows = rows_in_range 0 (0 + l - 1) rows)
  /\ (lim = None \/ lim = Some 0 ->
      q_range query = None /\ q_limit query = None
      /\ forall rows, paginate query rows = rows).
Proof.
  intros query lim off.
  assert (Hrange := listQuery_range tableName options finalOwnerId queryOptions).
  assert (Hlimit := listQuery_limit tableName options finalOwnerId queryOptions).
  fold query lim off in Hrange, Hlimit.
  assert (Hzero : forall z, negb (z =? 0) = true <-> z <> 0).
  { intros z. rewrite negb_true_iff. apply Z.eqb_neq. }
  split; [| split; [| split; [| split]]].
  - intros l o Hl Ho Hl0 Ho0 _. rewrite Hl, Ho in Hrange. simpl in Hrange.
    rewrite (proj2 (Hzero l) Hl0), (proj2 (Hzero o) Ho0) in Hrange. simpl in Hrange.
    split; [done |]. split.
    + intros rows. unfold paginate. by rewrite Hrange.
    + intros Hlow Hhigh. rewrite <- (js_range_end_exact o l Hlow Hhigh).
      split; [done |]. intros rows. unfold paginate. by rewrite Hrange.
  - intros H. rewrite Hrange. by destruct H as [-> | ->].
  - intros l Hl Hl0. rewrite Hlimit, Hl. simpl. by rewrite (proj2 (Hzero l) Hl0).
  - intros l Hl Hl0 Hoff rows.
    assert (q_range query = None) as Hr.
    { rewrite Hrange. by destruct Hoff as [-> | ->]. }
    assert (q_limit query = Some l) as Hq.
    { rewrite Hlimit, Hl. simpl. by rewrite (proj2 (Hzero l) Hl0). }
    unfold paginate, rows_in_range. rewrite Hr, Hq. split; [done |].
    simpl. f_equal. lia.
  - intros Hl.
    assert (truthy_number lim = false) as Hfalsy by by destruct Hl as [-> | ->].
    assert (q_range query = None) as Hr.
    { rewrite Hrange, Hfalsy. by rewrite andb_false_r. }
    assert (q_limit query = None) as Hq.
    { by rewrite Hlimit, Hfalsy. }
    split; [done |]. split; [done |]. intros rows. unfold paginate. by rewrite Hr, Hq.
Qed.

(** The third page of twenty: rows 40 to 59. *)
Lemma range_applied_when_limit_and_offset_nonzero_witness :
  q_range (listQuery "contacts" None (VStr "alice")
             (Some {| limit := Some 20; offset := Some 40; sortBy := None;
                      sortOrder := None; filters := None |}))
  = Some (40, 40 + 20 - 1).
Proof.
  destruct (range_applied_when_limit_and_offset_nonzero "contacts" None (VStr "alice")
              (Some {| limit := Some 20; offset := Some 40; sortBy := None;
                       sortOrder := None; filters := None |})) as (Hboth & _).
  destruct (Hboth 20 40) as (_ & _ & Hexact);
    [reflexivity | reflexivity | lia | lia | vm_compute; reflexivity |].
  destruct Hexact as [Hrange _]; [lia | lia |].
  exact Hrange.
Defined.

(** Beyond [2^53] the upper end is rounded as the addition and the
    subtraction round it: [2^53 + 2 - 1] is no double, and the request asks for
    the single position [2^53]. *)
Lemma range_end_is_rounded_beyond_2_53 :
  q_range (listQuery "contacts" None (VStr "alice")
             (Some {| limit := Some 2; offset := Some (2 ^ 53); sortBy := None;
                      sortOrder := None; filters := None |}))
  = Some (2 ^ 53, 2 ^ 53).
Proof. vm_compute. reflexivity. Qed.

(** C5, counterexample: [limit: 20, offset: 0], both present; the query
    carries no range. *)
Lemma no_range_when_offset_is_zero :
  limit first_page = Some 20
  /\ offset first_page = Some 0
  /\ q_range (listQuery "contacts" None (VStr "alice") (Some first_page)) = None
  /\ q_range (listQuery "contacts" None (VStr "alice") (Some first_page))
     <> Some (0, 0 + 20 - 1).
Proof. repeat split. discriminate. Qed.

(** Sorting and paging select among the rows they are given. *)
Lemma insert_sorted_elem leb r rows x :
  x ∈ insert_sorted leb r rows <-> x = r \/ x ∈ rows.
Proof.
  induction rows as [|y rest IH]; simpl.
  - rewrite list_elem_of_singleton, elem_of_nil. tauto.
  - destruct (leb r y); rewrite !elem_of_cons; [tauto |].
    rewrite IH. tauto.
Qed.

Lemma sort_rows_elem leb rows x : x ∈ sort_rows leb rows <-> x ∈ rows.
Proof.
  unfold sort_rows. induction rows as [|y rest IH]; simpl; [done |].
  rewrite insert_sorted_elem, IH, elem_of_cons. tauto.
Qed.

Lemma selected_elem env q rows x :
  x ∈ selected env q rows -> x ∈ rows /\ matches (q_filters q) x = true.
Proof.
  unfold selected. intros H.
  assert (x ∈ ordered env q (List.filter (matches (q_filters q)) rows)) as Ho.
  { unfold paginate, rows_in_range in H.
    destruct (q_range q) as [[from to]|]; [| destruct (q_limit q)]; [| | done].
    - by eapply subseteq_drop, subseteq_take.
    - by eapply subseteq_take. }
  assert (x ∈ List.filter (matches (q_filters q)) rows) as Hf.
  { unfold ordered in Ho. destruct (q_order q) as [[c []]|]; [| | done].
    all: by apply sort_rows_elem in Ho. }
  apply list_elem_of_In, filter_In in Hf as [Hin Hm].
  split; [by apply list_elem_of_In | done].
Qed.

Lemma matches_holds fs f r : matches fs r = true -> f ∈ fs -> holds f r = true.
Proof.
  unfold matches. rewrite forallb_forall. intros H Hin.
  by apply H, list_elem_of_In.
Qed.

Lemma beforeRead_step_quiet env tableName options finalOwnerId :
  preserves (quiet (fun _ => True))
    (match hook options beforeRead with
     | Some h =>
         ctx <- inlineContext env OpRead tableName finalOwnerId ;;
         call_hook BeforeRead (h None ctx)
     | None => ret tt
     end).
Proof. frame. Qed.

(** What a [getAll] that returns has read. *)
Lemma getAll_returns_selected env tableName options queryOptions w rows w' :
  getAll env tableName options queryOptions w = (Ok rows, w') ->
  exists finalOwnerId stored,
    db w !! tableName = Some stored
    /\ rows = project env (cfg_selectQuery (config tableName options))
                <$> selected env (listQuery tableName options finalOwnerId queryOptions)
                      stored.
Proof.
  intros H. unfold getAll in H.
  apply bind_ok_inv in H as (owner & w1 & Hres & H).
  apply bind_ok_inv in H as (? & w2 & Hhook & H).
  apply bind_ok_inv in H as (resp & w3 & Hsel & H).
  pose proof (preserves_run _ _ _ _ _ (resolveOwner_quiet env (fun _ => True) _ _ I) Hres)
    as (D1 & _).
  pose proof (preserves_run _ _ _ _ _
                (beforeRead_step_quiet env tableName options owner) Hhook) as (D2 & _).
  unfold await_select in Hsel. injection Hsel as <- <-.
  rewrite D2, D1 in H. unfold exec_select in H.
  destruct (listQuery_table tableName options owner queryOptions) as [Ht Hc].
  rewrite Ht, Hc in H.
  destruct (db w !! tableName) as [stored|]; [| discriminate H].
  injection H as <- _. by exists owner, stored.
Qed.

(** C6: on a collection with soft delete enabled and [includeArchived] not
    configured, every record [getAll] returns is the projection of a stored
    row whose [archived_at] is null (there is nothing a call can pass to ask
    for archived rows); with the default select list ['*'] the returned
    records are those rows themselves, so none has a non-null
    [archived_at]. *)
Theorem getAll_excludes_archived
    (env : Env) (tableName : string) (options : option CRUDOptions)
    (queryOptions : option QueryOptions) (w w' : World) (rows : Table) :
  cfg_hasSoftDelete (config tableName options) = true ->
  cfg_includeArchived (config tableName options) = false ->
  getAll env tableName options queryOptions w = (Ok rows, w') ->
  (exists stored,
     db w !! tableName = Some stored
     /\ Forall (fun r => exists r0,
                  r0 ∈ stored /\ col r0 "archived_at" = VNull
                  /\ r = project env (cfg_selectQuery (config tableName options)) r0)
          rows)
  /\ (cfg_selectQuery (config tableName options) = "*" ->
      Forall (fun r => col r "archived_at" = VNull) rows).
Proof.
  intros Hsoft Hincl Hrun.
  apply getAll_returns_selected in Hrun as (owner & stored & Htable & ->).
  assert (Hall : forall r0,
             r0 ∈ selected env (listQuery tableName options owner queryOptions) stored ->
             r0 ∈ stored /\ col r0 "archived_at" = VNull).
  { intros r0 Hin. apply selected_elem in Hin as [Hin Hm]. split; [done |].
    destruct (listQuery_filters tableName options owner queryOptions) as [_ Hnull].
    pose proof (matches_holds _ _ _ Hm (Hnull Hsoft Hincl)) as Hh.
    simpl in Hh. by apply bool_decide_eq_true in Hh. }
  split.
  - exists stored. split; [done |]. apply Forall_fmap, Forall_forall.
    intros r0 Hin. exists r0. destruct (Hall r0 Hin). done.
  - intros Hstar. apply Forall_fmap, Forall_forall. intros r0 Hin.
    unfold compose, project. rewrite Hstar. rewrite bool_decide_eq_true_2 by done.
    by apply Hall.
Qed.

(** Alice lists her contacts: the archived one stays out. *)
Lemma getAll_excludes_archived_witness :
  getAll (demo_env (Some "alice")) "contacts" None None world_with_archived
    = (Ok [contact "c1" "alice" "Ann"],
       log (EvStorage OpSelect "contacts") world_with_archived)
  /\ Forall (fun r => col r "archived_at" = VNull) [contact "c1" "alice" "Ann"].
Proof.
  assert (Hrun :
    getAll (demo_env (Some "alice")) "contacts" None None world_with_archived
    = (Ok [contact "c1" "alice" "Ann"],
       log (EvStorage OpSelect "contacts") world_with_archived)).
  { vm_compute. reflexivity. }
  split; [exact Hrun |].
  destruct (getAll_excludes_archived (demo_env (Some "alice")) "contacts" None None
              world_with_archived
              (log (EvStorage OpSelect "contacts") world_with_archived)
              [contact "c1" "alice" "Ann"]) as [_ Hstar].
  - reflexivity.
  - reflexivity.
  - exact Hrun.
  - apply Hstar. reflexivity.
Defined.

(** ** Soft delete and restore *)

Section SoftDelete.
Variable env : Env.
Variable tableName : string.
Variable options : option CRUDOptions.
Variables (id : string) (owner : Value) (w w1 : World).

Hypothesis soft : cfg_hasSoftDelete (config tableName options) = true.
Hypothesis resolved : resolveOwner env tableName options w = (Ok owner, w1).

(** An [archive] that returns has patched exactly the rows in scope. *)
Lemma archive_returns_patched w' :
  archive env tableName options id w = (Ok tt, w') ->
  exists rows iso,
    db w !! tableName = Some rows
    /\ db w' = <[tableName := patch_row (archived_patch iso)
                                (scope tableName options id owner) <$> rows]> (db w).
Proof.
  intros Hrun.
  cut (wp (deleteRecord env tableName options id) w
         (fun o v => o = Ok tt ->
            exists rows iso,
              db w !! tableName = Some rows
              /\ db v = <[tableName := patch_row (archived_patch iso)
                                         (scope tableName options id owner) <$> rows]>
                          (db w))).
  { intros Hwp. unfold archive in Hrun. rewrite soft in Hrun.
    by apply (wp_elim _ _ _ _ _ Hwp Hrun). }
  pose proof (quiet_db _ _ _ (resolved_quiet _ _ _ _ _ _ resolved)) as Hdb.
  unfold deleteRecord. wp_step. eapply wp_run; [exact resolved | cbv beta iota].
  wp_steps using
    (first [ rewrite soft
           | progress unfold exec_update
           | match goal with
             | |- context [db w1 !! tableName] =>
                 destruct (db w1 !! tableName) as [rows|] eqn:Ht
             end ]).
  all: try discriminate.
  all: intros _; rewrite <- Hdb; eauto.
Qed.

Lemma unarchive_returns_patched w' :
  unarchive env tableName options id w = (Ok tt, w') ->
  exists rows,
    db w !! tableName = Some rows
    /\ db w' = <[tableName := patch_row active_patch
                                (scope tableName options id owner) <$> rows]> (db w).
Proof.
  intros Hrun.
  cut (wp (unarchive env tableName options id) w
         (fun o v => o = Ok tt ->
            exists rows,
              db w !! tableName = Some rows
              /\ db v = <[tableName := patch_row active_patch
                                         (scope tableName options id owner) <$> rows]>
                          (db w))).
  { intros Hwp. by apply (wp_elim _ _ _ _ _ Hwp Hrun). }
  pose proof (quiet_db _ _ _ (resolved_quiet _ _ _ _ _ _ resolved)) as Hdb.
  unfold unarchive. rewrite soft. cbn [negb].
  wp_step. eapply wp_run; [exact resolved | cbv beta iota].
  wp_steps using
    (first [ progress unfold exec_update
           | match goal with
             | |- context [db w1 !! tableName] =>
                 destruct (db w1 !! tableName) as [rows|] eqn:Ht
             end ]).
  all: try discriminate.
  all: intros _; rewrite <- Hdb; eauto.
Qed.
End SoftDelete.

(** The two patches, column by column. *)
Lemma archived_patch_lookup iso c :
  archived_patch iso !! c =
  if decide (c = "archived_at") then Some (VStr iso)
  else if decide (c = "status") then Some (VStr "archived") else None.
Proof.
  unfold archived_patch. repeat case_decide; subst; by simplify_map_eq.
Qed.

Lemma active_patch_lookup c :
  active_patch !! c =
  if decide (c = "archived_at") then Some VNull
  else if decide (c = "status") then Some (VStr "active") else None.
Proof.
  unfold active_patch. repeat case_decide; subst; by simplify_map_eq.
Qed.

(** The restored row: [archived_at] is null, [status] is ['active'], every
    other column is as it was. *)
Lemma restored_row_lookup (r : Row) c :
  (active_patch ∪ r) !! c =
  if decide (c = "archived_at") then Some VNull
  else if decide (c = "status") then Some (VStr "active") else r !! c.
Proof.
  rewrite lookup_union, active_patch_lookup.
  repeat case_decide; by destruct (r !! c).
Qed.

Lemma archive_then_restore_row iso (r : Row) :
  active_patch ∪ (archived_patch iso ∪ r) = active_patch ∪ r.
Proof.
  apply map_eq. intros c.
  rewrite !lookup_union, active_patch_lookup, archived_patch_lookup.
  repeat case_decide; by destruct (r !! c).
Qed.

Lemma restore_active_row (r : Row) :
  r !! "archived_at" = Some VNull -> r !! "status" = Some (VStr "active") ->
  active_patch ∪ r = r.
Proof.
  intros Ha Hs. apply map_eq. intros c. rewrite restored_row_lookup.
  repeat case_decide; by subst.
Qed.

Section ScopeSurvivesArchive.
Variable tableName : string.
Variable options : option CRUDOptions.
Variables (id : string) (owner : Value).

Hypothesis owner_not_archived_at :
  cfg_ownerIdColumn (config tableName options) <> "archived_at".
Hypothesis owner_not_status : cfg_ownerIdColumn (config tableName options) <> "status".

Lemma archived_row_in_scope iso (r : Row) :
  matches (scope tableName options id owner) (archived_patch iso ∪ r)
  = matches (scope tableName options id owner) r.
Proof.
  unfold matches, scope. cbn [forallb holds].
  rewrite !lookup_union, !archived_patch_lookup.
  rewrite decide_False by done. rewrite (decide_False (P := "id" = "status")) by done.
  rewrite !decide_False by done.
  by destruct (r !! "id"), (r !! cfg_ownerIdColumn (config tableName options)).
Qed.

Lemma archive_then_restore_rows iso (rows : Table) :
  patch_row active_patch (scope tableName options id owner)
    <$> (patch_row (archived_patch iso) (scope tableName options id owner) <$> rows)
  = (fun r => if matches (scope tableName options id owner) r
              then active_patch ∪ r else r) <$> rows.
Proof.
  rewrite <- list_fmap_compose. apply list_fmap_ext. intros i r _.
  unfold compose, patch_row.
  destruct (matches (scope tableName options id owner) r) eqn:Hm.
  - by rewrite archived_row_in_scope, Hm, archive_then_restore_row.
  - by rewrite Hm.
Qed.
End ScopeSurvivesArchive.

(** C9: let the caller resolve to the same owner at both calls, and let the
    owner column be neither of the two soft-delete columns.  If [archive id]
    returns and the [unarchive id] that follows returns, then the collection
    holds the same rows as before, in the same order, except that every row
    in the id-plus-owner scope now has [archived_at] null and [status]
    ['active']; every other column of such a row, and every other row, is
    unchanged.  A row that was active before the pair is exactly as it was. *)
Theorem archive_then_unarchive_restores
    (env : Env) (tableName : string) (options : option CRUDOptions) (id : string)
    (owner : Value) (w wa w1 wb w2 : World) :
  cfg_ownerIdColumn (config tableName options) <> "archived_at" ->
  cfg_ownerIdColumn (config tableName options) <> "status" ->
  resolveOwner env tableName options w = (Ok owner, wa) ->
  archive env tableName options id w = (Ok tt, w1) ->
  resolveOwner env tableName options w1 = (Ok owner, wb) ->
  unarchive env tableName options id w1 = (Ok tt, w2) ->
  exists rows,
    db w !! tableName = Some rows
    /\ db w2 = <[tableName :=
                   (fun r => if matches (scope tableName options id owner) r
                             then active_patch ∪ r else r) <$> rows]> (db w)
    /\ forall r, r ∈ rows -> matches (scope tableName options id owner) r = true ->
         (active_patch ∪ r) !! "archived_at" = Some VNull
         /\ (active_patch ∪ r) !! "status" = Some (VStr "active")
         /\ (forall c, c <> "archived_at" -> c <> "status" ->
                       (active_patch ∪ r) !! c = r !! c)
         /\ (r !! "archived_at" = Some VNull -> r !! "status" = Some (VStr "active") ->
             active_patch ∪ r = r).
Proof.
  intros Hcol1 Hcol2 Hres Harch Hres1 Hunarch.
  assert (Hsoft : cfg_hasSoftDelete (config tableName options) = true).
  { unfold archive in Harch.
    destruct (cfg_hasSoftDelete (config tableName options)); [done | discriminate]. }
  destruct (archive_returns_patched _ _ _ _ _ _ _ Hsoft Hres _ Harch)
    as (rows & iso & Htable & Hdb1).
  destruct (unarchive_returns_patched _ _ _ _ _ _ _ Hsoft Hres1 _ Hunarch)
    as (rows1 & Htable1 & Hdb2).
  rewrite Hdb1, lookup_insert_eq in Htable1. injection Htable1 as <-.
  exists rows. split; [done |]. split.
  - rewrite Hdb2, Hdb1, insert_insert_eq.
    rewrite (archive_then_restore_rows _ _ _ _ Hcol1 Hcol2). reflexivity.
  - intros r _ _. rewrite !restored_row_lookup. simpl. repeat split.
    + intros c H1 H2. rewrite restored_row_lookup. by rewrite !decide_False.
    + apply restore_active_row.
Qed.

Lemma archive_then_unarchive_restores_witness :
  exists rows,
    db demo_world !! "contacts" = Some rows
    /\ db after_restore
       = <["contacts" :=
             (fun r => if matches (scope "contacts" None "c1" (VStr "alice")) r
                       then active_patch ∪ r else r) <$> rows]> (db demo_world)
    /\ forall r, r ∈ rows -> matches (scope "contacts" None "c1" (VStr "alice")) r = true ->
         (active_patch ∪ r) !! "archived_at" = Some VNull
         /\ (active_patch ∪ r) !! "status" = Some (VStr "active")
         /\ (forall c, c <> "archived_at" -> c <> "status" ->
                       (active_patch ∪ r) !! c = r !! c)
         /\ (r !! "archived_at" = Some VNull -> r !! "status" = Some (VStr "active") ->
             active_patch ∪ r = r).
Proof.
  apply (archive_then_unarchive_restores (demo_env (Some "alice")) "contacts" None "c1"
           (VStr "alice") demo_world demo_world after_archive after_archive after_restore).
  - discriminate.
  - discriminate.
  - reflexivity.
  - vm_compute. reflexivity.
  - vm_compute. reflexivity.
  - vm_compute. reflexivity.
Defined.

(** In the demo, the contact is archived in between and active again after
    the pair, and the collection ends as it started. *)
Lemma archive_then_unarchive_demo :
  (fun r => col r "status") <$> default [] (db after_archive !! "contacts")
    = [VStr "archived"; VStr "active"]
  /\ (fun r => col r "status") <$> default [] (db after_restore !! "contacts")
     = [VStr "active"; VStr "active"]
  /\ db after_restore !! "contacts" = db demo_world !! "contacts".
Proof. repeat split; vm_compute; reflexivity. Qed.

(** ** One cache for every factory *)

(** C4 (as amended): the idempotency cache is a single module-level store
    shared by every factory instance.  Whatever the two factories (their
    tables, schemas and options) and whoever the two callers are, a result
    stored under a key by one factory's [create] or [update] is returned, as a
    cache hit and without any validation, hook or storage request, by the
    other factory's [create] and [update] when they are called with that key
    within the TTL. *)
Theorem cache_is_shared_by_all_factories
    (env1 env2 : Env) (table1 table2 : string) (schema1 insert2 update2 : Schema)
    (options1 options2 : option CRUDOptions) (id1 id2 : string)
    (formData1 formData2 : Row) (key : string) (r : Row) (w0 w : World) :
  key <> "" ->
  create env1 table1 schema1 options1 formData1 (Some key) w0 = (Ok r, w)
  \/ update env1 table1 schema1 options1 id1 formData1 (Some key) w0 = (Ok r, w) ->
  (forall entry, idempotencyCache w !! key = Some entry ->
     Date_now env2 (clock_reads w) - timestamp entry <= CACHE_TTL_MS
     /\ Date_now env2 (S (clock_reads w)) - timestamp entry <= CACHE_TTL_MS) ->
  exists w',
    create env2 table2 insert2 options2 formData2 (Some key) w = (Ok r, w')
    /\ update env2 table2 update2 options2 id2 formData2 (Some key) w = (Ok r, w')
    /\ db w' = db w
    /\ trace w' = trace w.
Proof.
  intros Hk Hfirst Hlive.
  assert (exists entry, idempotencyCache w !! key = Some entry /\ result entry = r)
    as (entry & Hentry & <-).
  { destruct Hfirst as [H|H].
    - by eapply create_records_result.
    - by eapply update_records_result. }
  destruct (Hlive entry Hentry) as [H1 H2].
  eexists. split; [by apply create_hit |]. split; [by apply update_hit |]. done.
Qed.

(** The key alice used on [contacts] is replayed on [projects]. *)
Lemma cache_is_shared_by_all_factories_witness :
  exists w',
    create (demo_env (Some "alice")) "projects" accept_all None apollo (Some "key-1")
      after_keyed_create = (Ok jane_row, w')
    /\ update (demo_env (Some "alice")) "projects" accept_all None "p1" apollo
         (Some "key-1") after_keyed_create = (Ok jane_row, w')
    /\ db w' = db after_keyed_create
    /\ trace w' = trace after_keyed_create.
Proof.
  apply (cache_is_shared_by_all_factories (demo_env (Some "alice"))
           (demo_env (Some "alice")) "contacts" "projects" accept_all accept_all
           accept_all None None "c1" "p1" jane apollo "key-1" jane_row demo_world
           after_keyed_create).
  - discriminate.
  - left. vm_compute. reflexivity.
  - intros entry Hentry. rewrite after_keyed_create_cache in Hentry.
    injection Hentry as <-. split; vm_compute; discriminate.
Defined.

(** C4, counterexample: two distinct factory instances, [contacts] and
    [projects].  After [contacts.create(jane, "key-1")], a
    [projects.create(apollo, "key-1")] is answered from the cache with the
    contact row; no project is inserted. *)
Lemma projects_create_returns_cached_contact :
  (create (demo_env (Some "alice")) "contacts" accept_all None jane (Some "key-1")
     demo_world).1 = Ok jane_row
  /\ (getCachedResult (demo_env (Some "alice")) "key-1" after_keyed_create).1
     = Ok (Some jane_row)
  /\ (create (demo_env (Some "alice")) "projects" accept_all None apollo (Some "key-1")
        after_keyed_create).1 = Ok jane_row
  /\ db (create (demo_env (Some "alice")) "projects" accept_all None apollo
           (Some "key-1") after_keyed_create).2 !! "projects" = Some [].
Proof. repeat split; vm_compute; reflexivity. Qed.

(** * Further properties of the code *)

(** ** Normalisation of form data *)

Lemma substring_all s : String.substring 0 (String.length s) s = s.
Proof. induction s as [|a s IH]; simpl; [done | by rewrite IH]. Qed.

Lemma substring_skip_prefix p t :
  String.substring (String.length p) (String.length t) (p +:+ t) = t.
Proof. induction p as [|a p IH]; simpl; [apply substring_all | exact IH]. Qed.

Lemma string_length_app p t :
  String.length (p +:+ t) = (String.length p + String.length t)%nat.
Proof. induction p as [|a p IH]; simpl; [done | by rewrite IH]. Qed.

Lemma substring_length_le n m s :
  (String.length (String.substring n m s) <= String.length s - n)%nat.
Proof.
  revert n m. induction s as [|a s IH]; intros n m.
  - destruct n, m; simpl; lia.
  - destruct n as [|n]; simpl.
    + destruct m as [|m]; simpl; [lia |]. specialize (IH 0%nat m). lia.
    + apply IH.
Qed.

Lemma substring_split n s :
  (n <= String.length s)%nat ->
  s = String.substring 0 n s +:+ String.substring n (String.length s - n) s.
Proof.
  revert n. induction s as [|a s IH]; intros n Hn.
  - destruct n; simpl in *; [done | lia].
  - destruct n as [|n]; simpl.
    + by rewrite substring_all.
    + change (String a s = String a (String.substring 0 n s +:+
                                     String.substring n (String.length s - n) s)).
      f_equal. apply IH. simpl in Hn. lia.
Qed.

(** [ends_with] is [String.prototype.endsWith]. *)
Lemma ends_with_spec suffix s :
  ends_with suffix s = true <-> exists prefix, s = prefix +:+ suffix.
Proof.
  unfold ends_with. rewrite String.eqb_eq. split.
  - intros H.
    destruct (decide (String.length suffix <= String.length s)%nat) as [Hle|Hgt].
    + exists (String.substring 0 (String.length s - String.length suffix) s).
      rewrite (substring_split (String.length s - String.length suffix) s) at 1 by lia.
      f_equal. rewrite <- H at 3. f_equal. lia.
    + pose proof (substring_length_le (String.length s - String.length suffix)
                    (String.length suffix) s) as Hlen.
      rewrite H in Hlen. lia.
  - intros [prefix ->]. rewrite string_length_app.
    replace (String.length prefix + String.length suffix - String.length suffix)%nat
      with (String.length prefix) by lia.
    apply substring_skip_prefix.
Qed.

Lemma uuid_field_test key :
  String.eqb key "id" || ends_with "_id" key = true <-> uuid_field key.
Proof.
  unfold uuid_field. rewrite orb_true_iff, String.eqb_eq, ends_with_spec. done.
Qed.

Lemma processData_lookup (formData : Row) key :
  processData formData !! key =
  (fun v => if (String.eqb key "id" || ends_with "_id" key) && bool_decide (v = VStr "")
            then VNull else v) <$> formData !! key.
Proof.
  unfold processData. rewrite map_lookup_imap. by destruct (formData !! key).
Qed.

(** X1: the normalisation applied to the input of [create] and [update]
    keeps the set of fields; it turns into null exactly the fields named
    [id], or ending in [_id], whose value is the empty string, and leaves
    every other value as it is; applying it twice is applying it once. *)
Theorem processData_nulls_empty_uuid_fields (formData : Row) :
  dom (processData formData) = dom formData
  /\ (forall key, uuid_field key -> formData !! key = Some (VStr "") ->
        processData formData !! key = Some VNull)
  /\ (forall key v, formData !! key = Some v ->
        ~ (uuid_field key /\ v = VStr "") ->
        processData formData !! key = Some v)
  /\ processData (processData formData) = processData formData.
Proof.
  split; [| split; [| split]].
  - apply set_eq. intros key. rewrite !elem_of_dom, processData_lookup.
    by rewrite fmap_is_Some.
  - intros key Hkey Hv. rewrite processData_lookup, Hv. simpl.
    by rewrite (proj2 (uuid_field_test key) Hkey).
  - intros key v Hv Hnot. rewrite processData_lookup, Hv. simpl. f_equal.
    destruct (String.eqb key "id" || ends_with "_id" key) eqn:Hk; [| done].
    apply uuid_field_test in Hk. simpl. case_bool_decide; [| done].
    destruct Hnot. by split.
  - apply map_eq. intros key. rewrite !processData_lookup.
    destruct (formData !! key) as [v|]; [| done]. simpl. f_equal.
    destruct (String.eqb key "id" || ends_with "_id" key); [| done]. simpl.
    destruct (decide (v = VStr "")) as [->|Hv].
    + rewrite (bool_decide_eq_true_2 (VStr "" = VStr "")) by done.
      by rewrite bool_decide_eq_false_2.
    + by rewrite !(bool_decide_eq_false_2 (v = VStr "")) by done.
Qed.

(** ** Who the caller is *)

Section NoSession.
Variable env : Env.
Variable tableName : string.
Variable options : option CRUDOptions.
Hypothesis no_session : session_user env = None.

Lemma resolveOwner_unauthenticated w :
  development env = false ->
  resolveOwner env tableName options w = (Throw NotAuthenticated, w).
Proof.
  intros Hprod. unfold resolveOwner, getContext. cbn [auth_getUser].
  by rewrite no_session, Hprod.
Qed.

Lemma resolveOwner_development w :
  development env = true ->
  resolveOwner env tableName options w =
  if cfg_useProfileLookup (config tableName options) then
    match admin_user env with
    | Some uid =>
        (p <- getProfileId env AdminClient ;; ret p.1) w
    | None => (Ok (VStr DEV_ID), w)
    end
  else (Ok (VStr (default DEV_ID (admin_user env))), w).
Proof.
  intros Hdev. unfold resolveOwner, getContext. cbn [auth_getUser].
  rewrite no_session, Hdev. unfold bind at 1. cbn [ret fst snd].
  destruct (cfg_useProfileLookup (config tableName options)); [| done].
  destruct (admin_user env) as [uid|] eqn:Hadmin; [done |].
  unfold getProfileId. cbn [auth_getUser]. by rewrite Hadmin, Hdev.
Qed.
End NoSession.

(** X2: with no session and outside development, every operation fails
    closed: [getAll], [getOne], [delete], [archive] and [unarchive] throw
    'Not authenticated' and leave the world exactly as it was (no hook, no
    validation, no storage request); [create] and [update] do the same once
    the idempotency lookup has missed. *)
Theorem unauthenticated_calls_fail_closed
    (env : Env) (tableName : string) (insertSchema updateSchema : Schema)
    (options : option CRUDOptions) (id : string) (formData : Row)
    (queryOptions : option QueryOptions) (w : World) :
  session_user env = None ->
  development env = false ->
  getAll env tableName options queryOptions w = (Throw NotAuthenticated, w)
  /\ getOne env tableName options id w = (Throw NotAuthenticated, w)
  /\ deleteRecord env tableName options id w = (Throw NotAuthenticated, w)
  /\ (cfg_hasSoftDelete (config tableName options) = true ->
      archive env tableName options id w = (Throw NotAuthenticated, w)
      /\ unarchive env tableName options id w = (Throw NotAuthenticated, w))
  /\ (forall idempotencyKey wl,
        cache_lookup env idempotencyKey w = (Ok None, wl) ->
        create env tableName insertSchema options formData idempotencyKey w
          = (Throw NotAuthenticated, wl)
        /\ update env tableName updateSchema options id formData idempotencyKey w
           = (Throw NotAuthenticated, wl)).
Proof.
  intros Hnone Hprod.
  pose proof (resolveOwner_unauthenticated env tableName options Hnone) as Hres.
  assert (Hdel : deleteRecord env tableName options id w = (Throw NotAuthenticated, w)).
  { unfold deleteRecord. by rewrite (bind_throw _ _ _ _ _ (Hres w Hprod)). }
  split; [| split; [| split; [| split]]].
  - unfold getAll. by rewrite (bind_throw _ _ _ _ _ (Hres w Hprod)).
  - unfold getOne. by rewrite (bind_throw _ _ _ _ _ (Hres w Hprod)).
  - exact Hdel.
  - intros Hsoft. unfold archive, unarchive. rewrite Hsoft. cbn [negb]. split; [exact Hdel |].
    by rewrite (bind_throw _ _ _ _ _ (Hres w Hprod)).
  - intros key wl Hmiss. unfold create, update. fold (cache_lookup env key).
    rewrite !(bind_ok _ _ _ _ _ Hmiss).
    by rewrite !(bind_throw _ _ _ _ _ (Hres wl Hprod)).
Qed.

Lemma unauthenticated_calls_fail_closed_witness :
  getAll (demo_env None) "contacts" None None demo_world
    = (Throw NotAuthenticated, demo_world)
  /\ deleteRecord (demo_env None) "contacts" None "c1" demo_world
     = (Throw NotAuthenticated, demo_world)
  /\ create (demo_env None) "contacts" accept_all None jane None demo_world
     = (Throw NotAuthenticated, demo_world).
Proof.
  destruct (unauthenticated_calls_fail_closed (demo_env None) "contacts" accept_all
              accept_all None "c1" jane None demo_world)
    as (Hall & _ & Hdel & _ & Hmut).
  - reflexivity.
  - reflexivity.
  - destruct (Hmut None demo_world) as [Hcreate _]; [reflexivity |].
    split; [exact Hall | split; [exact Hdel | exact Hcreate]].
Defined.

Lemma single_not_one (rows : Table) :
  length rows <> 1%nat -> single (inr rows) = inl PGRST116.
Proof. destruct rows as [|r [|r' rest]]; simpl; [done | lia | done]. Qed.

(** The profile indirection, for the user [uid] of a client: one select on
    [profiles]. *)
Lemma profile_lookup_cases env client uid w :
  auth_getUser env client = Some uid ->
  let mine := [FEq "auth_user_id" (VStr uid)] in
  let w1 := log (EvStorage OpSelect "profiles") w in
  let run := (p <- getProfileId env client ;; ret p.1) w in
  (forall rows profile,
      db w !! "profiles" = Some rows ->
      List.filter (matches mine) rows = [profile] ->
      col (select_columns env "id" profile) "id" = col profile "id" ->
      run = (Ok (col profile "id"), w1))
  /\ (forall rows,
        db w !! "profiles" = Some rows ->
        length (List.filter (matches mine) rows) <> 1%nat ->
        run = (Ok (VStr uid), w1))
  /\ (db w !! "profiles" = None -> run = (Ok (VStr uid), w1)).
Proof.
  intros Huser mine w1 run.
  assert (Hrun : run =
                 match single (exec_select env (db w)
                                 (q_eq "auth_user_id" (VStr uid)
                                    (from_select "profiles" "id"))) with
                 | inr profile => (Ok (col profile "id"), w1)
                 | inl _ => (Ok (VStr uid), w1)
                 end).
  { subst run. unfold getProfileId. rewrite Huser.
    unfold bind, await_select. cbn [q_table q_eq with_filter from_select].
    by destruct (single _). }
  rewrite Hrun. unfold exec_select, selected, paginate, ordered.
  cbn [q_table q_eq with_filter from_select q_columns q_filters q_order q_limit q_range app].
  split; [| split].
  - intros rows profile -> Hone Hid. fold mine. rewrite Hone. cbn [fmap list_fmap single].
    unfold project. rewrite bool_decide_eq_false_2 by discriminate. by rewrite Hid.
  - intros rows -> Hmany. fold mine. rewrite single_not_one; [done |].
    by rewrite length_fmap.
  - by intros ->.
Qed.

(** X3: with no session in development, the caller is resolved through the
    admin client.  Without the profile indirection the owner is the admin
    client's user or, when there is none, the all-zero sentinel id, and no
    storage request is made.  With the profile indirection and no admin user
    the owner is the sentinel, again without a request.  With the profile
    indirection and an admin user, [profiles] is read once: when exactly one
    profile row carries the admin user's id in [auth_user_id] (and the select
    of its [id] column hands that column back), the owner is the [id] of that
    profile; when none does, or several do, or the table is missing, the
    owner is the admin user's id. *)
Theorem development_fallback_owner
    (env : Env) (tableName : string) (options : option CRUDOptions) (w : World) :
  session_user env = None ->
  development env = true ->
  let sentinel := "00000000-0000-0000-0000-000000000000" in
  let resolved := resolveOwner env tableName options w in
  (cfg_useProfileLookup (config tableName options) = false ->
   resolved = (Ok (VStr (default sentinel (admin_user env))), w))
  /\ (admin_user env = None -> resolved = (Ok (VStr sentinel), w))
  /\ (forall admin,
        cfg_useProfileLookup (config tableName options) = true ->
        admin_user env = Some admin ->
        let mine := [FEq "auth_user_id" (VStr admin)] in
        let w1 := log (EvStorage OpSelect "profiles") w in
        (forall rows profile,
            db w !! "profiles" = Some rows ->
            List.filter (matches mine) rows = [profile] ->
            col (select_columns env "id" profile) "id" = col profile "id" ->
            resolved = (Ok (col profile "id"), w1))
        /\ (forall rows,
              db w !! "profiles" = Some rows ->
              length (List.filter (matches mine) rows) <> 1%nat ->
              resolved = (Ok (VStr admin), w1))
        /\ (db w !! "profiles" = None -> resolved = (Ok (VStr admin), w1))).
Proof.
  intros Hnone Hdev sentinel resolved.
  pose proof (resolveOwner_development env tableName options Hnone w Hdev) as H.
  fold resolved in H.
  split; [| split].
  - intros Hno. by rewrite Hno in H.
  - intros Hadmin. rewrite Hadmin in H.
    by destruct (cfg_useProfileLookup (config tableName options)).
  - intros admin Hlookup Hadmin. rewrite Hlookup, Hadmin in H. rewrite H.
    apply (profile_lookup_cases env AdminClient admin w). exact Hadmin.
Qed.

Lemma development_fallback_owner_witness :
  resolveOwner dev_env "contacts" (Some profile_lookup_options) demo_world
  = (Ok (VStr "00000000-0000-0000-0000-000000000000"), demo_world)
  /\ resolveOwner dev_admin_env "contacts" (Some profile_lookup_options)
       admin_profile_world
     = (Ok (VStr "p-root"), log (EvStorage OpSelect "profiles") admin_profile_world).
Proof.
  split.
  - destruct (development_fallback_owner dev_env "contacts"
                (Some profile_lookup_options) demo_world) as (_ & H & _).
    + reflexivity.
    + reflexivity.
    + apply H. reflexivity.
  - destruct (development_fallback_owner dev_admin_env "contacts"
                (Some profile_lookup_options) admin_profile_world) as (_ & _ & H).
    + reflexivity.
    + reflexivity.
    + destruct (H "root") as (Hone & _); [reflexivity | reflexivity |].
      rewrite (Hone [ {[ "id" := VStr "p-alice"; "auth_user_id" := VStr "alice" ]};
                      {[ "id" := VStr "p-root"; "auth_user_id" := VStr "root" ]} ]
                    {[ "id" := VStr "p-root"; "auth_user_id" := VStr "root" ]}).
      * vm_compute. reflexivity.
      * reflexivity.
      * vm_compute. reflexivity.
      * reflexivity.
Defined.

(** X4: with a session and the profile indirection configured, resolving the
    caller reads [profiles] once and writes nothing.  When exactly one
    profile row carries the user's id in [auth_user_id] (and the select of its
    [id] column hands that column back), the owner is the [id] of that
    profile; when none does, or several do, or the table is missing, the owner
    falls back to the raw user id. *)
Theorem profile_lookup_resolves_or_falls_back
    (env : Env) (tableName : string) (options : option CRUDOptions)
    (uid : string) (w : World) :
  session_user env = Some uid ->
  cfg_useProfileLookup (config tableName options) = true ->
  let mine := [FEq "auth_user_id" (VStr uid)] in
  let w1 := log (EvStorage OpSelect "profiles") w in
  (forall rows profile,
      db w !! "profiles" = Some rows ->
      List.filter (matches mine) rows = [profile] ->
      col (select_columns env "id" profile) "id" = col profile "id" ->
      resolveOwner env tableName options w = (Ok (col profile "id"), w1))
  /\ (forall rows,
        db w !! "profiles" = Some rows ->
        length (List.filter (matches mine) rows) <> 1%nat ->
        resolveOwner env tableName options w = (Ok (VStr uid), w1))
  /\ (db w !! "profiles" = None ->
      resolveOwner env tableName options w = (Ok (VStr uid), w1)).
Proof.
  intros Hsession Hlookup mine w1.
  assert (resolveOwner env tableName options w
          = (p <- getProfileId env UserClient ;; ret p.1) w) as ->.
  { unfold resolveOwner, getContext. cbn [auth_getUser]. rewrite Hsession, Hlookup.
    reflexivity. }
  apply (profile_lookup_cases env UserClient uid w). exact Hsession.
Qed.

Lemma profile_lookup_resolves_or_falls_back_witness :
  resolveOwner (demo_env (Some "alice")) "contacts" (Some profile_lookup_options)
    profile_world
  = (Ok (VStr "p-alice"), log (EvStorage OpSelect "profiles") profile_world)
  /\ resolveOwner (demo_env (Some "alice")) "contacts" (Some profile_lookup_options)
       demo_world
     = (Ok (VStr "alice"), log (EvStorage OpSelect "profiles") demo_world).
Proof.
  split.
  - destruct (profile_lookup_resolves_or_falls_back (demo_env (Some "alice")) "contacts"
                (Some profile_lookup_options) "alice" profile_world) as (Hone & _).
    + reflexivity.
    + reflexivity.
    + rewrite (Hone [ {[ "id" := VStr "p-alice"; "auth_user_id" := VStr "alice" ]} ]
                    {[ "id" := VStr "p-alice"; "auth_user_id" := VStr "alice" ]}).
      * vm_compute. reflexivity.
      * reflexivity.
      * vm_compute. reflexivity.
      * reflexivity.
  - destruct (profile_lookup_resolves_or_falls_back (demo_env (Some "alice")) "contacts"
                (Some profile_lookup_options) "alice" demo_world) as (_ & _ & Hmissing).
    + reflexivity.
    + reflexivity.
    + apply Hmissing. reflexivity.
Defined.

(** ** Listing and reading *)

Lemma foldl_q_eq_filters (fs : list (string * Value)) (q : Query) :
  q_filters (foldl (fun q kv => q_eq kv.1 kv.2 q) q fs)
  = q_filters q ++ ((fun kv => FEq kv.1 kv.2) <$> fs).
Proof.
  revert q. induction fs as [|kv fs IH]; intros q; simpl.
  - by rewrite app_nil_r.
  - rewrite IH. simpl. by rewrite <- app_assoc.
Qed.

Lemma listQuery_filters_exact tableName options finalOwnerId queryOptions :
  q_filters (listQuery tableName options finalOwnerId queryOptions)
  = list_filters tableName options finalOwnerId queryOptions.
Proof.
  unfold listQuery, list_filters.
  destruct (truthy_number (queryOptions ≫= limit));
    destruct (truthy_number (queryOptions ≫= offset));
    cbn [andb q_filters range q_limit_to order];
    rewrite foldl_q_eq_filters;
    by destruct (cfg_hasSoftDelete _ && negb _).
Qed.

Lemma getAll_returns_selected_for_owner env tableName options queryOptions w rows w' :
  getAll env tableName options queryOptions w = (Ok rows, w') ->
  exists finalOwnerId w1 stored,
    resolveOwner env tableName options w = (Ok finalOwnerId, w1)
    /\ db w !! tableName = Some stored
    /\ rows = project env (cfg_selectQuery (config tableName options))
                <$> selected env (listQuery tableName options finalOwnerId queryOptions)
                      stored.
Proof.
  intros H. unfold getAll in H.
  apply bind_ok_inv in H as (owner & w1 & Hres & H).
  apply bind_ok_inv in H as (? & w2 & Hhook & H).
  apply bind_ok_inv in H as (resp & w3 & Hsel & H).
  pose proof (preserves_run _ _ _ _ _ (resolveOwner_quiet env (fun _ => True) _ _ I) Hres)
    as (D1 & _).
  pose proof (preserves_run _ _ _ _ _
                (beforeRead_step_quiet env tableName options owner) Hhook) as (D2 & _).
  unfold await_select in Hsel. injection Hsel as <- <-.
  rewrite D2, D1 in H. unfold exec_select in H.
  destruct (listQuery_table tableName options owner queryOptions) as [Ht Hc].
  rewrite Ht, Hc in H.
  destruct (db w !! tableName) as [stored|]; [| discriminate H].
  injection H as <- _. by exists owner, w1, stored.
Qed.

Lemma holds_FEq c v (r : Row) : holds (FEq c v) r = true -> r !! c = Some v.
Proof.
  simpl. rewrite andb_true_iff. intros [H _]. by apply bool_decide_eq_true in H.
Qed.

(** X5: whatever the query options, every record a [getAll] returns is the
    projection of a stored row of the collection whose owner column holds the
    caller's resolved owner id and which agrees with every equality filter of
    the call. *)
Theorem getAll_returns_only_own_matching_rows
    (env : Env) (tableName : string) (options : option CRUDOptions)
    (queryOptions : option QueryOptions) (w w' : World) (rows : Table) :
  getAll env tableName options queryOptions w = (Ok rows, w') ->
  exists finalOwnerId w1 stored,
    resolveOwner env tableName options w = (Ok finalOwnerId, w1)
    /\ db w !! tableName = Some stored
    /\ Forall (fun r => exists r0,
                 r0 ∈ stored
                 /\ r = project env (cfg_selectQuery (config tableName options)) r0
                 /\ r0 !! cfg_ownerIdColumn (config tableName options) = Some finalOwnerId
                 /\ forall c v, (c, v) ∈ default [] (queryOptions ≫= filters) ->
                                r0 !! c = Some v)
         rows.
Proof.
  intros Hrun.
  apply getAll_returns_selected_for_owner in Hrun as (owner & w1 & stored & Hres & Ht & ->).
  exists owner, w1, stored. split; [done |]. split; [done |].
  apply Forall_fmap, Forall_forall. intros r0 Hin. exists r0.
  apply selected_elem in Hin as [Hin Hm].
  rewrite listQuery_filters_exact in Hm. unfold list_filters in Hm.
  split; [done |]. split; [done |]. split.
  - apply holds_FEq. eapply matches_holds; [exact Hm |]. apply list_elem_of_here.
  - intros c v Hcv. apply holds_FEq. eapply matches_holds; [exact Hm |].
    apply list_elem_of_further, elem_of_app. right.
    apply list_elem_of_fmap. by exists (c, v).
Qed.

Lemma getAll_returns_only_own_matching_rows_witness :
  exists finalOwnerId w1 stored,
    resolveOwner (demo_env (Some "alice")) "contacts" None demo_world
      = (Ok finalOwnerId, w1)
    /\ db demo_world !! "contacts" = Some stored
    /\ Forall (fun r => exists r0,
                 r0 ∈ stored
                 /\ r = project (demo_env (Some "alice"))
                          (cfg_selectQuery (config "contacts" None)) r0
                 /\ r0 !! cfg_ownerIdColumn (config "contacts" None) = Some finalOwnerId
                 /\ forall c v, (c, v) ∈ default [] (None ≫= filters) -> r0 !! c = Some v)
         [contact "c1" "alice" "Ann"].
Proof.
  apply (getAll_returns_only_own_matching_rows (demo_env (Some "alice")) "contacts" None
           None demo_world (log (EvStorage OpSelect "contacts") demo_world)).
  vm_compute. reflexivity.
Defined.

(** X6: a [getAll] called with a positive [limit] returns at most [limit]
    records, with or without an [offset], as long as [offset + limit] stays
    within [2^53] in magnitude, where the upper end of the range is computed
    exactly. *)
Theorem getAll_respects_limit
    (env : Env) (tableName : string) (options : option CRUDOptions)
    (queryOptions : option QueryOptions) (l : Z) (w w' : World) (rows : Table) :
  queryOptions ≫= limit = Some l ->
  0 < l ->
  (forall o, queryOptions ≫= offset = Some o ->
             - 2 ^ 53 <= o + l - 1 /\ o + l <= 2 ^ 53) ->
  getAll env tableName options queryOptions w = (Ok rows, w') ->
  (length rows <= Z.to_nat l)%nat.
Proof.
  intros Hl Hpos Hsafe Hrun.
  apply getAll_returns_selected_for_owner in Hrun as (owner & w1 & stored & _ & _ & ->).
  rewrite length_fmap. unfold selected, paginate.
  rewrite listQuery_range, listQuery_limit, Hl. cbn [truthy_number default from_option id].
  assert (negb (l =? 0) = true) as -> by (rewrite negb_true_iff; apply Z.eqb_neq; lia).
  rewrite andb_true_r.
  destruct (queryOptions ≫= offset) as [o|] eqn:Ho;
    cbn [truthy_number default from_option id].
  - destruct (Hsafe o eq_refl) as [Hlow Hhigh].
    destruct (negb (o =? 0)).
    + rewrite (js_range_end_exact o l Hlow Hhigh).
      unfold rows_in_range. rewrite length_take. lia.
    + rewrite length_take. lia.
  - rewrite length_take. lia.
Qed.

(** Alice has three contacts; one record after the first is one of them. *)
Lemma getAll_respects_limit_witness :
  getAll (demo_env (Some "alice")) "contacts" None (Some one_after_the_first)
    crowded_world
  = (Ok [contact "c5" "alice" "Eve"],
     log (EvStorage OpSelect "contacts") crowded_world)
  /\ (length [contact "c5" "alice" "Eve"] <= Z.to_nat 1)%nat
  /\ getAll (demo_env (Some "alice")) "contacts" None None crowded_world
     = (Ok [contact "c1" "alice" "Ann"; contact "c5" "alice" "Eve";
            contact "c6" "alice" "Fay"],
        log (EvStorage OpSelect "contacts") crowded_world).
Proof.
  split; [| split].
  - vm_compute. reflexivity.
  - apply (getAll_respects_limit (demo_env (Some "alice")) "contacts" None
             (Some one_after_the_first) 1 crowded_world
             (log (EvStorage OpSelect "contacts") crowded_world)).
    + reflexivity.
    + lia.
    + intros o [= <-]. lia.
    + vm_compute. reflexivity.
  - vm_compute. reflexivity.
Defined.

(** Beyond [2^53] the bound is lost: with [offset] [2^53 + 2] and [limit] 2
    the upper end [2^53 + 3] rounds up, and the range spans three positions. *)
Lemma range_spans_more_than_limit_beyond_2_53 :
  q_range (listQuery "contacts" None (VStr "alice")
             (Some {| limit := Some 2; offset := Some (2 ^ 53 + 2); sortBy := None;
                      sortOrder := None; filters := None |}))
  = Some (2 ^ 53 + 2, 2 ^ 53 + 4).
Proof. vm_compute. reflexivity. Qed.

Lemma insert_sorted_perm leb r rows : insert_sorted leb r rows ≡ₚ r :: rows.
Proof.
  induction rows as [|x rest IH]; simpl; [done |].
  destruct (leb r x); [done |]. rewrite IH. apply Permutation_swap.
Qed.

Lemma sort_rows_perm leb rows : sort_rows leb rows ≡ₚ rows.
Proof.
  unfold sort_rows. induction rows as [|x rest IH]; simpl; [done |].
  by rewrite insert_sorted_perm, IH.
Qed.

(** X7: a [getAll] called without a [limit] returns, once each and in some
    order, the projections of exactly the stored rows that pass the filters of
    the call: the owner column equals the caller, [archived_at] is null when
    soft delete is on and archived rows are not included, and every equality
    filter holds.  No matching row is dropped or repeated. *)
Theorem getAll_without_limit_returns_every_match
    (env : Env) (tableName : string) (options : option CRUDOptions)
    (queryOptions : option QueryOptions) (w w' : World) (rows : Table) :
  queryOptions ≫= limit = None ->
  getAll env tableName options queryOptions w = (Ok rows, w') ->
  exists finalOwnerId w1 stored chosen,
    resolveOwner env tableName options w = (Ok finalOwnerId, w1)
    /\ db w !! tableName = Some stored
    /\ rows = project env (cfg_selectQuery (config tableName options)) <$> chosen
    /\ chosen ≡ₚ List.filter
                   (matches (list_filters tableName options finalOwnerId queryOptions))
                   stored.
Proof.
  intros Hl Hrun.
  apply getAll_returns_selected_for_owner in Hrun as (owner & w1 & stored & Hres & Ht & ->).
  exists owner, w1, stored. eexists. split; [done |]. split; [done |]. split; [done |].
  unfold selected, paginate. rewrite listQuery_range, listQuery_limit, Hl. simpl.
  rewrite andb_false_r, listQuery_filters_exact. unfold ordered.
  destruct (q_order _) as [[c []]|]; [| | done]; apply sort_rows_perm.
Qed.

Lemma getAll_without_limit_returns_every_match_witness :
  exists finalOwnerId w1 stored chosen,
    resolveOwner (demo_env (Some "alice")) "contacts" None world_with_archived
      = (Ok finalOwnerId, w1)
    /\ db world_with_archived !! "contacts" = Some stored
    /\ [contact "c1" "alice" "Ann"]
       = project (demo_env (Some "alice")) (cfg_selectQuery (config "contacts" None))
           <$> chosen
    /\ chosen ≡ₚ List.filter (matches (list_filters "contacts" None finalOwnerId None))
                   stored.
Proof.
  apply (getAll_without_limit_returns_every_match (demo_env (Some "alice")) "contacts"
           None None world_with_archived
           (log (EvStorage OpSelect "contacts") world_with_archived)).
  - reflexivity.
  - vm_compute. reflexivity.
Defined.

(** X8: [getAll] and [getOne] are read-only, whatever they return or throw:
    the tables and the idempotency cache are left as they were and no insert,
    update or delete request is made. *)
Theorem reads_write_nothing
    (env : Env) (tableName : string) (options : option CRUDOptions)
    (queryOptions : option QueryOptions) (id : string) (w : World) :
  quiet not_write w (getAll env tableName options queryOptions w).2
  /\ quiet not_write w (getOne env tableName options id w).2.
Proof.
  split.
  - revert w. change (preserves (quiet not_write)
                        (getAll env tableName options queryOptions)).
    unfold getAll. frame.
  - revert w. change (preserves (quiet not_write) (getOne env tableName options id)).
    unfold getOne. frame.
Qed.

(** ** Reading one record, and what deleting does to later reads *)

Section OneRecord.
Variable env : Env.
Variable tableName : string.
Variable options : option CRUDOptions.
Variables (id : string) (owner : Value) (rows : Table) (w w1 : World).

Hypothesis resolved : resolveOwner env tableName options w = (Ok owner, w1).
Hypothesis table_exists : db w !! tableName = Some rows.

Lemma getOne_run :
  getOne env tableName options id w =
  (match single (inr (project env (cfg_selectQuery (config tableName options))
                        <$> List.filter (matches (scope tableName options id owner)) rows))
   with
   | inr r => Ok r
   | inl e => Throw (StorageError e)
   end,
   log (EvStorage OpSelect tableName) w1).
Proof.
  unfold getOne. rewrite (bind_ok _ _ _ _ _ resolved).
  unfold bind, await_select, exec_select, selected, paginate, ordered.
  cbn [q_table q_eq with_filter from_select q_columns q_filters q_order q_limit q_range
       app fst snd].
  rewrite (quiet_db _ _ _ (resolved_quiet _ _ _ _ _ _ resolved)), table_exists.
  fold (scope tableName options id owner).
  by destruct (single _).
Qed.
End OneRecord.

(** Resolving the caller makes at most one request, the select on
    [profiles], and none without the profile indirection. *)
Lemma resolveOwner_requests env tableName options owner w w1 :
  resolveOwner env tableName options w = (Ok owner, w1) ->
  (cfg_useProfileLookup (config tableName options) = false -> w1 = w)
  /\ (w1 = w \/ w1 = log (EvStorage OpSelect "profiles") w).
Proof.
  unfold resolveOwner, getContext, getProfileId. cbn [auth_getUser].
  destruct (session_user env) as [uid|] eqn:Hsession;
    [| destruct (development env) eqn:Hdev];
    destruct (cfg_useProfileLookup (config tableName options)) eqn:Hlookup.
  - unfold bind at 1. cbn [ret fst snd auth_getUser]. rewrite Hsession.
    unfold bind, await_select. cbn [q_table q_eq with_filter from_select].
    destruct (single _); intros [= _ <-]; (split; [done | by right]).
  - intros [= _ <-]. split; [done | by left].
  - unfold bind at 1. cbn [ret fst snd auth_getUser].
    destruct (admin_user env) as [admin|] eqn:Hadmin.
    + unfold bind, await_select. cbn [q_table q_eq with_filter from_select].
      destruct (single _); intros [= _ <-]; (split; [done | by right]).
    + intros [= _ <-]. split; [done | by left].
  - intros [= _ <-]. split; [done | by left].
  - discriminate.
  - discriminate.
Qed.

(** X9: [getOne] looks at the rows of the collection that carry the id and
    the caller's owner id, and at nothing else (an archived row counts like
    any other).  If there is exactly one, it returns its projection; if there
    is none, or more than one, it throws the no-row error PGRST116.  Either
    way it ends with exactly one select request on the collection.  That is
    the only request of the call when the profile indirection is off; when it
    is configured, the one request that can precede it is the select on
    [profiles] made to resolve the caller. *)
Theorem getOne_returns_the_row_in_scope
    (env : Env) (tableName : string) (options : option CRUDOptions) (id : string)
    (owner : Value) (rows : Table) (w w1 : World) :
  resolveOwner env tableName options w = (Ok owner, w1) ->
  db w !! tableName = Some rows ->
  let in_scope := List.filter (matches (scope tableName options id owner)) rows in
  let w' := log (EvStorage OpSelect tableName) w1 in
  (forall r, in_scope = [r] ->
     getOne env tableName options id w
     = (Ok (project env (cfg_selectQuery (config tableName options)) r), w'))
  /\ (length in_scope <> 1%nat ->
      getOne env tableName options id w = (Throw (StorageError PGRST116), w'))
  /\ (cfg_useProfileLookup (config tableName options) = false ->
      w' = log (EvStorage OpSelect tableName) w)
  /\ (w' = log (EvStorage OpSelect tableName) w
      \/ w' = log (EvStorage OpSelect tableName)
                (log (EvStorage OpSelect "profiles") w)).
Proof.
  intros Hres Htable in_scope w'.
  rewrite (getOne_run _ _ _ _ _ _ _ _ Hres Htable). fold in_scope.
  destruct (resolveOwner_requests _ _ _ _ _ _ Hres) as [Hoff Hone].
  split; [| split; [| split]].
  - by intros r ->.
  - intros Hlen. rewrite single_not_one; [done |]. by rewrite length_fmap.
  - intros Hlookup. subst w'. by rewrite (Hoff Hlookup).
  - subst w'. destruct Hone as [-> | ->]; [by left | by right].
Qed.

Lemma getOne_returns_the_row_in_scope_witness :
  getOne (demo_env (Some "alice")) "contacts" None "c4" world_with_archived
  = (Ok (archived_contact "c4" "alice" "Al"),
     log (EvStorage OpSelect "contacts") world_with_archived)
  /\ getOne (demo_env (Some "alice")) "contacts" (Some profile_lookup_options) "c7"
       profile_world
     = (Ok (contact "c7" "p-alice" "Pat"),
        log (EvStorage OpSelect "contacts")
          (log (EvStorage OpSelect "profiles") profile_world)).
Proof.
  split.
  - destruct (getOne_returns_the_row_in_scope (demo_env (Some "alice")) "contacts" None
                "c4" (VStr "alice")
                [contact "c1" "alice" "Ann"; archived_contact "c4" "alice" "Al";
                 contact "c2" "bob" "Ben"]
                world_with_archived world_with_archived) as [Hone _].
    + reflexivity.
    + reflexivity.
    + apply (Hone (archived_contact "c4" "alice" "Al")). vm_compute. reflexivity.
  - destruct (getOne_returns_the_row_in_scope (demo_env (Some "alice")) "contacts"
                (Some profile_lookup_options) "c7" (VStr "p-alice")
                [contact "c7" "p-alice" "Pat"]
                profile_world (log (EvStorage OpSelect "profiles") profile_world))
      as [Hone _].
    + vm_compute. reflexivity.
    + reflexivity.
    + apply (Hone (contact "c7" "p-alice" "Pat")). vm_compute. reflexivity.
Defined.

(** What the two branches of [deleteRecord] do to the tables when the call
    returns. *)
Section DeleteReturns.
Variable env : Env.
Variable tableName : string.
Variable options : option CRUDOptions.
Variables (id : string) (owner : Value) (w w1 w' : World).

Lemma deleteRecord_returns_changed :
  resolveOwner env tableName options w = (Ok owner, w1) ->
  deleteRecord env tableName options id w = (Ok tt, w') ->
  exists rows,
    db w !! tableName = Some rows
    /\ if cfg_hasSoftDelete (config tableName options) then
         exists iso,
           db w' = <[tableName := patch_row (archived_patch iso)
                                    (scope tableName options id owner) <$> rows]> (db w)
       else
         db w' = <[tableName := List.filter
                                  (fun r => negb (matches (scope tableName options id owner) r))
                                  rows]> (db w).
Proof.
  intros resolved Hrun.
  cut (wp (deleteRecord env tableName options id) w
         (fun o v => o = Ok tt ->
            exists rows,
              db w !! tableName = Some rows
              /\ if cfg_hasSoftDelete (config tableName options) then
                   exists iso,
                     db v = <[tableName := patch_row (archived_patch iso)
                                             (scope tableName options id owner) <$> rows]>
                              (db w)
                 else
                   db v = <[tableName :=
                              List.filter
                                (fun r => negb (matches (scope tableName options id owner) r))
                                rows]> (db w))).
  { intros Hwp. by apply (wp_elim _ _ _ _ _ Hwp Hrun). }
  pose proof (quiet_db _ _ _ (resolved_quiet _ _ _ _ _ _ resolved)) as Hdb.
  unfold deleteRecord. wp_step. eapply wp_run; [exact resolved | cbv beta iota].
  destruct (cfg_hasSoftDelete (config tableName options)) eqn:Hsoft.
  all: wp_steps using
    (first [ progress unfold exec_update, exec_delete
           | match goal with
             | |- context [db w1 !! tableName] =>
                 destruct (db w1 !! tableName) as [rows|] eqn:Ht
             end ]).
  all: try discriminate.
  all: intros _; rewrite <- Hdb; eauto.
Qed.
End DeleteReturns.

Lemma filter_out_then_in {A} (f : A -> bool) (l : list A) :
  List.filter f (List.filter (fun x => negb (f x)) l) = [].
Proof.
  induction l as [|x l IH]; [done |]. simpl.
  destruct (f x) eqn:Hx; simpl; [done |]. by rewrite Hx.
Qed.

(** X10: on a collection without soft delete, a [delete] that returns has
    removed exactly the rows carrying the id and the caller's owner id, keeping
    every other row in place and order; a [getOne] of the same id by the same
    caller then throws the no-row error: a hard-deleted record is gone. *)
Theorem hard_delete_removes_the_record
    (env : Env) (tableName : string) (options : option CRUDOptions) (id : string)
    (owner : Value) (w wa w1 wb : World) :
  cfg_hasSoftDelete (config tableName options) = false ->
  resolveOwner env tableName options w = (Ok owner, wa) ->
  deleteRecord env tableName options id w = (Ok tt, w1) ->
  resolveOwner env tableName options w1 = (Ok owner, wb) ->
  exists rows,
    db w !! tableName = Some rows
    /\ db w1 = <[tableName :=
                   List.filter (fun r => negb (matches (scope tableName options id owner) r))
                     rows]> (db w)
    /\ getOne env tableName options id w1
       = (Throw (StorageError PGRST116), log (EvStorage OpSelect tableName) wb).
Proof.
  intros Hhard Hres Hdel Hres1.
  destruct (deleteRecord_returns_changed _ _ _ _ _ _ _ _ Hres Hdel) as (rows & Ht & Hdb).
  rewrite Hhard in Hdb. exists rows. split; [done |]. split; [done |].
  eapply getOne_no_match; [exact Hres1 | |].
  - rewrite Hdb. apply lookup_insert_eq.
  - apply filter_out_then_in.
Qed.

Lemma hard_delete_removes_the_record_witness :
  exists rows,
    db demo_world !! "contacts" = Some rows
    /\ db (deleteRecord (demo_env (Some "alice")) "contacts" (Some hard_delete_options)
             "c1" demo_world).2
       = <["contacts" :=
            List.filter
              (fun r => negb (matches (scope "contacts" (Some hard_delete_options) "c1"
                                         (VStr "alice")) r)) rows]> (db demo_world)
    /\ getOne (demo_env (Some "alice")) "contacts" (Some hard_delete_options) "c1"
         (deleteRecord (demo_env (Some "alice")) "contacts" (Some hard_delete_options)
            "c1" demo_world).2
       = (Throw (StorageError PGRST116),
          log (EvStorage OpSelect "contacts")
            (deleteRecord (demo_env (Some "alice")) "contacts"
               (Some hard_delete_options) "c1" demo_world).2).
Proof.
  apply (hard_delete_removes_the_record (demo_env (Some "alice")) "contacts"
           (Some hard_delete_options) "c1" (VStr "alice") demo_world demo_world).
  - reflexivity.
  - reflexivity.
  - vm_compute. reflexivity.
  - vm_compute. reflexivity.
Defined.

(** ** Writes stay inside the caller's scope *)

Lemma only_in_scope_refl t fs d : only_in_scope t fs d d.
Proof.
  split; [done | split; [| done]]. intros rows Hr. by exists rows.
Qed.

Lemma only_in_scope_trans t fs d1 d2 d3 :
  only_in_scope t fs d1 d2 -> only_in_scope t fs d2 d3 -> only_in_scope t fs d1 d3.
Proof.
  intros (Ho1 & Hr1 & Hn1) (Ho2 & Hr2 & Hn2). split; [| split].
  - intros t' Hne. by rewrite Ho2, Ho1.
  - intros rows Hrows.
    destruct (Hr1 rows Hrows) as (rows2 & Hrows2 & Hkeep1).
    destruct (Hr2 rows2 Hrows2) as (rows3 & Hrows3 & Hkeep2).
    exists rows3. split; [done |]. intros r Hin Hout. apply Hkeep2; [by apply Hkeep1 | done].
  - intros Hnone. by apply Hn2, Hn1.
Qed.

Lemma only_in_scope_patch t fs d rows patch :
  d !! t = Some rows ->
  only_in_scope t fs d (<[t := patch_row patch fs <$> rows]> d).
Proof.
  intros Ht. split; [| split].
  - intros t' Hne. by rewrite lookup_insert_ne.
  - intros rows0 Hr. rewrite Ht in Hr. injection Hr as <-.
    eexists. split; [apply lookup_insert_eq |].
    intros r Hin Hout. apply list_elem_of_fmap. exists r. split; [| done].
    unfold patch_row. by rewrite Hout.
  - intros Hnone. by rewrite Ht in Hnone.
Qed.

Lemma only_in_scope_delete t fs d rows :
  d !! t = Some rows ->
  only_in_scope t fs d (<[t := List.filter (fun r => negb (matches fs r)) rows]> d).
Proof.
  intros Ht. split; [| split].
  - intros t' Hne. by rewrite lookup_insert_ne.
  - intros rows0 Hr. rewrite Ht in Hr. injection Hr as <-.
    eexists. split; [apply lookup_insert_eq |].
    intros r Hin Hout. apply list_elem_of_In, filter_In. split.
    + by apply list_elem_of_In.
    + by rewrite Hout.
  - intros Hnone. by rewrite Ht in Hnone.
Qed.

Lemma exec_update_only_in_scope t fs patch d :
  only_in_scope t fs d (exec_update d t patch fs).2.
Proof.
  unfold exec_update. destruct (d !! t) as [rows|] eqn:Ht; cbn [snd].
  - by apply only_in_scope_patch.
  - apply only_in_scope_refl.
Qed.

Lemma exec_update_single_only_in_scope t fs patch d :
  only_in_scope t fs d (exec_update_single d t patch fs).2.
Proof.
  unfold exec_update_single.
  pose proof (exec_update_only_in_scope t fs patch d) as H.
  destruct (exec_update d t patch fs) as [resp d'].
  destruct (single resp); cbn [snd] in *; [apply only_in_scope_refl | exact H].
Qed.

Lemma exec_delete_only_in_scope t fs d :
  only_in_scope t fs d (exec_delete d t fs).2.
Proof.
  unfold exec_delete. destruct (d !! t) as [rows|] eqn:Ht; cbn [snd].
  - by apply only_in_scope_delete.
  - apply only_in_scope_refl.
Qed.

Global Instance scoped_write_preorder t fs : PreOrder (scoped_write t fs).
Proof.
  split.
  - intros w. apply only_in_scope_refl.
  - intros w1 w2 w3. apply only_in_scope_trans.
Qed.

Lemma quiet_scoped_write P t fs w w' : quiet P w w' -> scoped_write t fs w w'.
Proof. intros (Hdb & _). unfold scoped_write. rewrite Hdb. apply only_in_scope_refl. Qed.

Lemma cache_only_scoped_write t fs w w' : cache_only w w' -> scoped_write t fs w w'.
Proof. intros (Hdb & _). unfold scoped_write. rewrite Hdb. apply only_in_scope_refl. Qed.

Lemma await_write_scoped {A} t fs op (run : DB -> Response A * DB) :
  (forall d, only_in_scope t fs d (run d).2) ->
  preserves (scoped_write t fs) (await_write op t run).
Proof.
  intros Hrun w. unfold await_write, scoped_write. specialize (Hrun (db w)).
  by destruct (run (db w)).
Qed.

Lemma await_update_scoped t fs patch :
  preserves (scoped_write t fs) (await_update t patch fs).
Proof.
  apply await_write_scoped. intros d.
  pose proof (exec_update_only_in_scope t fs patch d) as H.
  by destruct (exec_update d t patch fs).
Qed.

Lemma await_update_single_scoped t fs patch :
  preserves (scoped_write t fs) (await_update_single t patch fs).
Proof. apply await_write_scoped, exec_update_single_only_in_scope. Qed.

Lemma await_delete_scoped t fs :
  preserves (scoped_write t fs) (await_delete t fs).
Proof. apply await_write_scoped, exec_delete_only_in_scope. Qed.

Section ScopedWrites.
Variable env : Env.
Variable tableName : string.
Variable updateSchema : Schema.
Variable options : option CRUDOptions.
Variables (id : string) (owner : Value).

Let fs := scope tableName options id owner.

Local Hint Resolve await_update_scoped await_update_single_scoped
  await_delete_scoped : frame.
Local Hint Extern 10 (preserves (scoped_write _ _) _) =>
  eapply (preserves_weaken (quiet any_event)); [apply quiet_scoped_write |] : frame.
Local Hint Extern 10 (preserves (scoped_write _ _) _) =>
  eapply (preserves_weaken cache_only); [apply cache_only_scoped_write |] : frame.

(** What follows the owner's resolution, for each mutation. *)
Lemma after_owner_scoped {A} (m : M A) (rest : Value -> M A) w w1 :
  (forall w, m w = (let (o, w') := resolveOwner env tableName options w in
                    match o with
                    | Ok a => rest a w'
                    | Throw e => (Throw e, w')
                    end)) ->
  preserves (scoped_write tableName fs) (rest owner) ->
  resolveOwner env tableName options w = (Ok owner, w1) ->
  scoped_write tableName fs w (m w).2.
Proof.
  intros Hm Hrest Hres. rewrite Hm, Hres.
  etrans; [| apply Hrest].
  eapply quiet_scoped_write, (resolved_quiet _ _ _ _ _ _ Hres).
Qed.

Lemma deleteRecord_scoped w w1 :
  resolveOwner env tableName options w = (Ok owner, w1) ->
  scoped_write tableName fs w (deleteRecord env tableName options id w).2.
Proof.
  apply (after_owner_scoped _ _ w w1 (fun _ => eq_refl)).
  subst fs. frame.
Qed.

Lemma unarchive_scoped w w1 :
  resolveOwner env tableName options w = (Ok owner, w1) ->
  scoped_write tableName fs w (unarchive env tableName options id w).2.
Proof.
  intros Hres. unfold unarchive.
  destruct (cfg_hasSoftDelete (config tableName options)); cbn [negb];
    [| reflexivity].
  revert Hres. apply (after_owner_scoped _ _ w w1 (fun _ => eq_refl)).
  subst fs. frame.
Qed.

Lemma archive_scoped w w1 :
  resolveOwner env tableName options w = (Ok owner, w1) ->
  scoped_write tableName fs w (archive env tableName options id w).2.
Proof.
  intros Hres. unfold archive.
  destruct (cfg_hasSoftDelete (config tableName options)); cbn [negb];
    [| reflexivity].
  by eapply deleteRecord_scoped.
Qed.

Lemma update_scoped formData idempotencyKey w w1 :
  resolveOwner env tableName options w = (Ok owner, w1) ->
  scoped_write tableName fs w
    (update env tableName updateSchema options id formData idempotencyKey w).2.
Proof.
  intros Hres. unfold update. fold (cache_lookup env idempotencyKey).
  unfold bind at 1.
  destruct (cache_lookup env idempotencyKey w) as [o wl] eqn:Hlookup.
  pose proof (preserves_run _ _ _ _ _ (cache_lookup_cache_only env idempotencyKey) Hlookup)
    as Hc.
  pose proof (cache_only_scoped_write tableName fs _ _ Hc) as Hs.
  destruct o as [[r|]|e]; [exact Hs | | exact Hs].
  destruct Hc as [Hdbl _].
  destruct (resolveOwner_same_db _ _ _ _ wl _ _ Hdbl Hres) as [wl1 Hres'].
  etrans; [exact Hs |].
  revert Hres'. apply (after_owner_scoped _ _ wl wl1 (fun _ => eq_refl)).
  subst fs. frame.
Qed.
End ScopedWrites.

(** X11: a mutation that names a record changes nothing outside the
    record's scope.  With the caller resolved to [owner], after [update],
    [deleteRecord], [archive] or [unarchive] of [id] (whatever the call
    returns or throws) every other table is as before, and every row of the
    table that is not the row [id] of [owner] is still in it. *)
Theorem mutations_leave_other_rows_alone (env : Env) (tableName : string)
    (updateSchema : Schema) (options : option CRUDOptions) (id : string)
    (formData : Row) (idempotencyKey : option string) (owner : Value) (w w1 : World) :
  resolveOwner env tableName options w = (Ok owner, w1) ->
  let untouched w' :=
    only_in_scope tableName (scope tableName options id owner) (db w) (db w') in
  untouched (update env tableName updateSchema options id formData idempotencyKey w).2
  /\ untouched (deleteRecord env tableName options id w).2
  /\ untouched (archive env tableName options id w).2
  /\ untouched (unarchive env tableName options id w).2.
Proof.
  intros Hres untouched. subst untouched. cbv beta.
  split; [| split; [| split]].
  - by eapply update_scoped.
  - by eapply deleteRecord_scoped.
  - by eapply archive_scoped.
  - by eapply unarchive_scoped.
Qed.

Lemma mutations_leave_other_rows_alone_witness :
  let untouched w' :=
    only_in_scope "contacts" (scope "contacts" None "c1" (VStr "alice"))
      (db demo_world) (db w') in
  untouched (update (demo_env (Some "alice")) "contacts" accept_all None "c1" jane None
               demo_world).2
  /\ untouched (deleteRecord (demo_env (Some "alice")) "contacts" None "c1" demo_world).2
  /\ untouched (archive (demo_env (Some "alice")) "contacts" None "c1" demo_world).2
  /\ untouched (unarchive (demo_env (Some "alice")) "contacts" None "c1" demo_world).2.
Proof.
  apply (mutations_leave_other_rows_alone (demo_env (Some "alice")) "contacts"
           accept_all None "c1" jane None (VStr "alice") demo_world demo_world).
  reflexivity.
Defined.

(** ** An archived record leaves the lists but stays readable *)

Lemma filter_patched_in_scope tableName options id owner iso (rows : Table) :
  cfg_ownerIdColumn (config tableName options) <> "archived_at" ->
  cfg_ownerIdColumn (config tableName options) <> "status" ->
  List.filter (matches (scope tableName options id owner))
    (patch_row (archived_patch iso) (scope tableName options id owner) <$> rows)
  = (fun r => archived_patch iso ∪ r)
      <$> List.filter (matches (scope tableName options id owner)) rows.
Proof.
  intros H1 H2. induction rows as [|r rows IH]; [done |].
  cbn [fmap list_fmap List.filter]. fold (@fmap list _ Row Row).
  destruct (matches (scope tableName options id owner) r) eqn:Hm.
  - assert (patch_row (archived_patch iso) (scope tableName options id owner) r
            = archived_patch iso ∪ r) as ->.
    { unfold patch_row. by rewrite Hm. }
    rewrite (archived_row_in_scope _ _ _ _ H1 H2), Hm. cbn [fmap list_fmap].
    by rewrite IH.
  - assert (patch_row (archived_patch iso) (scope tableName options id owner) r = r)
      as ->.
    { unfold patch_row. by rewrite Hm. }
    by rewrite Hm.
Qed.

(** X12: after [archive] of a record has returned (soft delete on), the
    record is still what [getOne] of its id returns, now carrying the archive
    stamp and status [archived]; and unless the factory includes archived
    rows, no [getAll] of the same caller lists it any more: every row listed
    is one the archive left as it was. *)
Theorem archived_record_is_readable_but_not_listed
    (env : Env) (tableName : string) (options : option CRUDOptions) (id : string)
    (owner : Value) (w w1 wa wb : World) :
  cfg_ownerIdColumn (config tableName options) <> "archived_at" ->
  cfg_ownerIdColumn (config tableName options) <> "status" ->
  resolveOwner env tableName options w = (Ok owner, w1) ->
  archive env tableName options id w = (Ok tt, wa) ->
  resolveOwner env tableName options wa = (Ok owner, wb) ->
  exists rows iso,
    db w !! tableName = Some rows
    /\ (forall r,
          List.filter (matches (scope tableName options id owner)) rows = [r] ->
          getOne env tableName options id wa
          = (Ok (project env (cfg_selectQuery (config tableName options))
                   (archived_patch iso ∪ r)),
             log (EvStorage OpSelect tableName) wb))
    /\ (cfg_includeArchived (config tableName options) = false ->
        forall queryOptions listed w',
          getAll env tableName options queryOptions wa = (Ok listed, w') ->
          Forall (fun x => exists r0,
                    r0 ∈ rows
                    /\ matches (scope tableName options id owner) r0 = false
                    /\ x = project env (cfg_selectQuery (config tableName options)) r0)
                 listed).
Proof.
  intros Hcol1 Hcol2 Hres Harch Hres'.
  assert (cfg_hasSoftDelete (config tableName options) = true) as Hsoft.
  { unfold archive in Harch.
    by destruct (cfg_hasSoftDelete (config tableName options)). }
  destruct (archive_returns_patched _ _ _ _ _ _ _ Hsoft Hres _ Harch)
    as (rows & iso & Hrows & Hdb).
  assert (db wa !! tableName
          = Some (patch_row (archived_patch iso) (scope tableName options id owner)
                    <$> rows)) as Hrows'.
  { rewrite Hdb. apply lookup_insert_eq. }
  exists rows, iso. split; [exact Hrows | split].
  - intros r Hone.
    rewrite (getOne_run _ _ _ _ _ _ _ _ Hres' Hrows').
    by rewrite filter_patched_in_scope, Hone.
  - intros Hinc queryOptions listed w' Hall.
    destruct (getAll_returns_selected_for_owner _ _ _ _ _ _ _ Hall)
      as (owner' & wb' & stored & Hres'' & Hstored & ->).
    rewrite Hres' in Hres''. injection Hres'' as <- <-.
    rewrite Hrows' in Hstored. injection Hstored as <-.
    apply Forall_forall. intros x Hx.
    apply list_elem_of_fmap in Hx as (r' & -> & Hsel).
    apply selected_elem in Hsel as [Hin Hm].
    rewrite listQuery_filters_exact in Hm.
    assert (holds (FIsNull "archived_at") r' = true) as Hnull.
    { apply (matches_holds _ _ _ Hm). unfold list_filters.
      rewrite Hsoft, Hinc. cbn [andb negb app].
      apply list_elem_of_further, list_elem_of_here. }
    apply list_elem_of_fmap in Hin as (r0 & -> & Hin0).
    exists r0. unfold patch_row in *.
    destruct (matches (scope tableName options id owner) r0) eqn:Hscope.
    + exfalso. revert Hnull. cbn [holds]. unfold col.
      rewrite lookup_union, archived_patch_lookup. rewrite decide_True by done.
      by destruct (r0 !! "archived_at").
    + done.
Qed.

Lemma archived_record_is_readable_but_not_listed_witness :
  exists iso,
    getOne (demo_env (Some "alice")) "contacts" None "c1" after_archive
    = (Ok (project (demo_env (Some "alice")) (cfg_selectQuery (config "contacts" None))
             (archived_patch iso ∪ contact "c1" "alice" "Ann")),
       log (EvStorage OpSelect "contacts") after_archive)
    /\ forall queryOptions listed w',
         getAll (demo_env (Some "alice")) "contacts" None queryOptions after_archive
         = (Ok listed, w') ->
         Forall (fun x => exists r0,
                   r0 ∈ [contact "c1" "alice" "Ann"; contact "c2" "bob" "Ben"]
                   /\ matches (scope "contacts" None "c1" (VStr "alice")) r0 = false
                   /\ x = project (demo_env (Some "alice"))
                            (cfg_selectQuery (config "contacts" None)) r0)
                listed.
Proof.
  destruct (archived_record_is_readable_but_not_listed (demo_env (Some "alice"))
              "contacts" None "c1" (VStr "alice") demo_world demo_world after_archive
              after_archive) as (rows & iso & Hrows & Hone & Hall).
  - vm_compute. discriminate.
  - vm_compute. discriminate.
  - reflexivity.
  - vm_compute. reflexivity.
  - vm_compute. reflexivity.
  - assert (rows = [contact "c1" "alice" "Ann"; contact "c2" "bob" "Ben"]) as ->.
    { apply (inj Some). rewrite <- Hrows. reflexivity. }
    exists iso. split.
    + apply Hone. vm_compute. reflexivity.
    + apply Hall. reflexivity.
Defined.

(** ** What a [create] leaves behind *)

Section CreateOutcomes.
Variable env : Env.
Variable tableName : string.
Variable insertSchema : Schema.
Variable options : option CRUDOptions.
Variables (formData : Row) (idempotencyKey : option string).
Variables (owner : Value) (w0 w w1 : World).

Hypothesis missed : cache_lookup env idempotencyKey w0 = (Ok None, w).
Hypothesis resolved : resolveOwner env tableName options w = (Ok owner, w1).

Let payload : Row :=
  <[cfg_ownerIdColumn (config tableName options) := owner]> (processData formData).

Lemma create_outcomes :
  wp (create env tableName insertSchema options formData idempotencyKey) w0
    (fun o v =>
       match o with
       | Ok data =>
           exists validated rows,
             insertSchema payload = inr validated
             /\ db w0 !! tableName = Some rows
             /\ insert_row env tableName rows validated = inr data
             /\ db v = <[tableName := (rows ++ [data])]> (db w0)
             /\ (if truthy_string idempotencyKey
                 then exists ts,
                     idempotencyCache v
                     = <[default "" idempotencyKey := {| result := data; timestamp := ts |}]>
                         (idempotencyCache w)
                 else idempotencyCache v = idempotencyCache w)
       | Throw e =>
           idempotencyCache v = idempotencyCache w
           /\ appended not_revalidate w0 v
           /\ (db v = db w0
               \/ exists validated rows data h ctx,
                    insertSchema payload = inr validated
                    /\ db w0 !! tableName = Some rows
                    /\ insert_row env tableName rows validated = inr data
                    /\ db v = <[tableName := (rows ++ [data])]> (db w0)
                    /\ hook options afterCreate = Some h
                    /\ h data ctx = Some e)
       end).
Proof.
  destruct (missed_cache_only _ _ _ _ missed) as [Hdb0 Htr0].
  destruct (preserves_run _ _ _ _ _
              (resolveOwner_quiet env not_revalidate tableName options I) resolved)
    as (Hdb1 & Hc1 & evs & Htr1 & Hevs).
  unfold create. fold (cache_lookup env idempotencyKey).
  wp_step. eapply wp_run; [exact missed | cbv beta iota].
  wp_step. eapply wp_run; [exact resolved | cbv beta iota].
  fold payload.
  wp_steps using
    (first [ progress unfold exec_insert_single
           | match goal with
             | |- context [db w1 !! tableName] =>
                 destruct (db w1 !! tableName) as [rows|] eqn:Ht
             | |- context [insert_row env tableName ?rows ?v] =>
                 destruct (insert_row env tableName rows v) as [?|stored] eqn:Hins
             | |- wp (setCachedResult _ _ _) _ _ =>
                 eapply wp_run; [apply setCachedResult_run | cbv beta iota]
             end ]).
  all: lazymatch goal with
       | |- exists _, _ =>
           eexists _, _; split; [reflexivity |];
           split; [by rewrite <- Hdb0, <- Hdb1 |];
           split; [eassumption |];
           split; [by rewrite Hdb1, Hdb0 |]
       | |- _ /\ _ =>
           split; [exact Hc1 |];
           split;
           [ unfold appended; world_simpl; rewrite Htr1, Htr0, <- ?app_assoc;
             eexists; split; [reflexivity |];
             repeat (apply Forall_app; split); [exact Hevs | repeat constructor ..] |]
       end.
  all: first
         [ exact Hc1
         | rewrite Hc1; by eexists
         | left; by rewrite Hdb1, Hdb0
         | right; eexists _, _, _, _, _; split; [reflexivity |];
           split; [by rewrite <- Hdb0, <- Hdb1 |];
           split; [eassumption |];
           split; [by rewrite Hdb1, Hdb0 |];
           split; [reflexivity | eassumption] ].
Qed.

Lemma create_runs_to_the_end validated rows data :
  insertSchema payload = inr validated ->
  db w0 !! tableName = Some rows ->
  insert_row env tableName rows validated = inr data ->
  (forall h ctx, hook options beforeCreate = Some h -> h validated ctx = None) ->
  (forall h ctx, hook options afterCreate = Some h -> h data ctx = None) ->
  wp (create env tableName insertSchema options formData idempotencyKey) w0
    (fun o _ => o = Ok data).
Proof.
  intros Hval Hrows Hins Hbefore Hafter.
  destruct (missed_cache_only _ _ _ _ missed) as [Hdb0 _].
  pose proof (quiet_db _ _ _ (resolved_quiet _ _ _ _ _ _ resolved)) as Hdb1.
  assert (db w1 !! tableName = Some rows) as Hrows1 by by rewrite Hdb1, Hdb0.
  unfold create. fold (cache_lookup env idempotencyKey).
  wp_step. eapply wp_run; [exact missed | cbv beta iota].
  wp_step. eapply wp_run; [exact resolved | cbv beta iota].
  fold payload.
  wp_steps using
    (first [ rewrite Hval
           | progress unfold exec_insert_single
           | rewrite Hrows1
           | rewrite Hins
           | match goal with
             | H : hook options beforeCreate = Some ?h |- context [?h validated ?c] =>
                 rewrite (Hbefore h c H)
             | H : hook options afterCreate = Some ?h |- context [?h data ?c] =>
                 rewrite (Hafter h c H)
             | |- wp (setCachedResult _ _ _) _ _ =>
                 eapply wp_run; [apply setCachedResult_run | cbv beta iota]
             end ]).
  all: try reflexivity.
  all: exfalso;
    match goal with
    | H : ?hk _ ?c = Some _, HB : forall h0 ctx0, Some ?hk = Some h0 -> _ |- _ =>
        rewrite (HB hk c eq_refl) in H; discriminate
    end.
Qed.
End CreateOutcomes.

(** X13: a [create] that the idempotency cache does not answer and that
    returns has appended exactly one row to the collection, the row it
    returns, and changed no other table.  That row is what the table made of
    the validated payload, and the payload went to validation with its owner
    column overwritten by the caller's resolved owner id, whatever the form
    data said.  With a non-empty key the result is then in the cache under
    that key; without one the cache is left alone. *)
Theorem create_appends_the_row_it_returns
    (env : Env) (tableName : string) (insertSchema : Schema)
    (options : option CRUDOptions) (formData : Row) (idempotencyKey : option string)
    (owner : Value) (w0 w w1 w' : World) (data : Row) :
  cache_lookup env idempotencyKey w0 = (Ok None, w) ->
  resolveOwner env tableName options w = (Ok owner, w1) ->
  create env tableName insertSchema options formData idempotencyKey w0 = (Ok data, w') ->
  exists validated rows,
    insertSchema (<[cfg_ownerIdColumn (config tableName options) := owner]>
                    (processData formData)) = inr validated
    /\ db w0 !! tableName = Some rows
    /\ insert_row env tableName rows validated = inr data
    /\ db w' = <[tableName := (rows ++ [data])]> (db w0)
    /\ (forall key, idempotencyKey = Some key -> key <> "" ->
        exists entry, idempotencyCache w' !! key = Some entry /\ result entry = data)
    /\ (truthy_string idempotencyKey = false -> idempotencyCache w' = idempotencyCache w).
Proof.
  intros Hmiss Hres Hrun.
  pose proof (wp_elim _ _ _ _ _
                (create_outcomes env tableName insertSchema options formData
                   idempotencyKey owner w0 w w1 Hmiss Hres) Hrun)
    as (validated & rows & Hval & Hrows & Hins & Hdb & Hcache).
  exists validated, rows. repeat (split; [assumption |]). split.
  - intros key -> Hkey. rewrite truthy_string_Some in Hcache by done.
    destruct Hcache as [ts ->]. eexists. split; [apply lookup_insert_eq | done].
  - intros Hfalsy. by rewrite Hfalsy in Hcache.
Qed.

Lemma create_appends_the_row_it_returns_witness :
  exists validated rows,
    accept_all (<[cfg_ownerIdColumn (config "contacts" None) := VStr "alice"]>
                  (processData jane)) = inr validated
    /\ db stale_world !! "contacts" = Some rows
    /\ insert_row (demo_env (Some "alice")) "contacts" rows validated = inr jane_row
    /\ db (create (demo_env (Some "alice")) "contacts" accept_all None jane
             (Some "key-1") stale_world).2
       = <["contacts" := (rows ++ [jane_row])]> (db stale_world)
    /\ (forall key, Some "key-1" = Some key -> key <> "" ->
        exists entry,
          idempotencyCache
            (create (demo_env (Some "alice")) "contacts" accept_all None jane
               (Some "key-1") stale_world).2 !! key = Some entry
          /\ result entry = jane_row)
    /\ (truthy_string (Some "key-1") = false ->
        idempotencyCache
          (create (demo_env (Some "alice")) "contacts" accept_all None jane
             (Some "key-1") stale_world).2
        = idempotencyCache
            (cache_lookup (demo_env (Some "alice")) (Some "key-1") stale_world).2).
Proof.
  apply (create_appends_the_row_it_returns (demo_env (Some "alice")) "contacts"
           accept_all None jane (Some "key-1") (VStr "alice") stale_world
           (cache_lookup (demo_env (Some "alice")) (Some "key-1") stale_world).2
           (cache_lookup (demo_env (Some "alice")) (Some "key-1") stale_world).2
           (create (demo_env (Some "alice")) "contacts" accept_all None jane
              (Some "key-1") stale_world).2
           jane_row).
  - vm_compute. reflexivity.
  - vm_compute. reflexivity.
  - vm_compute. reflexivity.
Defined.

(** X14: a [create] that throws after a cache miss has stored nothing in
    the idempotency cache and has called [revalidatePath] for no path.  The
    tables are as before the call, with one exception: when the error comes
    from the [afterCreate] hook the new row is already in the collection. *)
Theorem failed_create_caches_and_revalidates_nothing
    (env : Env) (tableName : string) (insertSchema : Schema)
    (options : option CRUDOptions) (formData : Row) (idempotencyKey : option string)
    (owner : Value) (w0 w w1 w' : World) (e : Err) :
  cache_lookup env idempotencyKey w0 = (Ok None, w) ->
  resolveOwner env tableName options w = (Ok owner, w1) ->
  create env tableName insertSchema options formData idempotencyKey w0 = (Throw e, w') ->
  idempotencyCache w' = idempotencyCache w
  /\ appended not_revalidate w0 w'
  /\ (db w' = db w0
      \/ exists validated rows data h ctx,
           insertSchema (<[cfg_ownerIdColumn (config tableName options) := owner]>
                           (processData formData)) = inr validated
           /\ db w0 !! tableName = Some rows
           /\ insert_row env tableName rows validated = inr data
           /\ db w' = <[tableName := (rows ++ [data])]> (db w0)
           /\ hook options afterCreate = Some h
           /\ h data ctx = Some e).
Proof.
  intros Hmiss Hres Hrun.
  exact (wp_elim _ _ _ _ _
           (create_outcomes env tableName insertSchema options formData
              idempotencyKey owner w0 w w1 Hmiss Hres) Hrun).
Qed.

Lemma failed_create_caches_and_revalidates_nothing_witness :
  let w' := (create (demo_env (Some "alice")) "contacts" accept_all
               (Some failing_afterCreate_options) jane None demo_world).2 in
  idempotencyCache w' = idempotencyCache demo_world
  /\ appended not_revalidate demo_world w'
  /\ (db w' = db demo_world
      \/ exists validated rows data h ctx,
           accept_all (<[cfg_ownerIdColumn
                           (config "contacts" (Some failing_afterCreate_options))
                         := VStr "alice"]> (processData jane)) = inr validated
           /\ db demo_world !! "contacts" = Some rows
           /\ insert_row (demo_env (Some "alice")) "contacts" rows validated = inr data
           /\ db w' = <["contacts" := (rows ++ [data])]> (db demo_world)
           /\ hook (Some failing_afterCreate_options) afterCreate = Some h
           /\ h data ctx = Some (HookError "mail server down")).
Proof.
  apply (failed_create_caches_and_revalidates_nothing (demo_env (Some "alice"))
           "contacts" accept_all (Some failing_afterCreate_options) jane None
           (VStr "alice") demo_world demo_world demo_world).
  - reflexivity.
  - reflexivity.
  - vm_compute. reflexivity.
Defined.

(** X15: after a cache miss, a [create] whose payload passes validation,
    whose hooks (if any) do not throw and whose insert the table accepts
    returns the stored row, whatever [revalidatePath] does: a path whose
    revalidation throws does not fail the call. *)
Theorem create_returns_the_stored_row
    (env : Env) (tableName : string) (insertSchema : Schema)
    (options : option CRUDOptions) (formData : Row) (idempotencyKey : option string)
    (owner : Value) (w0 w w1 : World) (validated : Row) (rows : Table) (data : Row) :
  cache_lookup env idempotencyKey w0 = (Ok None, w) ->
  resolveOwner env tableName options w = (Ok owner, w1) ->
  insertSchema (<[cfg_ownerIdColumn (config tableName options) := owner]>
                  (processData formData)) = inr validated ->
  db w0 !! tableName = Some rows ->
  insert_row env tableName rows validated = inr data ->
  (forall h ctx, hook options beforeCreate = Some h -> h validated ctx = None) ->
  (forall h ctx, hook options afterCreate = Some h -> h data ctx = None) ->
  (create env tableName insertSchema options formData idempotencyKey w0).1 = Ok data.
Proof.
  intros Hmiss Hres Hval Hrows Hins Hbefore Hafter.
  exact (create_runs_to_the_end env tableName insertSchema options formData
           idempotencyKey owner w0 w w1 Hmiss Hres validated rows data
           Hval Hrows Hins Hbefore Hafter).
Qed.

Lemma create_returns_the_stored_row_witness :
  (create flaky_env "contacts" accept_all (Some revalidating_options) jane None
     demo_world).1
  = Ok (<["owner_id" := VStr "alice"]> jane).
Proof.
  apply (create_returns_the_stored_row flaky_env "contacts" accept_all
           (Some revalidating_options) jane None (VStr "alice")
           demo_world demo_world demo_world
           (<["owner_id" := VStr "alice"]> jane)
           [contact "c1" "alice" "Ann"; contact "c2" "bob" "Ben"]).
  - reflexivity.
  - reflexivity.
  - vm_compute. reflexivity.
  - reflexivity.
  - reflexivity.
  - intros h ctx H. vm_compute in H. discriminate H.
  - intros h ctx H. vm_compute in H. discriminate H.
Defined.

(** ** What an [update] leaves behind *)

Section UpdateOutcomes.
Variable env : Env.
Variable tableName : string.
Variable updateSchema : Schema.
Variable options : option CRUDOptions.
Variables (id : string) (formData : Row) (idempotencyKey : option string).
Variables (owner : Value) (w0 w w1 : World).

Hypothesis missed : cache_lookup env idempotencyKey w0 = (Ok None, w).
Hypothesis resolved : resolveOwner env tableName options w = (Ok owner, w1).

Lemma update_outcomes :
  wp (update env tableName updateSchema options id formData idempotencyKey) w0
    (fun o v =>
       match o with
       | Ok data =>
           exists validated rows r,
             updateSchema (processData formData) = inr validated
             /\ db w0 !! tableName = Some rows
             /\ List.filter (matches (scope tableName options id owner)) rows = [r]
             /\ data = validated ∪ r
             /\ db v = <[tableName := patch_row validated
                                        (scope tableName options id owner) <$> rows]>
                         (db w0)
             /\ (if truthy_string idempotencyKey
                 then exists ts,
                     idempotencyCache v
                     = <[default "" idempotencyKey := {| result := data; timestamp := ts |}]>
                         (idempotencyCache w)
                 else idempotencyCache v = idempotencyCache w)
       | Throw e =>
           idempotencyCache v = idempotencyCache w
           /\ appended not_revalidate w0 v
           /\ (db v = db w0
               \/ exists validated rows r h previous ctx,
                    updateSchema (processData formData) = inr validated
                    /\ db w0 !! tableName = Some rows
                    /\ List.filter (matches (scope tableName options id owner)) rows = [r]
                    /\ db v = <[tableName := patch_row validated
                                               (scope tableName options id owner) <$> rows]>
                                (db w0)
                    /\ hook options afterUpdate = Some h
                    /\ h (validated ∪ r) previous ctx = Some e)
       end).
Proof.
  destruct (missed_cache_only _ _ _ _ missed) as [Hdb0 Htr0].
  destruct (preserves_run _ _ _ _ _
              (resolveOwner_quiet env not_revalidate tableName options I) resolved)
    as (Hdb1 & Hc1 & evs & Htr1 & Hevs).
  unfold update. fold (cache_lookup env idempotencyKey).
  wp_step. eapply wp_run; [exact missed | cbv beta iota].
  wp_step. eapply wp_run; [exact resolved | cbv beta iota].
  wp_steps using
    (first [ progress unfold exec_update_single, exec_update
           | match goal with
             | |- context [db w1 !! tableName] =>
                 destruct (db w1 !! tableName) as [rows|] eqn:Ht
             | |- context [List.filter (matches ?fs) ?rs] =>
                 is_var rs;
                 destruct (List.filter (matches fs) rs) as [|r [|r2 rest]] eqn:Hf;
                 cbn [fmap list_fmap]
             | |- wp (setCachedResult _ _ _) _ _ =>
                 eapply wp_run; [apply setCachedResult_run | cbv beta iota]
             end ]).
  all: lazymatch goal with
       | |- exists _, _ =>
           eexists _, _, _; split; [reflexivity |];
           split; [by rewrite <- Hdb0, <- Hdb1 |];
           split; [eassumption |];
           split; [reflexivity |];
           split; [by rewrite Hdb1, Hdb0 |]
       | |- _ /\ _ =>
           split; [exact Hc1 |];
           split;
           [ unfold appended; world_simpl; rewrite Htr1, Htr0, <- ?app_assoc;
             eexists; split; [reflexivity |];
             repeat (apply Forall_app; split); [exact Hevs | repeat constructor ..] |]
       end.
  all: first
         [ exact Hc1
         | rewrite Hc1; by eexists
         | left; by rewrite Hdb1, Hdb0
         | right; eexists _, _, _, _, _, _; split; [reflexivity |];
           split; [by rewrite <- Hdb0, <- Hdb1 |];
           split; [eassumption |];
           split; [by rewrite Hdb1, Hdb0 |];
           split; [reflexivity | eassumption] ].
Qed.

End UpdateOutcomes.

(** X16: an [update] that the idempotency cache does not answer and that
    returns found exactly one row of the collection with the given id and
    the caller's owner id.  It returns that row with the validated fields
    laid over it, has put the same fields over that row in its place in the
    table, and has left every other row and table as it was.  With a
    non-empty key the result is then in the cache under that key; without
    one the cache is left alone. *)
Theorem update_patches_the_one_row_in_scope
    (env : Env) (tableName : string) (updateSchema : Schema)
    (options : option CRUDOptions) (id : string) (formData : Row)
    (idempotencyKey : option string) (owner : Value) (w0 w w1 w' : World) (data : Row) :
  cache_lookup env idempotencyKey w0 = (Ok None, w) ->
  resolveOwner env tableName options w = (Ok owner, w1) ->
  update env tableName updateSchema options id formData idempotencyKey w0
  = (Ok data, w') ->
  exists validated rows r,
    updateSchema (processData formData) = inr validated
    /\ db w0 !! tableName = Some rows
    /\ List.filter (matches (scope tableName options id owner)) rows = [r]
    /\ data = validated ∪ r
    /\ db w' = <[tableName := (fun x => if matches (scope tableName options id owner) x
                                        then validated ∪ x else x) <$> rows]> (db w0)
    /\ (forall key, idempotencyKey = Some key -> key <> "" ->
        exists entry, idempotencyCache w' !! key = Some entry /\ result entry = data)
    /\ (truthy_string idempotencyKey = false -> idempotencyCache w' = idempotencyCache w).
Proof.
  intros Hmiss Hres Hrun.
  pose proof (wp_elim _ _ _ _ _
                (update_outcomes env tableName updateSchema options id formData
                   idempotencyKey owner w0 w w1 Hmiss Hres) Hrun)
    as (validated & rows & r & Hval & Hrows & Hone & Hdata & Hdb & Hcache).
  exists validated, rows, r. repeat (split; [assumption |]). split.
  - intros key -> Hkey. rewrite truthy_string_Some in Hcache by done.
    destruct Hcache as [ts ->]. eexists. split; [apply lookup_insert_eq | done].
  - intros Hfalsy. by rewrite Hfalsy in Hcache.
Qed.

Lemma update_patches_the_one_row_in_scope_witness :
  exists validated rows r,
    accept_all (processData jane) = inr validated
    /\ db demo_world !! "contacts" = Some rows
    /\ List.filter (matches (scope "contacts" None "c1" (VStr "alice"))) rows = [r]
    /\ <["name" := VStr "Jane"]> (contact "c1" "alice" "Ann") = validated ∪ r
    /\ db (update (demo_env (Some "alice")) "contacts" accept_all None "c1" jane
             (Some "key-2") demo_world).2
       = <["contacts" := (fun x => if matches (scope "contacts" None "c1" (VStr "alice")) x
                                   then validated ∪ x else x) <$> rows]> (db demo_world)
    /\ (forall key, Some "key-2" = Some key -> key <> "" ->
        exists entry,
          idempotencyCache
            (update (demo_env (Some "alice")) "contacts" accept_all None "c1" jane
               (Some "key-2") demo_world).2 !! key = Some entry
          /\ result entry = <["name" := VStr "Jane"]> (contact "c1" "alice" "Ann"))
    /\ (truthy_string (Some "key-2") = false ->
        idempotencyCache
          (update (demo_env (Some "alice")) "contacts" accept_all None "c1" jane
             (Some "key-2") demo_world).2
        = idempotencyCache
            (cache_lookup (demo_env (Some "alice")) (Some "key-2") demo_world).2).
Proof.
  apply (update_patches_the_one_row_in_scope (demo_env (Some "alice")) "contacts"
           accept_all None "c1" jane (Some "key-2") (VStr "alice") demo_world
           (cache_lookup (demo_env (Some "alice")) (Some "key-2") demo_world).2
           (cache_lookup (demo_env (Some "alice")) (Some "key-2") demo_world).2
           (update (demo_env (Some "alice")) "contacts" accept_all None "c1" jane
              (Some "key-2") demo_world).2
           (<["name" := VStr "Jane"]> (contact "c1" "alice" "Ann"))).
  - vm_compute. reflexivity.
  - vm_compute. reflexivity.
  - vm_compute. reflexivity.
Defined.

(** X17: an [update] that throws after a cache miss has stored nothing in
    the idempotency cache and has called [revalidatePath] for no path.  The
    tables are as before the call (also when no row, or more than one, was
    in scope), with one exception: when the error comes from the
    [afterUpdate] hook the row is already changed. *)
Theorem failed_update_caches_and_revalidates_nothing
    (env : Env) (tableName : string) (updateSchema : Schema)
    (options : option CRUDOptions) (id : string) (formData : Row)
    (idempotencyKey : option string) (owner : Value) (w0 w w1 w' : World) (e : Err) :
  cache_lookup env idempotencyKey w0 = (Ok None, w) ->
  resolveOwner env tableName options w = (Ok owner, w1) ->
  update env tableName updateSchema options id formData idempotencyKey w0
  = (Throw e, w') ->
  idempotencyCache w' = idempotencyCache w
  /\ appended not_revalidate w0 w'
  /\ (db w' = db w0
      \/ exists validated rows r h previous ctx,
           updateSchema (processData formData) = inr validated
           /\ db w0 !! tableName = Some rows
           /\ List.filter (matches (scope tableName options id owner)) rows = [r]
           /\ db w' = <[tableName := patch_row validated
                                       (scope tableName options id owner) <$> rows]>
                        (db w0)
           /\ hook options afterUpdate = Some h
           /\ h (validated ∪ r) previous ctx = Some e).
Proof.
  intros Hmiss Hres Hrun.
  exact (wp_elim _ _ _ _ _
           (update_outcomes env tableName updateSchema options id formData
              idempotencyKey owner w0 w w1 Hmiss Hres) Hrun).
Qed.

Lemma failed_update_caches_and_revalidates_nothing_witness :
  let w' := (update (demo_env (Some "alice")) "contacts" accept_all None "c2" jane None
               demo_world).2 in
  idempotencyCache w' = idempotencyCache demo_world
  /\ appended not_revalidate demo_world w'
  /\ (db w' = db demo_world
      \/ exists validated rows r h previous ctx,
           accept_all (processData jane) = inr validated
           /\ db demo_world !! "contacts" = Some rows
           /\ List.filter (matches (scope "contacts" None "c2" (VStr "alice"))) rows = [r]
           /\ db w' = <["contacts" := patch_row validated
                                        (scope "contacts" None "c2" (VStr "alice"))
                                        <$> rows]> (db demo_world)
           /\ hook None afterUpdate = Some h
           /\ h (validated ∪ r) previous ctx = Some (StorageError PGRST116)).
Proof.
  apply (failed_update_caches_and_revalidates_nothing (demo_env (Some "alice"))
           "contacts" accept_all None "c2" jane None (VStr "alice")
           demo_world demo_world demo_world).
  - reflexivity.
  - reflexivity.
  - vm_compute. reflexivity.
Defined.



(** ** Revalidation *)

Lemma revalidated_calls env paths :
  exists called,
    revalidated env paths = EvRevalidate <$> called
    /\ called `prefix_of` paths
    /\ (forall i q, called !! i = Some q -> (S i < length called)%nat ->
          revalidatePath_throws env q = false)
    /\ (called <> paths ->
        exists q, last called = Some q /\ revalidatePath_throws env q = true).
Proof.
  induction paths as [|p rest IH].
  - exists []. split; [done |]. split; [done |]. split; [| done].
    intros i q Hi. by rewrite lookup_nil in Hi.
  - destruct IH as (called & Hrun & Hpre & Hquiet & Hlast).
    cbn [revalidated]. destruct (revalidatePath_throws env p) eqn:Hp.
    + exists [p]. split; [done |]. split; [by apply prefix_cons, prefix_nil |].
      split.
      * intros i q _ Hi. cbn [length] in Hi. lia.
      * intros _. by exists p.
    + exists (p :: called). split; [by rewrite Hrun |].
      split; [by apply prefix_cons |]. split.
      * intros [|i] q Hi Hlen; cbn [length] in Hlen.
        -- by injection Hi as <-.
        -- apply (Hquiet i q Hi). lia.
      * intros Hne. destruct Hlast as (q & Hq & Hthrows); [congruence |].
        exists q. split; [| done].
        destruct called as [|c called']; [done |]. exact Hq.
Qed.

(** X19: [revalidateAllPaths] never throws and changes nothing but the
    trace.  It calls [revalidatePath] on the paths in order and stops right
    after the first call that throws: the paths it has called are a prefix of
    the list, none of them but the last threw, and if some path was left out
    then the last one called did throw. *)
Theorem revalidateAllPaths_stops_at_the_first_failure
    (env : Env) (paths : list string) (w : World) :
  exists called,
    revalidateAllPaths env paths w = (Ok tt, log_all (EvRevalidate <$> called) w)
    /\ called `prefix_of` paths
    /\ (forall i q, called !! i = Some q -> (S i < length called)%nat ->
          revalidatePath_throws env q = false)
    /\ (called <> paths ->
        exists q, last called = Some q /\ revalidatePath_throws env q = true).
Proof.
  destruct (revalidated_calls env paths) as (called & Hrun & Hrest).
  exists called. split; [| exact Hrest].
  by rewrite revalidateAllPaths_run, Hrun.
Qed.

(** ** Calls that leave the idempotency cache alone *)

Global Instance same_cache_preorder : PreOrder same_cache.
Proof.
  split.
  - intros w. reflexivity.
  - intros w1 w2 w3 H12 H23. unfold same_cache in *. congruence.
Qed.

Lemma quiet_same_cache P w w' : quiet P w w' -> same_cache w w'.
Proof. by intros (_ & C & _). Qed.

Lemma await_write_same_cache {A} op t (run : DB -> Response A * DB) :
  preserves same_cache (await_write op t run).
Proof. intros w. unfold await_write, same_cache. by destruct (run (db w)). Qed.

Section CacheUntouched.
Variable env : Env.
Variable tableName : string.
Variable insertSchema updateSchema : Schema.
Variable options : option CRUDOptions.

Local Hint Resolve await_write_same_cache : frame.
Local Hint Extern 10 (preserves same_cache _) =>
  eapply (preserves_weaken (quiet any_event)); [apply quiet_same_cache |] : frame.

Lemma getAll_same_cache queryOptions :
  preserves same_cache (getAll env tableName options queryOptions).
Proof. unfold getAll. frame. Qed.

Lemma getOne_same_cache id : preserves same_cache (getOne env tableName options id).
Proof. unfold getOne. frame. Qed.

Lemma deleteRecord_same_cache id :
  preserves same_cache (deleteRecord env tableName options id).
Proof. unfold deleteRecord, await_update, await_delete. frame. Qed.

Lemma archive_same_cache id : preserves same_cache (archive env tableName options id).
Proof. unfold archive. frame. Qed.

Lemma unarchive_same_cache id :
  preserves same_cache (unarchive env tableName options id).
Proof. unfold unarchive, await_update. frame. Qed.

Lemma create_keyless_same_cache formData idempotencyKey :
  truthy_string idempotencyKey = false ->
  preserves same_cache (create env tableName insertSchema options formData idempotencyKey).
Proof. intros Hkey. unfold create, await_insert_single. rewrite Hkey. frame. Qed.

Lemma update_keyless_same_cache id formData idempotencyKey :
  truthy_string idempotencyKey = false ->
  preserves same_cache
    (update env tableName updateSchema options id formData idempotencyKey).
Proof. intros Hkey. unfold update, await_update_single. rewrite Hkey. frame. Qed.
End CacheUntouched.

(** X20: the idempotency cache changes only through [create] and [update]
    called with a non-empty key.  A call whose key is absent or the empty
    string behaves exactly like the call without a key and leaves the cache
    as it was, whatever it returns or throws; [getAll], [getOne],
    [deleteRecord], [archive] and [unarchive] never touch the cache. *)
Theorem cache_changes_only_through_keyed_calls
    (env : Env) (tableName : string) (insertSchema updateSchema : Schema)
    (options : option CRUDOptions) (id : string) (formData : Row)
    (idempotencyKey : option string) (queryOptions : option QueryOptions) (w : World) :
  truthy_string idempotencyKey = false ->
  let unchanged w' := idempotencyCache w' = idempotencyCache w in
  create env tableName insertSchema options formData idempotencyKey w
  = create env tableName insertSchema options formData None w
  /\ update env tableName updateSchema options id formData idempotencyKey w
     = update env tableName updateSchema options id formData None w
  /\ unchanged (create env tableName insertSchema options formData idempotencyKey w).2
  /\ unchanged (update env tableName updateSchema options id formData idempotencyKey w).2
  /\ unchanged (getAll env tableName options queryOptions w).2
  /\ unchanged (getOne env tableName options id w).2
  /\ unchanged (deleteRecord env tableName options id w).2
  /\ unchanged (archive env tableName options id w).2
  /\ unchanged (unarchive env tableName options id w).2.
Proof.
  intros Hkey unchanged. subst unchanged. cbv beta.
  split; [by unfold create; rewrite Hkey |].
  split; [by unfold update; rewrite Hkey |].
  split; [by apply create_keyless_same_cache |].
  split; [by apply update_keyless_same_cache |].
  split; [apply getAll_same_cache |].
  split; [apply getOne_same_cache |].
  split; [apply deleteRecord_same_cache |].
  split; [apply archive_same_cache | apply unarchive_same_cache].
Qed.

Lemma cache_changes_only_through_keyed_calls_witness :
  let env := demo_env (Some "alice") in
  let unchanged w' := idempotencyCache w' = idempotencyCache stale_world in
  create env "contacts" accept_all None jane (Some "") stale_world
  = create env "contacts" accept_all None jane None stale_world
  /\ update env "contacts" accept_all None "c1" jane (Some "") stale_world
     = update env "contacts" accept_all None "c1" jane None stale_world
  /\ unchanged (create env "contacts" accept_all None jane (Some "") stale_world).2
  /\ unchanged (update env "contacts" accept_all None "c1" jane (Some "") stale_world).2
  /\ unchanged (getAll env "contacts" None None stale_world).2
  /\ unchanged (getOne env "contacts" None "c1" stale_world).2
  /\ unchanged (deleteRecord env "contacts" None "c1" stale_world).2
  /\ unchanged (archive env "contacts" None "c1" stale_world).2
  /\ unchanged (unarchive env "contacts" None "c1" stale_world).2.
Proof.
  apply (cache_changes_only_through_keyed_calls (demo_env (Some "alice")) "contacts"
           accept_all accept_all None "c1" jane (Some "") None stale_world).
  reflexivity.
Defined.

(** ** The React hooks *)

(** X21: [useOptimisticCRUD(crudFunction).execute] always settles with
    [isPending] false, whatever the state it was called in.  While the call
    is awaited the state is pending with no error.  It resolves exactly when
    [crudFunction] does, with the same value and no error in the state; it
    rejects with an [Error] that is also the [error] of the state: the one
    thrown, or a new one with the message "An unknown error occurred" when
    what was thrown is no [Error].  [reset] then brings the state back to
    idle. *)
Theorem execute_settles_and_reports_the_error
    {TArgs TResult : Type} (crudFunction : TArgs -> Thrown + TResult)
    (args : TArgs) (s : CRUDState) :
  let outcome := (execute crudFunction args s).1 in
  let s' := (execute crudFunction args s).2 in
  execute_pending s = {| isPending := true; error := None |}
  /\ isPending s' = false
  /\ (forall r, outcome = inr r <-> crudFunction args = inr r)
  /\ (forall e, outcome = inl e <-> error s' = Some e)
  /\ (forall e, crudFunction args = inl (ThrownError e) -> outcome = inl e)
  /\ (forall v, crudFunction args = inl (ThrownValue v) ->
        outcome = inl {| error_name := "Error";
                         error_message := "An unknown error occurred" |})
  /\ reset s' = {| isPending := false; error := None |}.
Proof.
  unfold execute, execute_pending, reset.
  destruct (crudFunction args) as [err|r]; cbn [fst snd isPending error].
  all: split_and!; try done.
  all: intros; try split; intros; by simplify_eq/=.
Qed.

Section WithData.
Context {TArgs TResult TOptimistic : Type}.
Variable crudFunction : TArgs -> Thrown + TResult.
Variable hook_options : option (OptimisticOptions TArgs TResult TOptimistic).
Variables (args : TArgs) (s : CRUDDataState TOptimistic).

Lemma not_in_calls (c : HookCall) (calls : list HookCall) :
  forallb (fun c' => match c, c' with
                     | CrudCalled, CrudCalled => false
                     | OnErrorCalled _, OnErrorCalled _ => false
                     | OnSuccessCalled, OnSuccessCalled => false
                     | _, _ => true
                     end) calls = true ->
  c ∉ calls.
Proof.
  intros Hall Hin. apply list_elem_of_In in Hin.
  rewrite forallb_forall in Hall. specialize (Hall c Hin). by destruct c.
Qed.

Lemma execute_catch_settles err calls :
  let e := toError err in
  exists thrown,
    execute_catch hook_options err calls
    = (inl thrown,
       {| d_isPending := false; d_error := Some e; optimisticData := None |},
       calls ++ match hook_options ≫= onError with
                | Some _ => [OnErrorCalled e]
                | None => []
                end)
    /\ thrown = match hook_options ≫= onError with
                | Some f => default (ThrownError e) (f e)
                | None => ThrownError e
                end.
Proof.
  intros e. unfold execute_catch. fold e.
  destruct (hook_options ≫= onError) as [f|].
  - destruct (f e) as [thrown|]; eexists; split; reflexivity.
  - rewrite app_nil_r. eexists; split; reflexivity.
Qed.
End WithData.

(** X22: once [getOptimisticData] (if given) has returned,
    [useOptimisticCRUDWithData(...).execute] shows its value as
    [optimisticData] while [crudFunction] is awaited, calls [crudFunction]
    exactly once and before any callback, and settles with [isPending] false
    and [optimisticData] cleared.  It resolves with the result only if
    [crudFunction] resolved and [onSuccess] (if given) did not throw; then
    the state has no error and [onError] was not called.  Otherwise the
    state's error is the [Error] made of what [crudFunction] or [onSuccess]
    threw, [onError] (if given) is called once with it, last, and [execute]
    rejects with that error, or with what [onError] itself threw: no call of
    [onError] comes before that last one. *)
Theorem execute_with_data_settles
    {TArgs TResult TOptimistic : Type} (crudFunction : TArgs -> Thrown + TResult)
    (hook_options : option (OptimisticOptions TArgs TResult TOptimistic))
    (args : TArgs) (s pending : CRUDDataState TOptimistic) :
  execute_with_data_pending hook_options args s = inr pending ->
  exists outcome s' rest,
    execute_with_data crudFunction hook_options args s
    = (outcome, s', CrudCalled :: rest)
    /\ (CrudCalled ∉ rest)
    /\ d_isPending pending = true /\ d_error pending = None
    /\ (forall g, hook_options ≫= getOptimisticData = Some g ->
          exists o, g args = inr o /\ optimisticData pending = Some o)
    /\ d_isPending s' = false /\ optimisticData s' = None
    /\ (forall r, outcome = inr r ->
          crudFunction args = inr r /\ d_error s' = None
          /\ (forall e, OnErrorCalled e ∉ rest)
          /\ (forall f, hook_options ≫= onSuccess = Some f -> f r = None))
    /\ (forall thrown, outcome = inl thrown ->
          exists cause,
            d_error s' = Some (toError cause)
            /\ (crudFunction args = inl cause
                \/ exists r f, crudFunction args = inr r
                              /\ hook_options ≫= onSuccess = Some f
                              /\ f r = Some cause)
            /\ match hook_options ≫= onError with
               | Some f =>
                   last rest = Some (OnErrorCalled (toError cause))
                   /\ thrown = default (ThrownError (toError cause)) (f (toError cause))
                   /\ exists before,
                       rest = before ++ [OnErrorCalled (toError cause)]
                       /\ forall e, OnErrorCalled e ∉ before
               | None =>
                   thrown = ThrownError (toError cause)
                   /\ forall e, OnErrorCalled e ∉ rest
               end).
Proof.
  intros Hpending. unfold execute_with_data. rewrite Hpending.
  assert (d_isPending pending = true /\ d_error pending = None
          /\ forall g, hook_options ≫= getOptimisticData = Some g ->
               exists o, g args = inr o /\ optimisticData pending = Some o)
    as (Hp1 & Hp2 & Hp3).
  { unfold execute_with_data_pending in Hpending.
    destruct (hook_options ≫= getOptimisticData) as [g|].
    - destruct (g args) as [t|o] eqn:Hg; [done |]. injection Hpending as <-.
      repeat split. intros g' [= <-]. by exists o.
    - injection Hpending as <-. by repeat split. }
  unfold execute_try.
  destruct (crudFunction args) as [err|r] eqn:Hcrud.
  - destruct (execute_catch_settles hook_options err [CrudCalled]) as (thrown & -> & Hthrown).
    eexists _, _, _. split; [reflexivity |].
    split; [by destruct (hook_options ≫= onError); apply not_in_calls |].
    repeat (split; [assumption || reflexivity |]).
    split; [done |].
    intros thrown' [= <-]. exists err. split; [done |]. split; [by left |].
    destruct (hook_options ≫= onError) as [f|].
    + split; [done |]. split; [done |]. exists []. split; [done |].
      intros e. by apply not_in_calls.
    + split; [done |]. intros e. by apply not_in_calls.
  - destruct (hook_options ≫= onSuccess) as [f|] eqn:Hsucc.
    + destruct (f r) as [cause|] eqn:Hf.
      * destruct (execute_catch_settles hook_options cause [CrudCalled; OnSuccessCalled])
          as (thrown & -> & Hthrown).
        eexists _, _, _. split; [reflexivity |].
        split; [by destruct (hook_options ≫= onError); apply not_in_calls |].
        repeat (split; [assumption || reflexivity |]).
        split; [done |].
        intros thrown' [= <-]. exists cause. split; [done |].
        split; [right; by exists r, f |].
        destruct (hook_options ≫= onError) as [f'|].
        -- split; [done |]. split; [done |]. exists [OnSuccessCalled].
           split; [done |]. intros e. by apply not_in_calls.
        -- split; [done |]. intros e. by apply not_in_calls.
      * eexists _, _, _. split; [reflexivity |].
        split; [by apply not_in_calls |].
        repeat (split; [assumption || reflexivity |]).
        split; [| done].
        intros r' [= <-]. split; [done |]. split; [done |].
        split; [intros e; by apply not_in_calls |].
        by intros f' [= <-].
    + eexists _, _, _. split; [reflexivity |].
      split; [by apply not_in_calls |].
      repeat (split; [assumption || reflexivity |]).
      split; [| done].
      intros r' [= <-]. split; [done |]. split; [done |].
      split; [intros e; by apply not_in_calls | done].
Qed.

Lemma execute_with_data_settles_witness :
  exists outcome s' rest,
    execute_with_data rejecting_action optimistic_form jane idle
    = (outcome, s', CrudCalled :: rest)
    /\ d_isPending s' = false
    /\ optimisticData s' = None.
Proof.
  destruct (execute_with_data_settles rejecting_action optimistic_form jane idle
              {| d_isPending := true; d_error := None;
                 optimisticData := Some (<["id" := VStr "temp"]> jane) |})
    as (outcome & s' & rest & Hrun & _ & _ & _ & _ & Hsettled & Hcleared & _).
  - reflexivity.
  - exists outcome, s', rest. split; [exact Hrun | split; [exact Hsettled | exact Hcleared]].
Defined.

(** X23: when [getOptimisticData] throws, [execute] rejects with the very
    value thrown, before the [try] block: [crudFunction] and the callbacks
    are never called, no error is recorded, and [isPending] stays true. *)
Theorem getOptimisticData_failure_leaves_the_hook_pending
    {TArgs TResult TOptimistic : Type} (crudFunction : TArgs -> Thrown + TResult)
    (hook_options : option (OptimisticOptions TArgs TResult TOptimistic))
    (args : TArgs) (s : CRUDDataState TOptimistic)
    (g : TArgs -> Thrown + TOptimistic) (thrown : Thrown) :
  hook_options ≫= getOptimisticData = Some g ->
  g args = inl thrown ->
  exists s',
    execute_with_data crudFunction hook_options args s = (inl thrown, s', [])
    /\ d_isPending s' = true
    /\ d_error s' = None
    /\ optimisticData s' = optimisticData s
    /\ reset_with_data s'
       = {| d_isPending := false; d_error := None; optimisticData := None |}.
Proof.
  intros Hg Hthrows. unfold execute_with_data, execute_with_data_pending.
  rewrite Hg, Hthrows. eexists. by repeat split.
Qed.

Lemma getOptimisticData_failure_leaves_the_hook_pending_witness :
  exists s',
    execute_with_data rejecting_action broken_preview jane idle
    = (inl (ThrownValue (VStr "no preview")), s', [])
    /\ d_isPending s' = true
    /\ d_error s' = None
    /\ optimisticData s' = optimisticData idle
    /\ reset_with_data s'
       = {| d_isPending := false; d_error := None; optimisticData := None |}.
Proof.
  apply (getOptimisticData_failure_leaves_the_hook_pending rejecting_action
           broken_preview jane idle
           (fun _ => inl (ThrownValue (VStr "no preview")))).
  - reflexivity.
  - reflexivity.
Defined.
